(** * Storchastic: graph nodes, plates and baselines

    A shallow embedding of [storch/tensor.py] (the classes [Tensor],
    [DeterministicTensor], [IndependentTensor] and [StochasticTensor]) and of
    [storch/method/baseline.py] (the moving-average and batch-average
    baselines), with the properties of the specification stated and proved
    over it.

    Python objects live in a store indexed by their identity; constructors
    are state transformers that return either the new object or the
    exception they raise.  Integers are [Z]; the entries of a tensor and
    the costs of the batch-average baseline are rationals; the buffers of
    the moving-average baseline are float32 values, with the rounding of
    every operation written out. *)

From Stdlib Require Import ZArith QArith Qabs Lia.
From stdpp Require Import base gmap strings list fin_maps sets.

(** ** Data model *)

(** [Plate = Tuple[str, int]]. *)
Definition Plate : Type := string * Z.

(** The part of a [torch.Tensor] the code reads: its shape, and its entries
    in row-major order. *)
Record torch_Tensor : Type := mk_torch {
  shape : list Z;
  data : list Q
}.

(** [tensor.dim()] is the number of dimensions. *)
Definition dim (t : torch_Tensor) : nat := length (shape t).

(** Object identity ([object.__hash__], used by the visited sets). *)
Definition node_id : Type := nat.

(** The messages of the exceptions raised by the code, with the values that
    are formatted into them. *)
Inductive message : Type :=
  | TwoInstancesOfPlate (plate_name : string)
  | ShapeTooSmall (batch_len n_links n_dims : nat)
  | PlateViolated (batch_len : nat) (plate_name : string) (plate_n actual : Z)
                  (batch_links : list Plate) (tensor_shape : list Z)
  | CostNodesCannotHaveChildren
  | CostNodeWithoutName
  | IndependentNameInUse (name : string)
  | StochasticNameInUse (name : string)
  | SingleSampleBatchAverage.

Inductive exn : Type :=
  | ValueError (m : message)
  | IndexError
  | AttributeError (name : string)
  | IllegalConditionalError.

(** The class of an object together with the attributes its subclass adds.
    [sampling_method] and [_grad] of a stochastic node are never read by the
    code below and are left out. *)
Inductive variant : Type :=
  | BaseTensor
  | Deterministic (_is_cost : bool)
  | Independent (n : Z)
  | Stochastic (n : Z) (distribution : gmap string torch_Tensor)
               (_requires_grad : bool) (_accum_grads : gmap string torch_Tensor).

(** The attributes assigned by [Tensor.__init__]. *)
Record Tensor : Type := mk_Tensor {
  _name : option string;
  _tensor : torch_Tensor;
  _parents : list (node_id * bool);
  _children : list (node_id * bool);
  batch_len : nat;
  event_shape : list Z;
  batch_links : list Plate;
  kind : variant
}.

(** The properties [is_cost] and [stochastic], as overridden by the
    subclasses. *)
Definition is_cost (t : Tensor) : bool :=
  match kind t with
  | Deterministic c => c
  | _ => false
  end.

Definition stochastic (t : Tensor) : bool :=
  match kind t with
  | Stochastic _ _ _ _ => true
  | _ => false
  end.

(** Process-wide state: the object store, the allocation counter of
    [__new__], [storch.inference._cost_tensors] and torch's gradient mode. *)
Record world : Type := mk_world {
  heap : gmap node_id Tensor;
  next_id : node_id;
  _cost_tensors : list node_id;
  grad_enabled : bool
}.

Definition set_heap (h : gmap node_id Tensor) (w : world) : world :=
  mk_world h (next_id w) (_cost_tensors w) (grad_enabled w).

Definition append_cost_tensor (self : node_id) (w : world) : world :=
  mk_world (heap w) (next_id w) (_cost_tensors w ++ [self]) (grad_enabled w).

(** [__new__]: a fresh object, with no attribute assigned yet. *)
Definition Tensor__new__ (w : world) : node_id * world :=
  (next_id w,
   mk_world (heap w) (S (next_id w)) (_cost_tensors w) (grad_enabled w)).

(** Truthiness of an [Optional[str]]: [None] and the empty string are
    falsy. *)
Definition truthy (name : option string) : bool :=
  match name with
  | None => false
  | Some s => negb (String.eqb s "")
  end.

(** ** [Tensor.__init__] *)

(** The first loop of [Tensor.__init__]: [plate_names] and [batch_len] are
    the loop variables; [all_links] is the whole list (formatted into the
    messages).  [tensor_shape !! batch_len] is [None] exactly when
    [len(tensor.shape) <= batch_len]. *)
Fixpoint check_batch_links (tensor_shape : list Z) (all_links : list Plate)
    (plate_names : gset string) (batch_len : nat) (links : list Plate)
    : exn + nat :=
  match links with
  | [] => inr batch_len
  | (plate_name, plate_n) :: rest =>
      if decide (plate_name ∈ plate_names) then
        inl (ValueError (TwoInstancesOfPlate plate_name))
      else
        let plate_names := {[plate_name]} ∪ plate_names in
        if (plate_n =? 1)%Z then
          check_batch_links tensor_shape all_links plate_names batch_len rest
        else
          match tensor_shape !! batch_len with
          | None =>
              inl (ValueError (ShapeTooSmall batch_len (length all_links)
                                             (length tensor_shape)))
          | Some d =>
              if (d =? plate_n)%Z then
                check_batch_links tensor_shape all_links plate_names
                                  (S batch_len) rest
              else
                inl (ValueError (PlateViolated batch_len plate_name plate_n d
                                               all_links tensor_shape))
          end
  end.

Section Graph.

(** [storch.util.has_backwards_path(child, parent)] belongs to the numeric
    engine's side: it is an oracle on the two objects. *)
Variable has_backwards_path : node_id → node_id → bool.

(** [p.is_cost] for a reference [p]. *)
Definition ref_is_cost (h : gmap node_id Tensor) (p : node_id) : bool :=
  match h !! p with
  | Some t => is_cost t
  | None => false
  end.

(** [p._children.append((self, d))]. *)
Definition add_child (self : node_id) (d : bool) (t : Tensor) : Tensor :=
  mk_Tensor (_name t) (_tensor t) (_parents t) (_children t ++ [(self, d)])
            (batch_len t) (event_shape t) (batch_links t) (kind t).

(** The second loop of [Tensor.__init__].  [acc] is [self._parents] so far;
    the store is returned as the loop left it, also when it raises. *)
Fixpoint link_parents (self : node_id) (parents : list node_id)
    (acc : list (node_id * bool)) (h : gmap node_id Tensor)
    : gmap node_id Tensor * (exn + list (node_id * bool)) :=
  match parents with
  | [] => (h, inr acc)
  | p :: rest =>
      if ref_is_cost h p then
        (h, inl (ValueError CostNodesCannotHaveChildren))
      else
        let differentiable_link := has_backwards_path self p in
        link_parents self rest (acc ++ [(p, differentiable_link)])
                     (alter (add_child self differentiable_link) p h)
  end.

(** [Tensor.__init__(self, tensor, parents, batch_links, name)].  [k] is the
    class of [self] with the attributes the subclass constructor assigns.
    When the constructor raises, [self] stays without an entry in the store
    (its attributes were only partly assigned), while the effects on other
    objects remain. *)
Definition Tensor__init__ (self : node_id) (tensor : torch_Tensor)
    (parents : list node_id) (batch_links : list Plate) (name : option string)
    (k : variant) (w : world) : world * (exn + unit) :=
  match check_batch_links (shape tensor) batch_links ∅ 0 batch_links with
  | inl e => (w, inl e)
  | inr batch_len =>
      match link_parents self parents [] (heap w) with
      | (h, inl e) => (set_heap h w, inl e)
      | (h, inr parents') =>
          let node :=
            mk_Tensor name tensor parents' [] batch_len
                      (drop batch_len (shape tensor)) batch_links k in
          (set_heap (<[self := node]> h) w, inr ())
      end
  end.

(** [Tensor(tensor, parents, batch_links, name)]: [__new__], then
    [__init__]. *)
Definition new_Tensor (tensor : torch_Tensor) (parents : list node_id)
    (batch_links : list Plate) (name : option string) (w : world)
    : world * (exn + node_id) :=
  let '(self, w) := Tensor__new__ w in
  match Tensor__init__ self tensor parents batch_links name BaseTensor w with
  | (w, inl e) => (w, inl e)
  | (w, inr _) => (w, inr self)
  end.

(** ** [DeterministicTensor.__init__] *)

Definition DeterministicTensor__init__ (self : node_id) (tensor : torch_Tensor)
    (parents : list node_id) (batch_links : list Plate) (is_cost : bool)
    (name : option string) (w : world) : world * (exn + unit) :=
  match Tensor__init__ self tensor parents batch_links name
                       (Deterministic is_cost) w with
  | (w, inl e) => (w, inl e)
  | (w, inr _) =>
      if is_cost && grad_enabled w then
        let w := append_cost_tensor self w in
        if negb (truthy name) then (w, inl (ValueError CostNodeWithoutName))
        else (w, inr ())
      else (w, inr ())
  end.

Definition new_DeterministicTensor (tensor : torch_Tensor)
    (parents : list node_id) (batch_links : list Plate) (is_cost : bool)
    (name : option string) (w : world) : world * (exn + node_id) :=
  let '(self, w) := Tensor__new__ w in
  match DeterministicTensor__init__ self tensor parents batch_links is_cost
                                    name w with
  | (w, inl e) => (w, inl e)
  | (w, inr _) => (w, inr self)
  end.

(** ** [IndependentTensor.__init__] and [StochasticTensor.__init__] *)

(** The loop [for plate_name, plate_n in batch_links: if plate_name == name:
    raise]. *)
Definition name_in_use (name : string) (batch_links : list Plate) : bool :=
  existsb (λ plate, String.eqb (fst plate) name) batch_links.

(** [batch_links.insert(0, (name, n))] is written as a cons: the caller's
    list is taken to be a copy, as the constructors' callers pass it. *)
Definition IndependentTensor__init__ (self : node_id) (tensor : torch_Tensor)
    (parents : list node_id) (batch_links : list Plate) (name : string)
    (w : world) : world * (exn + unit) :=
  match shape tensor with
  | [] => (w, inl IndexError)
  | n :: _ =>
      if name_in_use name batch_links then
        (w, inl (ValueError (IndependentNameInUse name)))
      else
        Tensor__init__ self tensor parents ((name, n) :: batch_links)
                       (Some name) (Independent n) w
  end.

Definition StochasticTensor__init__ (self : node_id) (tensor : torch_Tensor)
    (parents : list node_id) (batch_links : list Plate)
    (distribution : gmap string torch_Tensor) (requires_grad : bool) (n : Z)
    (name : string) (w : world) : world * (exn + unit) :=
  if name_in_use name batch_links then
    (w, inl (ValueError (StochasticNameInUse name)))
  else
    Tensor__init__ self tensor parents ((name, n) :: batch_links)
                   (Some name) (Stochastic n distribution requires_grad ∅) w.

Definition new_IndependentTensor (tensor : torch_Tensor)
    (parents : list node_id) (batch_links : list Plate) (name : string)
    (w : world) : world * (exn + node_id) :=
  let '(self, w) := Tensor__new__ w in
  match IndependentTensor__init__ self tensor parents batch_links name w with
  | (w, inl e) => (w, inl e)
  | (w, inr _) => (w, inr self)
  end.

Definition new_StochasticTensor (tensor : torch_Tensor)
    (parents : list node_id) (batch_links : list Plate)
    (distribution : gmap string torch_Tensor) (requires_grad : bool) (n : Z)
    (name : string) (w : world) : world * (exn + node_id) :=
  let '(self, w) := Tensor__new__ w in
  match StochasticTensor__init__ self tensor parents batch_links distribution
                                 requires_grad n name w with
  | (w, inl e) => (w, inl e)
  | (w, inr _) => (w, inr self)
  end.

(** ** Navigation: [_walk], [walk_parents], [walk_children] *)

(** [lambda p: p._parents] and [lambda p: p._children]. *)
Definition expand_parents (h : gmap node_id Tensor) (p : node_id)
    : list (node_id * bool) :=
  match h !! p with
  | Some t => _parents t
  | None => []
  end.

Definition expand_children (h : gmap node_id Tensor) (p : node_id)
    : list (node_id * bool) :=
  match h !! p with
  | Some t => _children t
  | None => []
  end.

Section Walk.

Context {A : Type}.
Variable expand_fn : node_id → list (node_id * bool).
Variables only_differentiable repeat_visited : bool.
Variable walk_fn : node_id → A.

(** The nodes the depth-first branch appends to [S] while it expands a node:
    [for w, d in expand_fn(v): if d or not only_differentiable:
    S.append(w)]. *)
Definition pushed (v : node_id) : list node_id :=
  fst <$> filter (λ wd, orb (snd wd) (negb only_differentiable)) (expand_fn v).

(** The depth-first [while S] loop.  The Python list [S] is [stack], held
    with its last element first, so [S.pop()] takes the head and a run of
    [S.append] reverses the appended nodes onto it.  The result is the
    sequence of values the generator yields; [None] means the fuel ran out
    before the loop ended. *)
Fixpoint walk_depth_first (fuel : nat) (stack : list node_id)
    (visited : gset node_id) : option (list A) :=
  match fuel with
  | O => None
  | S fuel =>
      match stack with
      | [] => Some []
      | v :: stack =>
          if orb repeat_visited (bool_decide (v ∉ visited)) then
            cons (walk_fn v) <$>
              walk_depth_first fuel (rev (pushed v) ++ stack)
                               ({[v]} ∪ visited)
          else walk_depth_first fuel stack visited
      end
  end.

(** The inner [for] loop of the breadth-first branch, on the pair
    ([visited], [queue]). *)
Definition enqueue (st : gset node_id * list node_id) (wd : node_id * bool)
    : gset node_id * list node_id :=
  let '(visited, queue) := st in
  let '(w, d) := wd in
  if andb (orb repeat_visited (bool_decide (w ∉ visited)))
          (orb d (negb only_differentiable))
  then ({[w]} ∪ visited, queue ++ [w])
  else (visited, queue).

(** The breadth-first [while queue] loop; the queue's left end is the head
    of the list. *)
Fixpoint walk_breadth_first (fuel : nat) (queue : list node_id)
    (visited : gset node_id) : option (list A) :=
  match fuel with
  | O => None
  | S fuel =>
      match queue with
      | [] => Some []
      | v :: queue =>
          let '(visited, queue) :=
            fold_left enqueue (expand_fn v) (visited, queue) in
          cons (walk_fn v) <$> walk_breadth_first fuel queue visited
      end
  end.

(** [Tensor._walk]: every call starts from an empty [visited] set. *)
Definition Tensor_walk (fuel : nat) (depth_first : bool) (self : node_id)
    : option (list A) :=
  if depth_first then walk_depth_first fuel [self] ∅
  else walk_breadth_first fuel [self] {[self]}.

End Walk.

Definition walk_parents {A : Type} (h : gmap node_id Tensor) (fuel : nat)
    (self : node_id) (depth_first only_differentiable repeat_visited : bool)
    (walk_fn : node_id → A) : option (list A) :=
  Tensor_walk (expand_parents h) only_differentiable repeat_visited walk_fn
              fuel depth_first self.

Definition walk_children {A : Type} (h : gmap node_id Tensor) (fuel : nat)
    (self : node_id) (depth_first only_differentiable repeat_visited : bool)
    (walk_fn : node_id → A) : option (list A) :=
  Tensor_walk (expand_children h) only_differentiable repeat_visited walk_fn
              fuel depth_first self.

End Graph.

(** ** Derived queries *)

Definition batch_shape (self : Tensor) : list Z :=
  take (batch_len self) (shape (_tensor self)).

Definition event_dim_indices (self : Tensor) : list nat :=
  seq (batch_len self) (dim (_tensor self) - batch_len self).

Definition batch_dim_indices (self : Tensor) : list nat :=
  seq 0 (batch_len self).

(** The loop of [multi_dim_plates] over a list of plates. *)
Definition plates_above_one (links : list Plate) : list Plate :=
  filter (λ plate, (1 < snd plate)%Z) links.

Definition multi_dim_plates (self : Tensor) : list Plate :=
  plates_above_one (batch_links self).

(** [Tensor.__bool__], inherited unchanged by the three subclasses. *)
Definition Tensor__bool__ (self : Tensor) : exn + bool :=
  inl IllegalConditionalError.

(** ** [StochasticTensor.total_expected_grad] *)

Section ExpectedGrad.

(** [grad.mean(dim=indices)] is torch's. *)
Variable torch_mean : torch_Tensor → list nat → torch_Tensor.

(** One iteration of the loop over [self._accum_grads.items()];
    [getattr(self.distribution, name)] raises when the attribute is
    missing. *)
Definition expected_grad_step (distribution : gmap string torch_Tensor)
    (indices : list nat) (name : string) (grad : torch_Tensor)
    (r : exn + gmap string torch_Tensor) : exn + gmap string torch_Tensor :=
  match r with
  | inl e => inl e
  | inr r =>
      match distribution !! name with
      | None => inl (AttributeError name)
      | Some tensor =>
          if Nat.eqb (dim grad) (dim tensor) then inr (<[name := grad]> r)
          else inr (<[name := torch_mean grad indices]> r)
      end
  end.

Definition total_expected_grad (self : Tensor)
    : exn + gmap string torch_Tensor :=
  match kind self with
  | Stochastic _ distribution _ accum_grads =>
      let indices := batch_dim_indices self in
      map_fold (expected_grad_step distribution indices) (inr ∅) accum_grads
  | _ => inl (AttributeError "_accum_grads")
  end.

End ExpectedGrad.

(** ** Baselines *)

(** [tensor.n], an attribute of independent and stochastic nodes. *)
Definition attr_n (tensor : Tensor) : exn + Z :=
  match kind tensor with
  | Independent n | Stochastic n _ _ _ => inr n
  | _ => inl (AttributeError "n")
  end.

(** *** Floating-point numbers *)

(** A value of a binary floating-point format: a finite number, an
    infinity, or NaN.  Zero carries no sign: the results of addition,
    subtraction and multiplication, which are the operations of the code
    below, depend on it in nothing but the sign of a zero. *)
Inductive float : Type :=
  | Finite (q : Q)
  | Infinity (negative : bool)
  | NaN.

(** The largest [k] with [2 ^ k ≤ n / d]. *)
Definition floor_log2 (n d : positive) : Z :=
  let k := (Z.log2 (Z.pos n) - Z.log2 (Z.pos d))%Z in
  if (Z.pos n * 2 ^ Z.max 0 (- k) <? Z.pos d * 2 ^ Z.max 0 k)%Z
  then (k - 1)%Z else k.

(** The integer nearest to [p / q], for [q] positive; of two nearest
    integers the even one. *)
Definition round_half_even (p q : Z) : Z :=
  let f := (p / q)%Z in
  match (2 * (p mod q) ?= q)%Z with
  | Lt => f
  | Gt => (f + 1)%Z
  | Eq => if Z.even f then f else (f + 1)%Z
  end.

Section Format.

(** The number of bits of the significand and the least and the greatest
    exponent of a normal number. *)
Variables precision emin emax : Z.

(** Rounding to the nearest value of the format, ties to even, with
    gradual underflow and overflow to infinity. *)
Definition float_round (x : Q) : float :=
  match Qnum x with
  | Z0 => Finite 0
  | Z.pos n | Z.neg n =>
      let e := Z.max (floor_log2 n (Qden x)) emin in
      let shift := (e - (precision - 1))%Z in
      let m :=
        if (0 <=? shift)%Z
        then round_half_even (Qnum x) (Z.pos (Qden x) * 2 ^ shift)
        else round_half_even (Qnum x * 2 ^ (- shift)) (Z.pos (Qden x)) in
      if (2 ^ (emax + 1 - shift) <=? Z.abs m)%Z then Infinity (m <? 0)%Z
      else if (0 <=? shift)%Z then Finite (inject_Z (m * 2 ^ shift))
      else Finite (Qred (m # Z.to_pos (2 ^ (- shift))))
  end.

(** Conversion of a value of another format. *)
Definition float_convert (a : float) : float :=
  match a with
  | Finite q => float_round q
  | _ => a
  end.

Definition fneg (a : float) : float :=
  match a with
  | Finite q => Finite (- q)
  | Infinity s => Infinity (negb s)
  | NaN => NaN
  end.

Definition fadd (a b : float) : float :=
  match a, b with
  | NaN, _ | _, NaN => NaN
  | Infinity s, Infinity s' => if Bool.eqb s s' then Infinity s else NaN
  | Infinity s, Finite _ | Finite _, Infinity s => Infinity s
  | Finite p, Finite q => float_round (p + q)
  end.

Definition fsub (a b : float) : float := fadd a (fneg b).

Definition fmul (a b : float) : float :=
  match a, b with
  | NaN, _ | _, NaN => NaN
  | Infinity s, Infinity s' => Infinity (xorb s s')
  | Infinity s, Finite q | Finite q, Infinity s =>
      match Qnum q with
      | Z0 => NaN
      | Z.pos _ => Infinity s
      | Z.neg _ => Infinity (negb s)
      end
  | Finite p, Finite q => float_round (p * q)
  end.

End Format.

(** A Python [float] is a binary64 value; the literal [0.9] denotes the
    binary64 value nearest to 9/10. *)
Definition python_float (q : Q) : float := float_round 53 (-1022) 1023 q.

(** float32, the default dtype of [torch.tensor] on a Python [float], and
    its arithmetic. *)
Definition binary32 (q : Q) : float := float_round 24 (-126) 127 q.
Definition torch_tensor (x : float) : float :=
  float_convert 24 (-126) 127 x.
Definition add32 : float → float → float := fadd 24 (-126) 127.
Definition sub32 : float → float → float := fsub 24 (-126) 127.
Definition mul32 : float → float → float := fmul 24 (-126) 127.

Module MovingAverageBaseline.

(** The two registered buffers, float32 tensors without dimensions. *)
Record t : Type := mk {
  exponential_decay : float;
  moving_average : float
}.

(** [exponential_decay] is a Python [float]. *)
Definition __init__ (exponential_decay : float) : t :=
  mk (torch_tensor exponential_decay) (torch_tensor (Finite 0)).

(** The default [exponential_decay=0.95]. *)
Definition default : t := __init__ (python_float (95 # 100)).

Section ComputeBaseline.

(** [storch.reduce_plates(cost_node).detach()]: the plate-reduction
    utility, outside this module.  Its result is taken to be a float32
    tensor without dimensions, as the buffers are. *)
Variable reduce_plates : Tensor → float.

(** Returns the updated object and the returned value.  Every operator is
    torch's on float32 tensors; the [1] of [1 - self.exponential_decay] is
    taken into float32. *)
Definition compute_baseline (self : t) (tensor cost_node : Tensor)
    : t * float :=
  let avg_cost := reduce_plates cost_node in
  let moving_average :=
    add32 (mul32 (exponential_decay self) (moving_average self))
          (mul32 (sub32 (Finite 1) (exponential_decay self)) avg_cost) in
  (mk (exponential_decay self) moving_average, moving_average).

(** Successive calls on the same object: the values returned, in order,
    and the object after the last call. *)
Fixpoint calls (self : t) (tensor : Tensor) (cost_nodes : list Tensor)
    : t * list float :=
  match cost_nodes with
  | [] => (self, [])
  | cost_node :: rest =>
      let '(self, b) := compute_baseline self tensor cost_node in
      let '(self, bs) := calls self tensor rest in
      (self, b :: bs)
  end.

End ComputeBaseline.

End MovingAverageBaseline.

Module BatchAverageBaseline.

(** Modelled from the spec: [storch.sum(costs, plate_name)], the
    plate-reduction utility, is not part of the sources; it "returns a
    numeric tensor summed ... over that plate's dimension".  The costs are
    held as the list of per-sample entries along the sampling plate. *)
Definition storch_sum (costs : list Q) : Q :=
  foldr Qplus 0%Q costs.

(** [costs] is the detached cost, one entry per sample along the plate
    [tensor.name]; [sum_costs - costs] broadcasts the sum. *)
Definition compute_baseline (tensor : Tensor) (costs : list Q)
    : exn + list Q :=
  match attr_n tensor with
  | inl e => inl e
  | inr n =>
      if (n =? 1)%Z then inl (ValueError SingleSampleBatchAverage)
      else
        let sum_costs := storch_sum costs in
        inr ((λ c, (sum_costs - c) / inject_Z (n - 1))%Q <$> costs)
  end.

End BatchAverageBaseline.

(** ** Vocabulary of the specification *)

(** The plate names of a list of plates, in order. *)
Definition plate_names (links : list Plate) : list string := fst <$> links.

(** A plate is a (name, size) pair with size at least 1. *)
Definition valid_sizes (links : list Plate) : Prop :=
  Forall (λ plate : Plate, (1 ≤ snd plate)%Z) links.

(** The sizes of the plates that are materialised as tensor dimensions. *)
Definition plate_dims (links : list Plate) : list Z :=
  snd <$> plates_above_one links.

(** The tensor dimension that corresponds to the plate at position [i]: the
    number of plates of size greater than 1 before it. *)
Definition plate_dimension (links : list Plate) (i : nat) : nat :=
  length (plates_above_one (take i links)).

(** Two entries of the list carry the plate name [name]. *)
Definition duplicate_plate (links : list Plate) (name : string) : Prop :=
  ∃ i j, i < j ∧ plate_names links !! i = Some name
         ∧ plate_names links !! j = Some name.

(** The plate at position [i] has size greater than 1 and its dimension of
    the tensor is missing or has another size. *)
Definition plate_mismatch (tensor_shape : list Z) (links : list Plate)
    (i : nat) : Prop :=
  ∃ name n, links !! i = Some (name, n) ∧ (1 < n)%Z
            ∧ tensor_shape !! plate_dimension links i ≠ Some n.

(** The messages of the plate-collision and shape/plate-mismatch errors of
    the base constructor. *)
Definition plate_error (m : message) : Prop :=
  match m with
  | TwoInstancesOfPlate _ | ShapeTooSmall _ _ _
  | PlateViolated _ _ _ _ _ _ => True
  | _ => False
  end.

(** Structural-validation errors: the plate errors, a cost node used as a
    parent, and a plate name already in use. *)
Definition structural_validation_error (e : exn) : Prop :=
  match e with
  | ValueError CostNodesCannotHaveChildren
  | ValueError (IndependentNameInUse _)
  | ValueError (StochasticNameInUse _) => True
  | ValueError m => plate_error m
  | _ => False
  end.

(** Some supplied parent is a terminal cost node. *)
Definition cost_parent (h : gmap node_id Tensor) (parents : list node_id)
    : Prop :=
  ∃ p t, p ∈ parents ∧ h !! p = Some t ∧ is_cost t = true.

(** The dimensions a list of plates uses up in the loop of
    [Tensor.__init__]: every plate whose size is not 1. *)
Definition dims_used (links : list Plate) : nat :=
  length (filter (λ plate : Plate, snd plate ≠ 1%Z) links).

(** What an exception raised by the plate loop says about its input, for
    the loop started with [plate_names = names] and [batch_len = bl]. *)
Definition check_failure (tensor_shape : list Z) (all_links : list Plate)
    (names : gset string) (bl : nat) (links : list Plate) (e : exn) : Prop :=
  match e with
  | ValueError (TwoInstancesOfPlate name) =>
      ∃ j, plate_names links !! j = Some name
           ∧ (name ∈ names ∨ ∃ i, i < j ∧ plate_names links !! i = Some name)
  | ValueError (ShapeTooSmall d n_links n_dims) =>
      n_links = length all_links ∧ n_dims = length tensor_shape
      ∧ ∃ i name n, links !! i = Some (name, n) ∧ n ≠ 1%Z
                    ∧ d = bl + dims_used (take i links)
                    ∧ tensor_shape !! d = None
  | ValueError (PlateViolated d name n actual links' shape') =>
      links' = all_links ∧ shape' = tensor_shape
      ∧ ∃ i, links !! i = Some (name, n) ∧ n ≠ 1%Z
             ∧ d = bl + dims_used (take i links)
             ∧ tensor_shape !! d = Some actual ∧ actual ≠ n
  | _ => False
  end.

(** ** The diamond graph *)

(** The parent graph A→B, A→C, B→D, C→D, built by four constructor calls:
    A without parents, B and C from A, D from B and C.  The result is the
    final state and the four nodes A, B, C, D. *)
Definition diamond (has_backwards_path : node_id → node_id → bool)
    (tA tB tC tD : torch_Tensor) (w : world)
    : option (world * (node_id * node_id * node_id * node_id)) :=
  match new_Tensor has_backwards_path tA [] [] (Some "A") w with
  | (w, inr a) =>
      match new_Tensor has_backwards_path tB [a] [] (Some "B") w with
      | (w, inr b) =>
          match new_Tensor has_backwards_path tC [a] [] (Some "C") w with
          | (w, inr c) =>
              match new_Tensor has_backwards_path tD [b; c] [] (Some "D") w with
              | (w, inr d) => Some (w, (a, b, c, d))
              | _ => None
              end
          | _ => None
          end
      | _ => None
      end
  | _ => None
  end.

(** A node without its back-references: what the constructors of other
    nodes leave unchanged. *)
Definition forget_children (t : Tensor) : Tensor :=
  mk_Tensor (_name t) (_tensor t) (_parents t) [] (batch_len t)
            (event_shape t) (batch_links t) (kind t).

(** The number of edges leaving the nodes of [universe] not yet visited:
    with the height of the stack, the measure of the depth-first loop. *)
Definition pending_edges (expand_fn : node_id → list (node_id * bool))
    (universe visited : gset node_id) : nat :=
  sum_list_with (λ u, length (expand_fn u)) (elements (universe ∖ visited)).

(** ** Inputs of the concrete instances *)

(** Every edge differentiable, an empty world with or without gradient
    tracking, a scalar tensor. *)
Definition every_edge : node_id → node_id → bool := λ _ _, true.
Definition empty_world (grad : bool) : world := mk_world ∅ 0 [] grad.
Definition scalar : torch_Tensor := mk_torch [] [1%Q].

(** A plate-reduction utility for the instances: the first entry of the
    cost tensor, as a float32. *)
Definition first_entry (cost_node : Tensor) : float :=
  binary32 (hd 0%Q (data (_tensor cost_node))).

Definition cost_of (c : Q) : Tensor :=
  mk_Tensor (Some "cost") (mk_torch [] [c]) [] [] 0 [] [] (Deterministic true).

Definition sample_node (n : Z) (distribution accum : gmap string torch_Tensor)
    : Tensor :=
  mk_Tensor (Some "z") (mk_torch [n] []) [] [] 1 [] [("z", n)]
            (Stochastic n distribution true accum).

(** A shape-level stand-in for [grad.mean(dim=indices)]: the reduced
    dimensions are dropped from the front of the shape. *)
Definition mean_shape (grad : torch_Tensor) (indices : list nat)
    : torch_Tensor :=
  mk_torch (drop (length indices) (shape grad)) [].

(** ** Stores built by the constructors *)

(** [k] times [p._children.append((self, d))]. *)
Definition add_children (self : node_id) (d : bool) (k : nat) (t : Tensor)
    : Tensor :=
  mk_Tensor (_name t) (_tensor t) (_parents t)
            (_children t ++ replicate k (self, d))
            (batch_len t) (event_shape t) (batch_links t) (kind t).

(** The parents the second loop of [Tensor.__init__] gets through: all of
    them, or those before the first cost node. *)
Fixpoint linked_parents (h : gmap node_id Tensor) (parents : list node_id)
    : list node_id :=
  match parents with
  | [] => []
  | p :: rest =>
      match h !! p with
      | Some t => if is_cost t then [] else p :: linked_parents h rest
      | None => p :: linked_parents h rest
      end
  end.

(** The number of times [x] occurs in a list of references. *)
Definition occurrences (x : node_id) (l : list node_id) : nat :=
  length (filter (λ p, p = x) l).

(** What [Tensor.__init__] establishes between the plates and the tensor
    of the node it stores. *)
Definition node_consistent (t : Tensor) : Prop :=
  NoDup (plate_names (batch_links t))
  ∧ batch_len t = dims_used (batch_links t)
  ∧ event_shape t = drop (batch_len t) (shape (_tensor t))
  ∧ ∀ i name n,
      batch_links t !! i = Some (name, n) → n ≠ 1%Z →
      shape (_tensor t) !! dims_used (take i (batch_links t)) = Some n.

(** A store as the constructors leave it: every stored node was allocated,
    is consistent, has only older nodes as parents and only younger,
    allocated objects as children; every registered cost tensor is a stored
    cost node. *)
Definition store_consistent (w : world) : Prop :=
  (∀ (x : node_id) t, heap w !! x = Some t →
     x < next_id w
     ∧ node_consistent t
     ∧ (∀ (p : node_id) d, (p, d) ∈ _parents t → p < x)
     ∧ (∀ (c : node_id) d, (c, d) ∈ _children t → x < c ∧ c < next_id w))
  ∧ (∀ x : node_id, x ∈ _cost_tensors w →
       ∃ t, heap w !! x = Some t ∧ is_cost t = true).

(** The part of a consistent store that concerns the edges and the
    registry only: the plates of the stored nodes are left aside. *)
Definition store_ordered (w : world) : Prop :=
  (∀ (x : node_id) t, heap w !! x = Some t →
     x < next_id w
     ∧ (∀ (p : node_id) d, (p, d) ∈ _parents t → p < x)
     ∧ (∀ (c : node_id) d, (c, d) ∈ _children t → x < c ∧ c < next_id w))
  ∧ (∀ x : node_id, x ∈ _cost_tensors w →
       ∃ t, heap w !! x = Some t ∧ is_cost t = true).

(** The references handed to a constructor denote objects allocated
    before. *)
Definition allocated (w : world) (parents : list node_id) : Prop :=
  Forall (λ p : node_id, p < next_id w) parents.

(** A reference to an object whose construction returned.  An object whose
    constructor raised has no [_children] attribute; the code never meets
    one as long as the references it follows are stored. *)
Definition stored (h : gmap node_id Tensor) (x : node_id) : Prop :=
  is_Some (h !! x).

Definition parents_stored (h : gmap node_id Tensor) : Prop :=
  ∀ (x : node_id) t (p : node_id) d,
    h !! x = Some t → (p, d) ∈ _parents t → stored h p.

Definition children_stored (h : gmap node_id Tensor) : Prop :=
  ∀ (x : node_id) t (c : node_id) d,
    h !! x = Some t → (c, d) ∈ _children t → stored h c.

(** ** [iterate_batch_indices] *)

(** [list(range(a))]. *)
Definition range (a : Z) : list nat := seq 0 (Z.to_nat a).

(** [itertools.product] of the unpacked [ranges]: the last position varies
    fastest. *)
Fixpoint product (ranges : list (list nat)) : list (list nat) :=
  match ranges with
  | [] => [[]]
  | r :: rest => x ← r; cons x <$> product rest
  end.

Definition iterate_batch_indices (self : Tensor) : list (list nat) :=
  product (range <$> batch_shape self).

(** ** Reachability along the edges a walk follows *)

Section Reachability.

Variable expand_fn : node_id → list (node_id * bool).
Variable only_differentiable : bool.

(** The edge from [v] to [w] is followed: [w] is listed by [expand_fn v],
    with a differentiable link when only those are walked. *)
Definition followed (v w : node_id) : Prop :=
  ∃ d : bool, (w, d) ∈ expand_fn v ∧ (d = true ∨ only_differentiable = false).

(** [y] is reached from [x] along followed edges through nodes outside
    [visited] only, both ends included. *)
Inductive reaches_avoiding (visited : gset node_id)
    : node_id → node_id → Prop :=
  | reaches_here (x : node_id) :
      x ∉ visited → reaches_avoiding visited x x
  | reaches_step (x y z : node_id) :
      x ∉ visited → followed x y → reaches_avoiding visited y z →
      reaches_avoiding visited x z.

End Reachability.

(** ** [StochasticTensor.total_variance_grad] *)

(** What [total_variance_grad] raises: its own [ValueError] ("There are no
    batched dimensions to take statistics over. ..."), or the exception of
    a failed attribute access. *)
Inductive variance_exn : Type :=
  | NoBatchedDimensions
  | Raised (e : exn).

Section VarianceGrad.

(** [grad.mean(dim=indices)], [grad - expected], [diff * diff],
    [squared_diff.sum(dim=indices)] and [sse.mean()] are torch's. *)
Variable torch_mean : torch_Tensor → list nat → torch_Tensor.
Variables torch_sub torch_mul : torch_Tensor → torch_Tensor → torch_Tensor.
Variable torch_sum : torch_Tensor → list nat → torch_Tensor.
Variable torch_mean_all : torch_Tensor → torch_Tensor.

(** One iteration of the loop over [self._accum_grads.items()]. *)
Definition variance_grad_step (distribution : gmap string torch_Tensor)
    (indices : list nat) (name : string) (grad : torch_Tensor)
    (r : variance_exn + gmap string torch_Tensor)
    : variance_exn + gmap string torch_Tensor :=
  match r with
  | inl e => inl e
  | inr r =>
      match distribution !! name with
      | None => inl (Raised (AttributeError name))
      | Some tensor =>
          if Nat.eqb (dim grad) (dim tensor) then inl NoBatchedDimensions
          else
            let expected := torch_mean grad indices in
            let diff := torch_sub grad expected in
            let squared_diff := torch_mul diff diff in
            let sse := torch_sum squared_diff indices in
            inr (<[name := torch_mean_all sse]> r)
      end
  end.

Definition total_variance_grad (self : Tensor)
    : variance_exn + gmap string torch_Tensor :=
  match kind self with
  | Stochastic _ distribution _ accum_grads =>
      let indices := batch_dim_indices self in
      map_fold (variance_grad_step distribution indices) (inr ∅) accum_grads
  | _ => inl (Raised (AttributeError "_accum_grads"))
  end.

End VarianceGrad.

(** Between stored nodes the two edge lists mirror each other: [p] is a
    parent of [c] with flag [d] exactly when [c] is a child of [p] with
    flag [d]. *)
Definition edges_mirrored (h : gmap node_id Tensor) : Prop :=
  ∀ (c p : node_id) tc tp d,
    h !! c = Some tc → h !! p = Some tp →
    (p, d) ∈ _parents tc ↔ (c, d) ∈ _children tp.

(** What a constructor of the object [self] may do to the store [h]: keep
    every other stored object, with everything but its children as it was
    and with its children extended at the end. *)
Definition only_appends_children (self : node_id) (h h' : gmap node_id Tensor)
    : Prop :=
  ∀ x t, x ≠ self → h !! x = Some t →
    ∃ t', h' !! x = Some t'
          ∧ forget_children t' = forget_children t
          ∧ _children t `prefix_of` _children t'.

(** A node without its plate list.  [batch_links.insert] of the
    independent and the stochastic constructor changes the list it is
    given in place, and with it the plates of a stored node that holds the
    same list. *)
Definition forget_plates (t : Tensor) : Tensor :=
  mk_Tensor (_name t) (_tensor t) (_parents t) (_children t) (batch_len t)
            (event_shape t) [] (kind t).

(** As [only_appends_children], with the plate lists left aside. *)
Definition only_appends_children_beside_plates (self : node_id)
    (h h' : gmap node_id Tensor) : Prop :=
  ∀ x t, x ≠ self → h !! x = Some t →
    ∃ t', h' !! x = Some t'
          ∧ forget_plates (forget_children t')
            = forget_plates (forget_children t)
          ∧ _children t `prefix_of` _children t'.

(** Whether an outcome is the exception [Tensor.__init__] raises on a cost
    node among the parents. *)
Definition failed_on_cost_parent {X : Type} (r : exn + X) : bool :=
  match r with
  | inl (ValueError CostNodesCannotHaveChildren) => true
  | _ => false
  end.

(** A store as the constructors leave it when none of them has failed on a
    cost node among the parents. *)
Definition well_formed (w : world) : Prop :=
  store_consistent w ∧ edges_mirrored (heap w)
  ∧ parents_stored (heap w) ∧ children_stored (heap w).

(** ** Stores of the concrete instances *)

(** A node A and its child B; a node A and a named cost node over it; a
    node under three plates; the store of the diamond. *)
Definition two_nodes : world :=
  fst (new_Tensor every_edge scalar [0] [] (Some "B")
         (fst (new_Tensor every_edge scalar [] [] (Some "A")
                          (empty_world true)))).

Definition with_cost : world :=
  fst (new_DeterministicTensor every_edge scalar [0] [] true (Some "loss")
         (fst (new_Tensor every_edge scalar [] [] (Some "A")
                          (empty_world true)))).

Definition plated : world :=
  fst (new_Tensor every_edge (mk_torch [3; 2; 5]%Z []) []
                  [("batch", 3%Z); ("one", 1%Z); ("z", 2%Z)] None
                  (empty_world true)).

Definition diamond_heap : gmap node_id Tensor :=
  match diamond every_edge scalar scalar scalar scalar (empty_world true) with
  | Some (w, _) => heap w
  | None => ∅
  end.

(** Stand-ins for torch's elementwise operations and for [sse.mean()] in
    the instances: the left operand, and the tensor itself. *)
Definition left_operand (a b : torch_Tensor) : torch_Tensor := a.
Definition same_tensor (a : torch_Tensor) : torch_Tensor := a.

(** * Properties *)

(** ** The plate loop *)

Lemma dims_used_cons (plate : Plate) (links : list Plate) :
  dims_used (plate :: links)
  = (if decide (snd plate ≠ 1%Z) then S (dims_used links) else dims_used links).
Proof.
  unfold dims_used. rewrite filter_cons. by destruct (decide _).
Qed.

Lemma dims_used_valid (links : list Plate) :
  valid_sizes links → dims_used links = length (plates_above_one links).
Proof.
  unfold dims_used, plates_above_one. induction 1 as [|plate links Hp _ IH].
  - done.
  - rewrite !filter_cons.
    destruct (decide (snd plate ≠ 1%Z)), (decide (1 < snd plate)%Z);
      simpl; rewrite ?IH; first [done | lia].
Qed.

Lemma valid_sizes_take (links : list Plate) (i : nat) :
  valid_sizes links → valid_sizes (take i links).
Proof. apply Forall_take. Qed.

(** The loop returns exactly when the names are new and pairwise distinct
    and every plate of size other than 1 finds its dimension; it returns the
    index of the first dimension that no plate uses. *)
Lemma check_batch_links_returns (tensor_shape : list Z) (all_links : list Plate)
    (links : list Plate) :
  ∀ (names : gset string) (bl bl' : nat),
    check_batch_links tensor_shape all_links names bl links = inr bl'
    ↔ NoDup (plate_names links)
      ∧ (∀ name, name ∈ plate_names links → name ∉ names)
      ∧ (∀ i name n, links !! i = Some (name, n) → n ≠ 1%Z →
           tensor_shape !! (bl + dims_used (take i links)) = Some n)
      ∧ bl' = bl + dims_used links.
Proof.
  induction links as [|[plate_name plate_n] rest IH]; intros names bl bl'.
  - simpl. split.
    + intros [= <-]. split_and!; [constructor | by intros ? ?%elem_of_nil | done | ].
      unfold dims_used. simpl. lia.
    + intros (_ & _ & _ & ->). unfold dims_used. simpl. f_equal. lia.
  - simpl. rewrite dims_used_cons. simpl.
    destruct (decide (plate_name ∈ names)) as [Hin|Hnin].
    { split; [done|]. intros (_ & Hfresh & _). exfalso.
      apply (Hfresh plate_name); [left | done]. }
    destruct (Z.eqb_spec plate_n 1) as [->|Hne].
    { rewrite IH. destruct (decide (1%Z ≠ 1%Z)) as [?|_]; [done|].
      split.
      - intros (Hnd & Hfresh & Hdims & ->). split_and!; [| | |done].
        + constructor; [|done]. intros Hin. apply (Hfresh _ Hin), elem_of_union_l.
          by apply elem_of_singleton.
        + intros name [->|Hin]%elem_of_cons; [done|].
          intros ?. by apply (Hfresh _ Hin), elem_of_union_r.
        + intros [|i] name n Hi Hn; simpl in *.
          * by simplify_eq.
          * rewrite dims_used_cons. simpl.
            destruct (decide (1%Z ≠ 1%Z)); [done|]. by eapply Hdims.
      - intros (Hnd & Hfresh & Hdims & ->). apply NoDup_cons in Hnd as [Hhd Hnd].
        split_and!; [done| | |done].
        + intros name Hin. apply not_elem_of_union. split.
          * intros ->%elem_of_singleton. done.
          * apply Hfresh. by right.
        + intros i name n Hi Hn. specialize (Hdims (S i) name n Hi Hn).
          simpl in Hdims. rewrite dims_used_cons in Hdims. simpl in Hdims.
          by destruct (decide (1%Z ≠ 1%Z)). }
    destruct (decide (plate_n ≠ 1%Z)) as [_|?]; [|done].
    destruct (tensor_shape !! bl) as [d|] eqn:Hd.
    2:{ split; [done|]. intros (_ & _ & Hdims & _).
        specialize (Hdims 0 plate_name plate_n eq_refl Hne). simpl in Hdims.
        replace (bl + dims_used []) with bl in Hdims
          by (unfold dims_used; simpl; lia). congruence. }
    destruct (Z.eqb_spec d plate_n) as [->|Hdn].
    2:{ split; [done|]. intros (_ & _ & Hdims & _).
        specialize (Hdims 0 plate_name plate_n eq_refl Hne). simpl in Hdims.
        replace (bl + dims_used []) with bl in Hdims
          by (unfold dims_used; simpl; lia). congruence. }
    rewrite IH. split.
    + intros (Hnd & Hfresh & Hdims & ->). split_and!; [| | |lia].
      * constructor; [|done]. intros Hin. apply (Hfresh _ Hin), elem_of_union_l.
          by apply elem_of_singleton.
      * intros name [->|Hin]%elem_of_cons; [done|].
        intros ?. by apply (Hfresh _ Hin), elem_of_union_r.
      * intros [|i] name n Hi Hn; simpl in *.
        -- simplify_eq. replace (bl + dims_used []) with bl
             by (unfold dims_used; simpl; lia). done.
        -- rewrite dims_used_cons. simpl.
           destruct (decide (plate_n ≠ 1%Z)); [|done].
           replace (bl + S (dims_used (take i rest)))
             with (S bl + dims_used (take i rest)) by lia.
           by eapply Hdims.
    + intros (Hnd & Hfresh & Hdims & ->). apply NoDup_cons in Hnd as [Hhd Hnd].
      split_and!; [done| | |lia].
      * intros name Hin. apply not_elem_of_union. split.
        -- intros ->%elem_of_singleton. done.
        -- apply Hfresh. by right.
      * intros i name n Hi Hn. specialize (Hdims (S i) name n Hi Hn).
        simpl in Hdims. rewrite dims_used_cons in Hdims. simpl in Hdims.
        destruct (decide (plate_n ≠ 1%Z)); [|done].
        replace (S bl + dims_used (take i rest))
          with (bl + S (dims_used (take i rest))) by lia. done.
Qed.

Lemma dims_used_nil : dims_used [] = 0.
Proof. done. Qed.

(** An exception raised by the loop is one of the three plate errors, and
    its message names values taken from the input. *)
Lemma check_batch_links_raises (tensor_shape : list Z) (all_links : list Plate)
    (links : list Plate) :
  ∀ (names : gset string) (bl : nat) (e : exn),
    check_batch_links tensor_shape all_links names bl links = inl e →
    check_failure tensor_shape all_links names bl links e.
Proof.
  induction links as [|[plate_name plate_n] rest IH]; intros names bl e;
    simpl; [done|].
  destruct (decide (plate_name ∈ names)) as [Hin|Hnin].
  { intros [= <-]. exists 0. split; [done | by left]. }
  assert (Hshift : ∀ bl0 e0,
    (plate_n = 1%Z ∧ bl0 = bl ∨ plate_n ≠ 1%Z ∧ bl0 = S bl) →
    check_failure tensor_shape all_links ({[plate_name]} ∪ names) bl0 rest e0 →
    check_failure tensor_shape all_links names bl
                  ((plate_name, plate_n) :: rest) e0).
  { intros bl0 [[]| | |] Hbl; simpl; try done.
    - intros (j & Hj & Hdup). exists (S j). split; [done|].
      destruct Hdup as [[->%elem_of_singleton|Hin]%elem_of_union|(i & Hi & Hdup)].
      + right. exists 0. split; [lia | done].
      + by left.
      + right. exists (S i). split; [lia | done].
    - intros (-> & -> & i & name & n & Hi & Hn & -> & Hd).
      split_and!; [done..|]. exists (S i), name, n. split_and!; [done..| |done].
      simpl. rewrite dims_used_cons. simpl.
      destruct Hbl as [[-> ->]|[? ->]]; destruct (decide _); done || lia.
    - intros (-> & -> & i & Hi & Hn & -> & Hd & Hne).
      split_and!; [done..|]. exists (S i). split_and!; [done..| |done|done].
      simpl. rewrite dims_used_cons. simpl.
      destruct Hbl as [[-> ->]|[? ->]]; destruct (decide _); done || lia. }
  destruct (Z.eqb_spec plate_n 1) as [Heq|Hne].
  { intros He%IH. eapply Hshift; [|done]. by left. }
  destruct (tensor_shape !! bl) as [d|] eqn:Hd.
  - destruct (Z.eqb_spec d plate_n) as [->|Hdn].
    + intros He%IH. eapply Hshift; [|done]. by right.
    + intros [= <-]. simpl. split_and!; [done..|]. exists 0.
      split_and!; try done; unfold dims_used; simpl; lia.
  - intros [= <-]. simpl. split_and!; [done..|]. exists 0, plate_name, plate_n.
    split_and!; try done; unfold dims_used; simpl; lia.
Qed.

(** ** The parent loop and the base constructor *)

Section Construction.

Variable has_backwards_path : node_id → node_id → bool.

Lemma ref_is_cost_alter (h : gmap node_id Tensor) (self q p : node_id)
    (d : bool) :
  ref_is_cost (alter (add_child self d) q h) p = ref_is_cost h p.
Proof.
  unfold ref_is_cost. destruct (decide (q = p)) as [->|Hne].
  - rewrite lookup_alter_eq. by destruct (h !! p).
  - by rewrite lookup_alter_ne.
Qed.

Lemma cost_parent_alt (h : gmap node_id Tensor) (parents : list node_id) :
  cost_parent h parents ↔ ∃ p, p ∈ parents ∧ ref_is_cost h p = true.
Proof.
  unfold cost_parent, ref_is_cost. split.
  - intros (p & t & Hp & Ht & Hc). exists p. by rewrite Ht.
  - intros (p & Hp & Hc). destruct (h !! p) as [t|] eqn:Ht; [|done].
    by exists p, t.
Qed.

Lemma cost_parent_cons (h : gmap node_id Tensor) (p : node_id)
    (parents : list node_id) :
  cost_parent h (p :: parents)
  ↔ ref_is_cost h p = true ∨ cost_parent h parents.
Proof.
  rewrite !cost_parent_alt. split.
  - intros (q & [->|Hq]%elem_of_cons & Hc); [by left|]. right. by exists q.
  - intros [Hc|(q & Hq & Hc)].
    + exists p. split; [left | done].
    + exists q. split; [by right | done].
Qed.

Lemma cost_parent_alter (h : gmap node_id Tensor) (self q : node_id) (d : bool)
    (parents : list node_id) :
  cost_parent (alter (add_child self d) q h) parents ↔ cost_parent h parents.
Proof.
  rewrite !cost_parent_alt. by setoid_rewrite ref_is_cost_alter.
Qed.

(** The parent loop raises exactly when some parent is a cost node, and
    otherwise records every parent, in order, with its edge flag. *)
Lemma link_parents_raises (self : node_id) (parents : list node_id) :
  ∀ (acc : list (node_id * bool)) (h : gmap node_id Tensor),
    cost_parent h parents →
    ∃ h', link_parents has_backwards_path self parents acc h
          = (h', inl (ValueError CostNodesCannotHaveChildren)).
Proof.
  induction parents as [|p rest IH]; intros acc h Hc.
  - apply cost_parent_alt in Hc as (p & Hp%elem_of_nil & _). done.
  - simpl. destruct (ref_is_cost h p) eqn:Hp; [by eexists|].
    apply IH. apply cost_parent_alter.
    apply cost_parent_cons in Hc as [Hc|Hc]; [congruence | done].
Qed.

Lemma link_parents_returns (self : node_id) (parents : list node_id) :
  ∀ (acc : list (node_id * bool)) (h : gmap node_id Tensor),
    ¬ cost_parent h parents →
    ∃ h', link_parents has_backwards_path self parents acc h
          = (h', inr (acc ++ ((λ p, (p, has_backwards_path self p)) <$> parents))).
Proof.
  induction parents as [|p rest IH]; intros acc h Hc.
  - simpl. exists h. by rewrite app_nil_r.
  - simpl. destruct (ref_is_cost h p) eqn:Hp.
    { destruct Hc. apply cost_parent_cons. by left. }
    destruct (IH (acc ++ [(p, has_backwards_path self p)])
                 (alter (add_child self (has_backwards_path self p)) p h))
      as [h' Hh'].
    { rewrite cost_parent_alter. intros Hr. apply Hc, cost_parent_cons.
      by right. }
    exists h'. by rewrite Hh', <-app_assoc.
Qed.

Lemma cost_parent_dec (h : gmap node_id Tensor) (parents : list node_id) :
  cost_parent h parents ∨ ¬ cost_parent h parents.
Proof.
  induction parents as [|p rest [IH|IH]].
  - right. intros (p & Hp%elem_of_nil & _)%cost_parent_alt. done.
  - left. apply cost_parent_cons. by right.
  - destruct (ref_is_cost h p) eqn:Hp.
    + left. apply cost_parent_cons. by left.
    + right. intros [?|?]%cost_parent_cons; [congruence | done].
Qed.

(** The three outcomes of [Tensor.__init__]. *)
Lemma Tensor__init__plate_error (self : node_id) (tensor : torch_Tensor)
    (parents : list node_id) (links : list Plate) (name : option string)
    (k : variant) (w : world) (e : exn) :
  check_batch_links (shape tensor) links ∅ 0 links = inl e →
  Tensor__init__ has_backwards_path self tensor parents links name k w
  = (w, inl e).
Proof. unfold Tensor__init__. by intros ->. Qed.

Lemma Tensor__init__cost_parent (self : node_id) (tensor : torch_Tensor)
    (parents : list node_id) (links : list Plate) (name : option string)
    (k : variant) (w : world) (bl : nat) :
  check_batch_links (shape tensor) links ∅ 0 links = inr bl →
  cost_parent (heap w) parents →
  ∃ w', Tensor__init__ has_backwards_path self tensor parents links name k w
        = (w', inl (ValueError CostNodesCannotHaveChildren)).
Proof.
  unfold Tensor__init__. intros -> Hc.
  destruct (link_parents_raises self parents [] (heap w) Hc) as [h' ->].
  by eexists.
Qed.

Lemma Tensor__init__returns (self : node_id) (tensor : torch_Tensor)
    (parents : list node_id) (links : list Plate) (name : option string)
    (k : variant) (w : world) (bl : nat) :
  check_batch_links (shape tensor) links ∅ 0 links = inr bl →
  ¬ cost_parent (heap w) parents →
  ∃ w' node,
    Tensor__init__ has_backwards_path self tensor parents links name k w
    = (w', inr ())
    ∧ heap w' !! self = Some node
    ∧ node = mk_Tensor name tensor
               ((λ p, (p, has_backwards_path self p)) <$> parents) [] bl
               (drop bl (shape tensor)) links k
    ∧ _cost_tensors w' = _cost_tensors w
    ∧ grad_enabled w' = grad_enabled w.
Proof.
  unfold Tensor__init__. intros -> Hc.
  destruct (link_parents_returns self parents [] (heap w) Hc) as [h' ->].
  eexists _, _. split; [done|]. simpl. by rewrite lookup_insert_eq.
Qed.

(** Whatever the outcome, the base constructor leaves the registry of cost
    tensors and the gradient mode alone; when it returns, [self] carries the
    plate list it was given. *)
Lemma Tensor__init__frame (self : node_id) (tensor : torch_Tensor)
    (parents : list node_id) (links : list Plate) (name : option string)
    (k : variant) (w w' : world) (r : exn + unit) :
  Tensor__init__ has_backwards_path self tensor parents links name k w
  = (w', r) →
  _cost_tensors w' = _cost_tensors w ∧ grad_enabled w' = grad_enabled w.
Proof.
  unfold Tensor__init__.
  destruct (check_batch_links _ _ _ _ _); [by intros [= <- _]|].
  destruct (link_parents _ _ _ _ _) as [h [e|ps]]; by intros [= <- _].
Qed.

Lemma Tensor__init__links (self : node_id) (tensor : torch_Tensor)
    (parents : list node_id) (links : list Plate) (name : option string)
    (k : variant) (w w' : world) :
  Tensor__init__ has_backwards_path self tensor parents links name k w
  = (w', inr ()) →
  ∃ node, heap w' !! self = Some node ∧ batch_links node = links
          ∧ kind node = k ∧ _name node = name.
Proof.
  unfold Tensor__init__.
  destruct (check_batch_links _ _ _ _ _); [by intros [= _ ?]|].
  destruct (link_parents _ _ _ _ _) as [h [e|ps]]; intros [= <-].
  eexists. simpl. by rewrite lookup_insert_eq.
Qed.

(** Every exception of the base constructor is a structural-validation
    error. *)
Lemma Tensor__init__structural (self : node_id) (tensor : torch_Tensor)
    (parents : list node_id) (links : list Plate) (name : option string)
    (k : variant) (w w' : world) (e : exn) :
  Tensor__init__ has_backwards_path self tensor parents links name k w
  = (w', inl e) →
  structural_validation_error e.
Proof.
  unfold Tensor__init__.
  destruct (check_batch_links _ _ _ _ _) as [e'|bl] eqn:Hcheck.
  - intros [= _ <-]. apply check_batch_links_raises in Hcheck.
    by destruct e' as [[]| | |].
  - destruct (cost_parent_dec (heap w) parents) as [Hc|Hc].
    + destruct (link_parents_raises self parents [] (heap w) Hc) as [h' ->].
      by intros [= _ <-].
    + destruct (link_parents_returns self parents [] (heap w) Hc) as [h' ->].
      done.
Qed.

End Construction.

(** ** Plates and tensor dimensions *)

Lemma plate_dims_lookup (links : list Plate) (i : nat) (name : string) (n : Z) :
  links !! i = Some (name, n) → (1 < n)%Z →
  plate_dims links !! plate_dimension links i = Some n.
Proof.
  intros Hi Hn. unfold plate_dims, plate_dimension, plates_above_one.
  pose proof (take_drop_middle links i (name, n) Hi) as Hsplit.
  remember (take i links) as before eqn:Hbefore.
  remember (drop (S i) links) as after eqn:Hafter.
  rewrite <-Hsplit, filter_app, filter_cons. simpl.
  destruct (decide (1 < n)%Z); [|done].
  rewrite fmap_app, lookup_app_r; rewrite length_fmap; [|done].
  by rewrite Nat.sub_diag.
Qed.

Lemma plate_dimension_dims_used (links : list Plate) (i : nat) :
  valid_sizes links → dims_used (take i links) = plate_dimension links i.
Proof.
  intros Hv. unfold plate_dimension. apply dims_used_valid.
  by apply valid_sizes_take.
Qed.

Lemma valid_sizes_lookup (links : list Plate) (i : nat) (name : string) (n : Z) :
  valid_sizes links → links !! i = Some (name, n) → n ≠ 1%Z → (1 < n)%Z.
Proof.
  intros Hv Hi Hn. unfold valid_sizes in Hv. rewrite Forall_lookup in Hv.
  specialize (Hv _ _ Hi). simpl in Hv. lia.
Qed.

(** A plate list with distinct names whose materialised sizes are the
    leading dimensions of the shape passes the plate loop. *)
Lemma check_batch_links_matching (tensor_shape event : list Z)
    (links : list Plate) :
  NoDup (plate_names links) → valid_sizes links →
  tensor_shape = plate_dims links ++ event →
  check_batch_links tensor_shape links ∅ 0 links
  = inr (length (plates_above_one links)).
Proof.
  intros Hnd Hv Hshape. apply check_batch_links_returns.
  split_and!; [done| by intros ? _ ?%not_elem_of_empty | |].
  - intros i name n Hi Hn. simpl.
    rewrite plate_dimension_dims_used by done.
    rewrite Hshape, lookup_app_l.
    + apply (plate_dims_lookup links i name n Hi).
      by eapply valid_sizes_lookup.
    + eapply lookup_lt_Some, (plate_dims_lookup links i name n Hi).
      by eapply valid_sizes_lookup.
  - simpl. symmetry. by apply dims_used_valid.
Qed.

Lemma plates_above_one_singleton (l1 l2 : list Plate) (name : string) :
  plates_above_one (l1 ++ (name, 1%Z) :: l2) = plates_above_one (l1 ++ l2).
Proof.
  unfold plates_above_one. rewrite !filter_app, filter_cons. simpl.
  by destruct (decide (1 < 1)%Z); [lia|].
Qed.

Section Claims.

Variable has_backwards_path : node_id → node_id → bool.

(** The base constructor on a valid plate list, a matching tensor and
    parents that are not cost nodes. *)
Lemma Tensor__init__matching (self : node_id) (tensor : torch_Tensor)
    (parents : list node_id) (links : list Plate) (name : option string)
    (k : variant) (w : world) (event : list Z) :
  NoDup (plate_names links) →
  valid_sizes links →
  shape tensor = plate_dims links ++ event →
  ¬ cost_parent (heap w) parents →
  ∃ w' node,
    Tensor__init__ has_backwards_path self tensor parents links name k w
    = (w', inr ())
    ∧ heap w' !! self = Some node
    ∧ batch_links node = links
    ∧ kind node = k
    ∧ batch_len node = length (plates_above_one links)
    ∧ event_shape node = drop (batch_len node) (shape tensor)
    ∧ event_shape node = event.
Proof.
  intros Hnd Hv Hshape Hc.
  pose proof (check_batch_links_matching _ _ _ Hnd Hv Hshape) as Hcheck.
  destruct (Tensor__init__returns has_backwards_path self tensor parents links
              name k w _ Hcheck Hc) as (w' & node & Hinit & Hself & -> & _).
  exists w'. eexists. split_and!; [done..|]; cbn [event_shape batch_len].
  rewrite Hshape. apply drop_app_length'. unfold plate_dims.
  by rewrite length_fmap.
Qed.

(** C2 (as amended).  For every list of plates with pairwise distinct names
    and sizes at least 1, every list of parents none of which is a cost
    node, and every tensor whose shape is the sizes of the plates of size
    greater than 1, in order, followed by [event]: the base construction
    returns, and the node it stores has [batch_len] equal to the number of
    plates of size greater than 1 and [event_shape] equal to [event], the
    dimensions of the tensor after the first [batch_len]; a plate of size 1
    adds nothing to [batch_len]. *)
Theorem matching_node_construction (self : node_id) (tensor : torch_Tensor)
    (parents : list node_id) (links : list Plate) (name : option string)
    (k : variant) (w : world) (event : list Z) :
  NoDup (plate_names links) →
  valid_sizes links →
  shape tensor = plate_dims links ++ event →
  ¬ cost_parent (heap w) parents →
  ∃ w' node,
    Tensor__init__ has_backwards_path self tensor parents links name k w
    = (w', inr ())
    ∧ heap w' !! self = Some node
    ∧ batch_links node = links
    ∧ batch_len node = length (plates_above_one links)
    ∧ batch_len node = length (multi_dim_plates node)
    ∧ event_shape node = drop (batch_len node) (shape tensor)
    ∧ event_shape node = event
    ∧ (∀ l1 l2 singleton, links = l1 ++ (singleton, 1%Z) :: l2 →
         batch_len node = length (plates_above_one (l1 ++ l2))).
Proof.
  intros Hnd Hv Hshape Hc.
  destruct (Tensor__init__matching self tensor parents links name k w event
              Hnd Hv Hshape Hc)
    as (w' & node & Hinit & Hself & Hlinks & _ & Hlen & Hdrop & Hevent).
  exists w', node. split_and!; try done.
  - unfold multi_dim_plates. by rewrite Hlinks.
  - intros l1 l2 singleton ->. by rewrite Hlen, plates_above_one_singleton.
Qed.

(** For plates of size at least 1, the validation loop of the base
    constructor raises, and the construction fails with a plate-collision or
    shape/plate-mismatch error, exactly when two entries of [batch_links]
    carry the same plate name, or some plate of size greater than 1 finds
    its dimension of the tensor missing or of another size; and what each
    of the three errors carries. *)
Lemma Tensor__init__plate_errors (self : node_id) (tensor : torch_Tensor)
    (parents : list node_id) (links : list Plate) (name : option string)
    (k : variant) (w : world) :
  valid_sizes links →
  let r :=
    snd (Tensor__init__ has_backwards_path self tensor parents links name k w)
  in
  ((∃ e, check_batch_links (shape tensor) links ∅ 0 links = inl e)
   ↔ (∃ plate_name, duplicate_plate links plate_name)
     ∨ (∃ i, plate_mismatch (shape tensor) links i))
  ∧ ((∃ m, r = inl (ValueError m) ∧ plate_error m)
     ↔ (∃ plate_name, duplicate_plate links plate_name)
       ∨ (∃ i, plate_mismatch (shape tensor) links i))
  ∧ (∀ plate_name,
       r = inl (ValueError (TwoInstancesOfPlate plate_name)) →
       duplicate_plate links plate_name)
  ∧ (∀ d plate_name plate_n actual links' shape',
       r = inl (ValueError (PlateViolated d plate_name plate_n actual
                                          links' shape')) →
       ∃ i, links !! i = Some (plate_name, plate_n) ∧ (1 < plate_n)%Z
            ∧ d = plate_dimension links i
            ∧ shape tensor !! d = Some actual ∧ actual ≠ plate_n)
  ∧ (∀ d n_links n_dims,
       r = inl (ValueError (ShapeTooSmall d n_links n_dims)) →
       n_links = length links ∧ n_dims = dim tensor ∧ n_dims ≤ d
       ∧ ∃ i plate_name plate_n,
           links !! i = Some (plate_name, plate_n) ∧ (1 < plate_n)%Z
           ∧ d = plate_dimension links i).
Proof.
  intros Hv r.
  assert (Hr : ∀ m, r = inl (ValueError m) → plate_error m →
    check_failure (shape tensor) links ∅ 0 links (ValueError m)).
  { intros m Hm Hpe. subst r. unfold Tensor__init__ in Hm.
    destruct (check_batch_links _ _ _ _ _) as [e|bl] eqn:Hcheck.
    - simpl in Hm. injection Hm as ->. by apply check_batch_links_raises.
    - destruct (link_parents _ _ _ _ _) as [h [e|ps]] eqn:Hl; [|done].
      simpl in Hm. injection Hm as ->.
      destruct (cost_parent_dec (heap w) parents) as [Hc|Hc].
      + destruct (link_parents_raises has_backwards_path self parents []
                    (heap w) Hc) as [h' Hh'].
        rewrite Hh' in Hl. by simplify_eq.
      + destruct (link_parents_returns has_backwards_path self parents []
                    (heap w) Hc) as [h' Hh'].
        rewrite Hh' in Hl. by simplify_eq. }
  assert (Hdup : ∀ plate_name,
    r = inl (ValueError (TwoInstancesOfPlate plate_name)) →
    duplicate_plate links plate_name).
  { intros plate_name Hm. specialize (Hr _ Hm I). simpl in Hr.
    destruct Hr as (j & Hj & [[]%not_elem_of_empty|(i & Hij & Hi)]).
    by exists i, j. }
  assert (Hviol : ∀ d plate_name plate_n actual links' shape',
    r = inl (ValueError (PlateViolated d plate_name plate_n actual
                                       links' shape')) →
    ∃ i, links !! i = Some (plate_name, plate_n) ∧ (1 < plate_n)%Z
         ∧ d = plate_dimension links i
         ∧ shape tensor !! d = Some actual ∧ actual ≠ plate_n).
  { intros d plate_name plate_n actual links' shape' Hm.
    specialize (Hr _ Hm I). simpl in Hr.
    destruct Hr as (_ & _ & i & Hi & Hn & -> & Hd & Hne). exists i.
    rewrite plate_dimension_dims_used in Hd |- * by done.
    split_and!; try done. by eapply valid_sizes_lookup. }
  assert (Hsmall : ∀ d n_links n_dims,
    r = inl (ValueError (ShapeTooSmall d n_links n_dims)) →
    n_links = length links ∧ n_dims = dim tensor ∧ n_dims ≤ d
    ∧ ∃ i plate_name plate_n,
        links !! i = Some (plate_name, plate_n) ∧ (1 < plate_n)%Z
        ∧ d = plate_dimension links i).
  { intros d n_links n_dims Hm. specialize (Hr _ Hm I). simpl in Hr.
    destruct Hr as (-> & -> & i & plate_name & plate_n & Hi & Hn & -> & Hd).
    split_and!; [done..| |].
    - by apply lookup_ge_None in Hd.
    - exists i, plate_name, plate_n.
      rewrite plate_dimension_dims_used by done.
      split_and!; try done. by eapply valid_sizes_lookup. }
  assert (Hiff : (∃ m, r = inl (ValueError m) ∧ plate_error m)
                 ↔ (∃ plate_name, duplicate_plate links plate_name)
                   ∨ (∃ i, plate_mismatch (shape tensor) links i));
    [|split_and!; [|done..]].
  2:{ rewrite <-Hiff. subst r. split.
      - intros [e Hcheck].
        pose proof (check_batch_links_raises _ _ _ _ _ _ Hcheck) as Hfail.
        rewrite (Tensor__init__plate_error _ _ _ _ _ _ _ _ _ Hcheck). simpl.
        destruct e as [m| | |]; try done. exists m. split; [done|].
        by destruct m.
      - intros (m & Hm & Hpe). unfold Tensor__init__ in Hm.
        destruct (check_batch_links _ _ _ _ _) as [e|bl]; [by eexists|].
        exfalso. destruct (link_parents _ _ _ _ _) as [h [e|ps]] eqn:Hl;
          [|done].
        simpl in Hm. injection Hm as ->.
        destruct (cost_parent_dec (heap w) parents) as [Hc|Hc].
        + destruct (link_parents_raises has_backwards_path self parents []
                      (heap w) Hc) as [h' Hh'].
          rewrite Hh' in Hl. by simplify_eq.
        + destruct (link_parents_returns has_backwards_path self parents []
                      (heap w) Hc) as [h' Hh'].
          rewrite Hh' in Hl. by simplify_eq. }
  split.
  - intros (m & Hm & Hpe). destruct m; try done.
    + left. eexists. by apply Hdup.
    + right. destruct (Hsmall _ _ _ Hm)
        as (_ & -> & Hle & i & plate_name & plate_n & Hi & Hn & ->).
      exists i, plate_name, plate_n. split_and!; [done..|].
      apply lookup_ge_None_2 in Hle. unfold dim in Hle. by rewrite Hle.
    + right. destruct (Hviol _ _ _ _ _ _ Hm) as (i & Hi & Hn & -> & Hd & Hne).
      exists i, plate_name, plate_n. split_and!; [done..|].
      rewrite Hd. congruence.
  - intros Hbad.
    destruct (check_batch_links (shape tensor) links ∅ 0 links)
      as [e|bl] eqn:Hcheck.
    + pose proof (check_batch_links_raises _ _ _ _ _ _ Hcheck) as Hfail.
      subst r. rewrite (Tensor__init__plate_error _ _ _ _ _ _ _ _ _ Hcheck).
      simpl. destruct e as [m| | |]; try done. exists m. split; [done|].
      by destruct m.
    + exfalso. apply check_batch_links_returns in Hcheck
        as (Hnd & _ & Hdims & _).
      destruct Hbad as [(plate_name & i & j & Hij & Hi & Hj)
                       |(i & plate_name & plate_n & Hi & Hn & Hd)].
      * pose proof (NoDup_lookup _ _ _ _ Hnd Hi Hj). lia.
      * apply Hd. rewrite <-plate_dimension_dims_used by done.
        apply (Hdims i plate_name plate_n Hi). lia.
Qed.

(** A cost node among the parents makes the base constructor raise. *)
Lemma Tensor__init__fails_on_cost_parent (self : node_id)
    (tensor : torch_Tensor) (parents : list node_id) (links : list Plate)
    (name : option string) (k : variant) (w : world) :
  cost_parent (heap w) parents →
  ∃ w' e,
    Tensor__init__ has_backwards_path self tensor parents links name k w
    = (w', inl e)
    ∧ structural_validation_error e.
Proof.
  intros Hc.
  destruct (check_batch_links (shape tensor) links ∅ 0 links)
    as [e|bl] eqn:Hcheck.
  - exists w, e. split; [by apply Tensor__init__plate_error|].
    eapply Tensor__init__structural.
    by apply (Tensor__init__plate_error has_backwards_path self tensor parents
                links name k w).
  - destruct (Tensor__init__cost_parent has_backwards_path self tensor parents
                links name k w bl Hcheck Hc) as [w' Hw'].
    by exists w', (ValueError CostNodesCannotHaveChildren).
Qed.

(** Among the plates of size greater than 1, the dimension determines the
    plate. *)
Lemma plate_dimension_le (links : list Plate) (i j : nat) :
  i ≤ j → plate_dimension links i ≤ plate_dimension links j.
Proof.
  intros Hij. unfold plate_dimension, plates_above_one.
  rewrite <-(take_drop i (take j links)), filter_app, length_app, take_take.
  rewrite Nat.min_l by done. unfold Plate in *. lia.
Qed.

Lemma plate_dimension_S (links : list Plate) (i : nat) (name : string)
    (n : Z) :
  links !! i = Some (name, n) → (1 < n)%Z →
  plate_dimension links (S i) = S (plate_dimension links i).
Proof.
  intros Hi Hn. unfold plate_dimension, plates_above_one, Plate in *.
  rewrite (take_S_r links i (name, n) Hi), filter_app, length_app,
    filter_cons.
  simpl. rewrite decide_True by done. simpl. lia.
Qed.

Lemma plate_dimension_inj (links : list Plate) (i j : nat)
    (name name' : string) (n n' : Z) :
  links !! i = Some (name, n) → (1 < n)%Z →
  links !! j = Some (name', n') → (1 < n')%Z →
  plate_dimension links i = plate_dimension links j → i = j.
Proof.
  intros Hi Hn Hj Hn' Heq.
  destruct (Nat.lt_trichotomy i j) as [Hlt|[->|Hlt]]; [|done|].
  - pose proof (plate_dimension_S links i name n Hi Hn).
    pose proof (plate_dimension_le links (S i) j Hlt). lia.
  - pose proof (plate_dimension_S links j name' n' Hj Hn').
    pose proof (plate_dimension_le links (S j) i Hlt). lia.
Qed.

(** C3 (as amended).  For plates of size at least 1, the base constructor
    fails, always with a structural-validation error, exactly when two
    entries of [batch_links] carry the same plate name, or some plate of
    size greater than 1 finds its dimension of the tensor missing or of
    another size, or a parent is a cost node.  The plates are validated
    first: the construction fails with a plate-collision or
    shape/plate-mismatch error exactly when one of the two conditions on
    the plates holds, and with the cost-parent error exactly when neither
    holds and a parent is a cost node.  The collision error names a plate
    that occurs twice; the mismatch error gives the dimension, the name and
    size of the plate, the size found, the plate list and the shape; the
    error for a missing dimension gives the dimension, which no dimension
    of the tensor reaches, the number of plates and the number of
    dimensions.  In both the dimension determines the plate. *)
Theorem plate_validation_errors (self : node_id) (tensor : torch_Tensor)
    (parents : list node_id) (links : list Plate) (name : option string)
    (k : variant) (w : world) :
  valid_sizes links →
  let r :=
    snd (Tensor__init__ has_backwards_path self tensor parents links name k w)
  in
  let bad_plates :=
    (∃ plate_name, duplicate_plate links plate_name)
    ∨ (∃ i, plate_mismatch (shape tensor) links i) in
  let at_dimension (d i : nat) :=
    d = plate_dimension links i
    ∧ ∀ j name' n', links !! j = Some (name', n') → (1 < n')%Z →
                    plate_dimension links j = d → j = i in
  ((∃ e, r = inl e ∧ structural_validation_error e)
   ↔ bad_plates ∨ cost_parent (heap w) parents)
  ∧ (∀ e, r = inl e → structural_validation_error e)
  ∧ ((∃ e, check_batch_links (shape tensor) links ∅ 0 links = inl e)
     ↔ bad_plates)
  ∧ ((∃ m, r = inl (ValueError m) ∧ plate_error m) ↔ bad_plates)
  ∧ (r = inl (ValueError CostNodesCannotHaveChildren)
     ↔ ¬ bad_plates ∧ cost_parent (heap w) parents)
  ∧ (∀ plate_name,
       r = inl (ValueError (TwoInstancesOfPlate plate_name)) →
       duplicate_plate links plate_name)
  ∧ (∀ d plate_name plate_n actual links' shape',
       r = inl (ValueError (PlateViolated d plate_name plate_n actual
                                          links' shape')) →
       links' = links ∧ shape' = shape tensor
       ∧ ∃ i, links !! i = Some (plate_name, plate_n) ∧ (1 < plate_n)%Z
              ∧ at_dimension d i
              ∧ shape tensor !! d = Some actual ∧ actual ≠ plate_n)
  ∧ (∀ d n_links n_dims,
       r = inl (ValueError (ShapeTooSmall d n_links n_dims)) →
       n_links = length links ∧ n_dims = dim tensor ∧ n_dims ≤ d
       ∧ ∃ i plate_name plate_n,
           links !! i = Some (plate_name, plate_n) ∧ (1 < plate_n)%Z
           ∧ at_dimension d i).
Proof.
  intros Hv r bad_plates at_dimension.
  destruct (Tensor__init__plate_errors self tensor parents links name k w Hv)
    as (Hcheck & Hplate & Hdup & Hviol & Hsmall).
  fold r in Hplate, Hdup, Hviol, Hsmall. fold bad_plates in Hcheck, Hplate.
  assert (Hat : ∀ i plate_name plate_n,
    links !! i = Some (plate_name, plate_n) → (1 < plate_n)%Z →
    at_dimension (plate_dimension links i) i).
  { intros i plate_name plate_n Hi Hn. split; [done|].
    intros j name' n' Hj Hn' Heq.
    by eapply (plate_dimension_inj links j i). }
  assert (Hstructural : ∀ e, r = inl e → structural_validation_error e).
  { intros e He. subst r.
    destruct (Tensor__init__ _ _ _ _ _ _ _ _) as [w' r'] eqn:Hinit.
    simpl in He. subst r'. by eapply Tensor__init__structural. }
  assert (Hcost : r = inl (ValueError CostNodesCannotHaveChildren)
                  ↔ ¬ bad_plates ∧ cost_parent (heap w) parents).
  { split.
    - intros Hr.
      destruct (check_batch_links (shape tensor) links ∅ 0 links)
        as [e|bl] eqn:Hc.
      + exfalso. subst r.
        rewrite (Tensor__init__plate_error _ _ _ _ _ _ _ _ _ Hc) in Hr.
        simpl in Hr. injection Hr as ->.
        by apply check_batch_links_raises in Hc.
      + split.
        * intros Hbad. apply Hcheck in Hbad as [e He]. congruence.
        * destruct (cost_parent_dec (heap w) parents) as [|Hno]; [done|].
          destruct (Tensor__init__returns has_backwards_path self tensor
                      parents links name k w bl Hc Hno)
            as (w' & node & Hinit & _).
          subst r. rewrite Hinit in Hr. done.
    - intros [Hgood Hparent].
      destruct (check_batch_links (shape tensor) links ∅ 0 links)
        as [e|bl] eqn:Hc.
      + destruct Hgood. apply Hcheck. by exists e.
      + destruct (Tensor__init__cost_parent has_backwards_path self tensor
                    parents links name k w bl Hc Hparent)
          as [w' Hinit].
        subst r. by rewrite Hinit. }
  split_and!; try done.
  - split.
    + intros (e & He & _).
      destruct (check_batch_links (shape tensor) links ∅ 0 links)
        as [e'|bl] eqn:Hc.
      * left. apply Hcheck. by exists e'.
      * right. destruct (cost_parent_dec (heap w) parents) as [|Hno]; [done|].
        destruct (Tensor__init__returns has_backwards_path self tensor
                    parents links name k w bl Hc Hno)
          as (w' & node & Hinit & _).
        subst r. rewrite Hinit in He. done.
    + intros [Hbad|Hparent].
      * apply Hplate in Hbad as (m & Hm & Hpe). exists (ValueError m).
        split; [done|]. by destruct m.
      * destruct (Tensor__init__fails_on_cost_parent self tensor parents
                    links name k w Hparent) as (w' & e & Hinit & He).
        exists e. subst r. by rewrite Hinit.
  - intros d plate_name plate_n actual links' shape' Hr.
    destruct (Hviol _ _ _ _ _ _ Hr) as (i & Hi & Hn & -> & Hd & Hne).
    assert (links' = links ∧ shape' = shape tensor) as [-> ->].
    { subst r. unfold Tensor__init__ in Hr.
      destruct (check_batch_links (shape tensor) links ∅ 0 links)
        as [e|bl] eqn:Hc.
      - simpl in Hr. injection Hr as ->.
        by apply check_batch_links_raises in Hc as (-> & -> & _).
      - destruct (link_parents _ _ _ _ _) as [h [e|ps]] eqn:Hl; [|done].
        simpl in Hr. injection Hr as ->.
        destruct (cost_parent_dec (heap w) parents) as [Hyes|Hno].
        + destruct (link_parents_raises has_backwards_path self parents []
                      (heap w) Hyes) as [h' Hh'].
          rewrite Hh' in Hl. by simplify_eq.
        + destruct (link_parents_returns has_backwards_path self parents []
                      (heap w) Hno) as [h' Hh'].
          rewrite Hh' in Hl. by simplify_eq. }
    split_and!; [done..|]. exists i. split_and!; try done.
    by eapply Hat.
  - intros d n_links n_dims Hr.
    destruct (Hsmall _ _ _ Hr)
      as (-> & -> & Hle & i & plate_name & plate_n & Hi & Hn & ->).
    split_and!; [done..|]. exists i, plate_name, plate_n.
    split_and!; try done. by eapply Hat.
Qed.

(** The registry after [DeterministicTensor.__init__]: the node is appended
    as soon as the base constructor has returned for a cost node under
    gradient tracking, before the name is looked at. *)
Lemma DeterministicTensor__init__registry (self : node_id)
    (tensor : torch_Tensor) (parents : list node_id) (links : list Plate)
    (cost : bool) (name : option string) (w w' : world) (r : exn + unit) :
  DeterministicTensor__init__ has_backwards_path self tensor parents links
                              cost name w = (w', r) →
  _cost_tensors w'
  = match snd (Tensor__init__ has_backwards_path self tensor parents links
                              name (Deterministic cost) w) with
    | inr _ =>
        if cost && grad_enabled w then _cost_tensors w ++ [self]
        else _cost_tensors w
    | inl _ => _cost_tensors w
    end.
Proof.
  unfold DeterministicTensor__init__.
  destruct (Tensor__init__ _ _ _ _ _ _ _ _) as [w1 [e|[]]] eqn:Hbase; simpl.
  - intros [= <- _]. by apply Tensor__init__frame in Hbase as [-> _].
  - apply Tensor__init__frame in Hbase as [Hreg Hgrad]. rewrite Hgrad.
    destruct (cost && grad_enabled w).
    + destruct (negb (truthy name)); intros [= <- _]; simpl; by rewrite Hreg.
    + by intros [= <- _].
Qed.

(** C1 (the code departs from it).  Constructing a cost node without a name
    under gradient tracking raises, but only after the node was appended to
    the registry of pending cost tensors: the registry of the failed
    construction holds the invalid node. *)
Theorem nameless_cost_node_is_registered :
  let w := mk_world ∅ 0 [] true in
  ∃ w' node,
    new_DeterministicTensor has_backwards_path (mk_torch [] [1%Q]) [] [] true
                            None w
    = (w', inl (ValueError CostNodeWithoutName))
    ∧ _cost_tensors w = []
    ∧ _cost_tensors w' = [0]
    ∧ heap w' !! 0 = Some node
    ∧ is_cost node = true ∧ _name node = None.
Proof.
  eexists _, _. split; [reflexivity|]. split; [done|]. split; [done|].
  split; [apply lookup_insert_eq|]. done.
Qed.

(** C4 (as amended).  A construction one of whose parents is a terminal
    cost node fails with a structural-validation error, for the base class
    and for the deterministic and stochastic classes, and for the
    independent class when the tensor has a first dimension.  Constructing a
    cost-flagged deterministic node whose name is missing or empty while
    gradient tracking is enabled fails, with the missing-name error whenever
    the base construction contract is met. *)
Theorem cost_node_misuse (self : node_id) (tensor : torch_Tensor)
    (parents : list node_id) (links : list Plate) (cost : bool)
    (name : option string) (plate_name : string)
    (distribution : gmap string torch_Tensor) (requires_grad : bool) (n : Z)
    (w : world) :
  (cost_parent (heap w) parents →
     (∀ k, ∃ w' e,
        Tensor__init__ has_backwards_path self tensor parents links name k w
        = (w', inl e) ∧ structural_validation_error e)
     ∧ (∃ w' e,
          DeterministicTensor__init__ has_backwards_path self tensor parents
                                      links cost name w = (w', inl e)
          ∧ structural_validation_error e)
     ∧ (∃ w' e,
          StochasticTensor__init__ has_backwards_path self tensor parents
                                   links distribution requires_grad n
                                   plate_name w = (w', inl e)
          ∧ structural_validation_error e)
     ∧ (shape tensor ≠ [] →
        ∃ w' e,
          IndependentTensor__init__ has_backwards_path self tensor parents
                                    links plate_name w = (w', inl e)
          ∧ structural_validation_error e))
  ∧ (cost = true → grad_enabled w = true → truthy name = false →
     ∃ w' e,
       DeterministicTensor__init__ has_backwards_path self tensor parents
                                   links cost name w = (w', inl e)
       ∧ (structural_validation_error e ∨ e = ValueError CostNodeWithoutName)
       ∧ ((∃ w1, Tensor__init__ has_backwards_path self tensor parents links
                   name (Deterministic cost) w = (w1, inr ())) →
          e = ValueError CostNodeWithoutName)).
Proof.
  split.
  - intros Hc. split_and!.
    + intros k. by apply Tensor__init__fails_on_cost_parent.
    + destruct (Tensor__init__fails_on_cost_parent self tensor parents links
                  name (Deterministic cost) w Hc) as (w' & e & Hbase & He).
      exists w', e. unfold DeterministicTensor__init__. by rewrite Hbase.
    + unfold StochasticTensor__init__.
      destruct (name_in_use plate_name links); [by eexists _, _|].
      by apply Tensor__init__fails_on_cost_parent.
    + intros Hshape. unfold IndependentTensor__init__.
      destruct (shape tensor) as [|n0 rest]; [done|].
      destruct (name_in_use plate_name links); [by eexists _, _|].
      by apply Tensor__init__fails_on_cost_parent.
  - intros -> Hgrad Hname. unfold DeterministicTensor__init__.
    destruct (Tensor__init__ _ _ _ _ _ _ _ _) as [w1 [e|[]]] eqn:Hbase.
    + exists w1, e. split_and!; [done| |].
      * left. by eapply Tensor__init__structural.
      * by intros [? [=]].
    + apply Tensor__init__frame in Hbase as [_ ->]. rewrite Hgrad, Hname.
      simpl. eexists _, _. split_and!; [done | by right | done].
Qed.

(** The name test of the independent and stochastic constructors. *)
Lemma name_in_use_spec (name : string) (links : list Plate) :
  name_in_use name links = true ↔ name ∈ plate_names links.
Proof.
  unfold name_in_use, plate_names. rewrite existsb_exists, list_elem_of_fmap.
  split.
  - intros ([plate_name plate_n] & Hin%list_elem_of_In & Heq%String.eqb_eq).
    simpl in Heq. subst. by exists (name, plate_n).
  - intros ([plate_name plate_n] & -> & Hin). exists (plate_name, plate_n).
    split; [by apply list_elem_of_In | by apply String.eqb_eq].
Qed.

(** C5 (as amended).  Building an independent or stochastic node that
    introduces the plate [name] over the plates [links] of an existing node:
    if [name] occurs in [links] the construction fails with the
    name-collision error (for an independent node, when the tensor has a
    first dimension); if it does not, the construction is the base
    construction on the list with the new plate in front, so that whenever
    it returns the new node's [batch_links] is the new plate followed by
    [links] in order, and it does return when the extended list and the
    tensor meet the base contract. *)
Theorem plate_introduction (self : node_id) (tensor : torch_Tensor)
    (parents : list node_id) (links : list Plate)
    (distribution : gmap string torch_Tensor) (requires_grad : bool) (n : Z)
    (name : string) (w : world) :
  (name ∈ plate_names links →
     StochasticTensor__init__ has_backwards_path self tensor parents links
                              distribution requires_grad n name w
     = (w, inl (ValueError (StochasticNameInUse name)))
     ∧ (shape tensor ≠ [] →
        IndependentTensor__init__ has_backwards_path self tensor parents links
                                  name w
        = (w, inl (ValueError (IndependentNameInUse name)))))
  ∧ (name ∉ plate_names links →
     (∀ w',
        StochasticTensor__init__ has_backwards_path self tensor parents links
                                 distribution requires_grad n name w
        = (w', inr ()) →
        ∃ node, heap w' !! self = Some node
                ∧ batch_links node = (name, n) :: links)
     ∧ (∀ w' n0 rest,
        shape tensor = n0 :: rest →
        IndependentTensor__init__ has_backwards_path self tensor parents links
                                  name w
        = (w', inr ()) →
        ∃ node, heap w' !! self = Some node
                ∧ batch_links node = (name, n0) :: links)
     ∧ (∀ event,
        NoDup (plate_names links) → valid_sizes ((name, n) :: links) →
        shape tensor = plate_dims ((name, n) :: links) ++ event →
        ¬ cost_parent (heap w) parents →
        ∃ w' node,
          StochasticTensor__init__ has_backwards_path self tensor parents
                                   links distribution requires_grad n name w
          = (w', inr ())
          ∧ heap w' !! self = Some node
          ∧ batch_links node = (name, n) :: links)
     ∧ (∀ event n0 rest,
        shape tensor = n0 :: rest →
        NoDup (plate_names links) → valid_sizes ((name, n0) :: links) →
        shape tensor = plate_dims ((name, n0) :: links) ++ event →
        ¬ cost_parent (heap w) parents →
        ∃ w' node,
          IndependentTensor__init__ has_backwards_path self tensor parents
                                    links name w
          = (w', inr ())
          ∧ heap w' !! self = Some node
          ∧ batch_links node = (name, n0) :: links)).
Proof.
  split.
  - intros Hin%name_in_use_spec. split.
    + unfold StochasticTensor__init__. by rewrite Hin.
    + unfold IndependentTensor__init__. destruct (shape tensor); [done|].
      by rewrite Hin.
  - intros Hnin. assert (name_in_use name links = false) as Hfree.
    { destruct (name_in_use name links) eqn:Hin; [|done].
      by apply name_in_use_spec in Hin. }
    split_and!.
    + intros w'. unfold StochasticTensor__init__. rewrite Hfree.
      intros (node & ? & ? & _)%Tensor__init__links. by exists node.
    + intros w' n0 rest Hshape. unfold IndependentTensor__init__.
      rewrite Hshape, Hfree.
      intros (node & ? & ? & _)%Tensor__init__links. by exists node.
    + intros event Hnd Hv Hshape Hc. unfold StochasticTensor__init__.
      rewrite Hfree.
      destruct (Tensor__init__matching self tensor parents
                  ((name, n) :: links) (Some name)
                  (Stochastic n distribution requires_grad ∅) w event)
        as (w' & node & ? & ? & ? & _); try done.
      * by apply NoDup_cons.
      * by exists w', node.
    + intros event n0 rest Hshape0 Hnd Hv Hshape Hc.
      unfold IndependentTensor__init__. rewrite Hshape0, Hfree.
      destruct (Tensor__init__matching self tensor parents
                  ((name, n0) :: links) (Some name) (Independent n0) w event)
        as (w' & node & ? & ? & ? & _); try done.
      * by apply NoDup_cons.
      * by exists w', node.
Qed.

End Claims.

(** ** Navigation *)

Section Walks.

Variable has_backwards_path : node_id → node_id → bool.

(** Constructing a node changes other nodes only in their [_children]. *)
Lemma link_parents_frame (self : node_id) (parents : list node_id) :
  ∀ (acc : list (node_id * bool)) (h h' : gmap node_id Tensor)
    (r : exn + list (node_id * bool)) (x : node_id),
    link_parents has_backwards_path self parents acc h = (h', r) →
    forget_children <$> h' !! x = forget_children <$> h !! x.
Proof.
  induction parents as [|p rest IH]; intros acc h h' r x; simpl.
  - by intros [= <- _].
  - destruct (ref_is_cost h p); [by intros [= <- _]|].
    intros ->%(IH _ _ _ _ x). destruct (decide (p = x)) as [->|Hne].
    + rewrite lookup_alter_eq. by destruct (h !! x).
    + by rewrite lookup_alter_ne.
Qed.

Lemma Tensor__init__frame_heap (self : node_id) (tensor : torch_Tensor)
    (parents : list node_id) (links : list Plate) (name : option string)
    (k : variant) (w w' : world) (r : exn + unit) (x : node_id) :
  Tensor__init__ has_backwards_path self tensor parents links name k w
  = (w', r) →
  x ≠ self →
  forget_children <$> heap w' !! x = forget_children <$> heap w !! x.
Proof.
  unfold Tensor__init__. intros Hinit Hx.
  destruct (check_batch_links _ _ _ _ _); [by injection Hinit as <- _|].
  destruct (link_parents _ _ _ _ _) as [h [e|ps]] eqn:Hlink;
    injection Hinit as <- _; simpl.
  - by eapply link_parents_frame.
  - rewrite lookup_insert_ne by done. by eapply link_parents_frame.
Qed.

Lemma expand_parents_forget (h h' : gmap node_id Tensor) (x : node_id) :
  forget_children <$> h' !! x = forget_children <$> h !! x →
  expand_parents h' x = expand_parents h x.
Proof.
  unfold expand_parents.
  destruct (h' !! x) as [t'|], (h !! x) as [t|]; simpl; try done.
  by intros [= ? ? ? ? ? ? ?].
Qed.

Lemma ref_is_cost_forget (h h' : gmap node_id Tensor) (x : node_id) :
  forget_children <$> h' !! x = forget_children <$> h !! x →
  ref_is_cost h' x = ref_is_cost h x.
Proof.
  unfold ref_is_cost, is_cost.
  destruct (h' !! x) as [t'|], (h !! x) as [t|]; simpl; try done.
  by intros [= ? ? ? ? ? ? ->].
Qed.

(** A base node without plates over parents that are not cost nodes. *)
Lemma new_Tensor_plain (tensor : torch_Tensor) (parents : list node_id)
    (name : option string) (w : world) :
  (∀ p, p ∈ parents → ref_is_cost (heap w) p = false) →
  ∃ w',
    new_Tensor has_backwards_path tensor parents [] name w
    = (w', inr (next_id w))
    ∧ next_id w' = S (next_id w)
    ∧ expand_parents (heap w') (next_id w)
      = (λ p, (p, has_backwards_path (next_id w) p)) <$> parents
    ∧ ref_is_cost (heap w') (next_id w) = false
    ∧ ∀ x, x ≠ next_id w →
        forget_children <$> heap w' !! x = forget_children <$> heap w !! x.
Proof.
  intros Hparents. unfold new_Tensor, Tensor__new__.
  set (w0 := mk_world (heap w) (S (next_id w)) (_cost_tensors w)
                      (grad_enabled w)).
  assert (¬ cost_parent (heap w0) parents) as Hc.
  { intros (p & Hp & Hcost)%cost_parent_alt. simpl in Hcost.
    by rewrite Hparents in Hcost. }
  destruct (Tensor__init__returns has_backwards_path (next_id w) tensor parents
              [] name BaseTensor w0 0 eq_refl Hc)
    as (w' & node & Hinit & Hself & -> & _).
  rewrite Hinit. exists w'. split_and!; [done| | | |].
  - unfold Tensor__init__ in Hinit. simpl in Hinit.
    destruct (link_parents _ _ _ _ _) as [h [e|ps]]; by injection Hinit as <-.
  - unfold expand_parents. by rewrite Hself.
  - unfold ref_is_cost. by rewrite Hself.
  - intros x Hx.
    by rewrite (Tensor__init__frame_heap _ _ _ _ _ _ _ _ _ _ Hinit Hx).
Qed.

(** With [repeat_visited] off, the depth-first walk yields no node twice,
    and none that was already visited, on every graph. *)
Lemma walk_depth_first_once (expand_fn : node_id → list (node_id * bool))
    (only_differentiable : bool) (fuel : nat) :
  ∀ (stack : list node_id) (visited : gset node_id) (l : list node_id),
    walk_depth_first expand_fn only_differentiable false id fuel stack visited
    = Some l →
    NoDup l ∧ ∀ x, x ∈ l → x ∉ visited.
Proof.
  induction fuel as [|fuel IH]; intros stack visited l; simpl; [done|].
  destruct stack as [|v stack].
  - intros [= <-]. split; [constructor | by intros ? ?%elem_of_nil].
  - destruct (bool_decide (v ∉ visited)) eqn:Hv; simpl.
    + apply bool_decide_eq_true in Hv.
      destruct (walk_depth_first _ _ _ _ _ _ _) as [l'|] eqn:Hwalk; [|done].
      intros [= <-]. apply IH in Hwalk as [Hnd Hnew]. split.
      * constructor; [|done]. intros Hin%Hnew. apply Hin, elem_of_union_l.
        by apply elem_of_singleton.
      * intros x [->|Hin%Hnew]%elem_of_cons; [done|].
        intros ?. by apply Hin, elem_of_union_r.
    + apply IH.
Qed.

(** More fuel does not change a finished depth-first walk. *)
Lemma walk_depth_first_fuel {A : Type}
    (expand_fn : node_id → list (node_id * bool))
    (only_differentiable repeat_visited : bool) (walk_fn : node_id → A)
    (fuel : nat) :
  ∀ (extra : nat) (stack : list node_id) (visited : gset node_id)
    (l : list A),
    walk_depth_first expand_fn only_differentiable repeat_visited walk_fn
                     fuel stack visited = Some l →
    walk_depth_first expand_fn only_differentiable repeat_visited walk_fn
                     (fuel + extra) stack visited = Some l.
Proof.
  induction fuel as [|fuel IH]; intros extra stack visited l; simpl; [done|].
  destruct stack as [|v stack]; [done|].
  destruct (repeat_visited || bool_decide (v ∉ visited)).
  - destruct (walk_depth_first _ _ _ _ fuel _ _) as [l'|] eqn:Hwalk; [|done].
    intros [= <-]. by rewrite (IH extra _ _ _ Hwalk).
  - apply IH.
Qed.

(** The two cases of one iteration of the depth-first loop. *)
Lemma walk_depth_first_visit {A : Type}
    (expand_fn : node_id → list (node_id * bool))
    (only_differentiable repeat_visited : bool) (walk_fn : node_id → A)
    (fuel : nat) (v : node_id) (stack : list node_id)
    (visited : gset node_id) :
  v ∉ visited →
  walk_depth_first expand_fn only_differentiable repeat_visited walk_fn
                   (S fuel) (v :: stack) visited
  = cons (walk_fn v) <$>
      walk_depth_first expand_fn only_differentiable repeat_visited walk_fn
        fuel (rev (pushed expand_fn only_differentiable v) ++ stack)
        ({[v]} ∪ visited).
Proof.
  intros Hv. simpl. rewrite bool_decide_eq_true_2 by done.
  by rewrite orb_true_r.
Qed.

Lemma walk_depth_first_skip {A : Type}
    (expand_fn : node_id → list (node_id * bool))
    (only_differentiable : bool) (walk_fn : node_id → A)
    (fuel : nat) (v : node_id) (stack : list node_id)
    (visited : gset node_id) :
  v ∈ visited →
  walk_depth_first expand_fn only_differentiable false walk_fn
                   (S fuel) (v :: stack) visited
  = walk_depth_first expand_fn only_differentiable false walk_fn
                     fuel stack visited.
Proof.
  intros Hv. simpl. rewrite bool_decide_eq_false_2; [done|]. by intros [].
Qed.

(** Without [only_differentiable] every expanded node is pushed. *)
Lemma pushed_all (expand_fn : node_id → list (node_id * bool)) (v : node_id) :
  pushed expand_fn false v = fst <$> expand_fn v.
Proof.
  unfold pushed. f_equal. induction (expand_fn v) as [|[x d] l IH]; [done|].
  rewrite filter_cons, IH. simpl. destruct (decide _) as [|Hd]; [done|].
  destruct Hd. by rewrite orb_true_r.
Qed.

Section Termination.

Context {A : Type}.
Variable expand_fn : node_id → list (node_id * bool).
Variable only_differentiable : bool.
Variable walk_fn : node_id → A.

(** The graph is finite: outside [universe] no node has an edge. *)
Variable universe : gset node_id.
Hypothesis expand_fn_support : ∀ v, v ∉ universe → expand_fn v = [].

Lemma pushed_length (v : node_id) :
  length (pushed expand_fn only_differentiable v) ≤ length (expand_fn v).
Proof. unfold pushed. rewrite length_fmap. apply length_filter. Qed.

Lemma pending_edges_visit (v : node_id) (visited : gset node_id) :
  v ∉ visited →
  pending_edges expand_fn universe ({[v]} ∪ visited) + length (expand_fn v)
  = pending_edges expand_fn universe visited.
Proof.
  intros Hv. unfold pending_edges.
  destruct (decide (v ∈ universe)) as [Hin|Hout].
  - assert (universe ∖ visited = {[v]} ∪ universe ∖ ({[v]} ∪ visited)) as ->.
    { apply set_eq. intros x.
      rewrite elem_of_union, !elem_of_difference, elem_of_union,
        elem_of_singleton.
      destruct (decide (x = v)) as [->|]; tauto. }
    rewrite elements_union_singleton.
    + simpl. lia.
    + rewrite elem_of_difference, elem_of_union, elem_of_singleton. tauto.
  - rewrite (expand_fn_support v Hout).
    assert (universe ∖ ({[v]} ∪ visited) = universe ∖ visited) as ->.
    { apply set_eq. intros x.
      rewrite !elem_of_difference, elem_of_union, elem_of_singleton.
      split; [tauto|]. intros [? ?]. split; [done|]. intros [->|?]; tauto. }
    simpl. lia.
Qed.

(** Without [repeat_visited] the depth-first loop ends on every finite
    graph: fuel above the stack height plus the pending edges is enough. *)
Lemma walk_depth_first_terminates (fuel : nat) :
  ∀ (stack : list node_id) (visited : gset node_id),
    length stack + pending_edges expand_fn universe visited < fuel →
    ∃ l, walk_depth_first expand_fn only_differentiable false walk_fn
                          fuel stack visited = Some l.
Proof.
  induction fuel as [|fuel IH]; intros stack visited Hfuel; [lia|].
  destruct stack as [|v stack]; [by eexists|].
  destruct (decide (v ∈ visited)) as [Hv|Hv].
  - rewrite walk_depth_first_skip by done. apply IH. simpl in Hfuel. lia.
  - rewrite walk_depth_first_visit by done.
    destruct (IH (rev (pushed expand_fn only_differentiable v) ++ stack)
                 ({[v]} ∪ visited)) as [l ->]; [|by eexists].
    rewrite length_app, length_rev.
    pose proof (pushed_length v). pose proof (pending_edges_visit v visited Hv).
    simpl in Hfuel. lia.
Qed.

End Termination.

(** Every depth-first [walk_parents] without [repeat_visited] is finite and
    yields no node twice. *)
Lemma walk_parents_finite (h : gmap node_id Tensor) (self : node_id)
    (only_differentiable : bool) :
  ∃ fuel l,
    walk_parents h fuel self true only_differentiable false id = Some l
    ∧ NoDup l.
Proof.
  assert (∀ v, v ∉ dom h → expand_parents h v = []) as Hsupport.
  { intros v Hv. unfold expand_parents. apply not_elem_of_dom in Hv.
    by rewrite Hv. }
  destruct (walk_depth_first_terminates (expand_parents h) only_differentiable
              id (dom h) Hsupport
              (S (1 + pending_edges (expand_parents h) (dom h) ∅))
              [self] ∅) as [l Hl].
  - simpl. lia.
  - exists (S (1 + pending_edges (expand_parents h) (dom h) ∅)), l.
    split; [exact Hl|]. by apply walk_depth_first_once in Hl as [? _].
Qed.

(** Membership of a node in a visited set written as a union of
    singletons. *)
Ltac visited_solver :=
  rewrite ?not_elem_of_union, ?elem_of_union, ?not_elem_of_singleton,
    ?elem_of_singleton;
  repeat split; first [ apply not_elem_of_empty | congruence | tauto ].

(** C6.  On the diamond A→B, A→C, B→D, C→D built by the constructors, the
    depth-first [walk_parents] from D, with [repeat_visited] off and all
    edges followed, yields D, C, A, B: the shared ancestor A once and each
    of the four nodes once.  The walk ends within six iterations of its
    loop, and every call, starting from an empty visited set, yields the
    same sequence.  On every store, a depth-first [walk_parents] with
    [repeat_visited] off ends and yields no node twice. *)
Theorem walk_parents_diamond (tA tB tC tD : torch_Tensor) (w : world) :
  ∃ w' a b c d,
    diamond has_backwards_path tA tB tC tD w = Some (w', (a, b, c, d))
    ∧ NoDup [a; b; c; d]
    ∧ fst <$> expand_parents (heap w') a = []
    ∧ fst <$> expand_parents (heap w') b = [a]
    ∧ fst <$> expand_parents (heap w') c = [a]
    ∧ fst <$> expand_parents (heap w') d = [b; c]
    ∧ (∀ fuel, 6 ≤ fuel →
         walk_parents (heap w') fuel d true false false id
         = Some [d; c; a; b]
         ∧ ∀ x, x ∈ [a; b; c; d] →
             length (filter (λ y, y = x) [d; c; a; b]) = 1)
    ∧ (∀ h self only_differentiable,
         ∃ fuel l,
           walk_parents h fuel self true only_differentiable false id = Some l
           ∧ NoDup l).
Proof.
  unfold diamond.
  destruct (new_Tensor_plain tA [] (Some "A") w)
    as (w1 & -> & Hn1 & HpA & HcA & _); [by intros ? ?%elem_of_nil|].
  set (a := next_id w) in *.
  destruct (new_Tensor_plain tB [a] (Some "B") w1)
    as (w2 & -> & Hn2 & HpB & HcB & H2).
  { by intros ? ->%list_elem_of_singleton. }
  rewrite Hn1 in *. set (b := S a) in *.
  assert (ref_is_cost (heap w2) a = false) as HcA2.
  { rewrite (ref_is_cost_forget (heap w1)); [done | apply H2; lia]. }
  destruct (new_Tensor_plain tC [a] (Some "C") w2)
    as (w3 & -> & Hn3 & HpC & HcC & H3).
  { by intros ? ->%list_elem_of_singleton. }
  rewrite Hn2 in *. set (c := S b) in *.
  assert (ref_is_cost (heap w3) b = false) as HcB3.
  { rewrite (ref_is_cost_forget (heap w2)); [done | apply H3; lia]. }
  destruct (new_Tensor_plain tD (@cons node_id b (@cons node_id c []))
              (Some "D") w3)
    as (w4 & -> & Hn4 & HpD & HcD & H4).
  { intros p [->|Hp%list_elem_of_singleton]%elem_of_cons; by subst. }
  rewrite Hn3 in *. set (d := S c) in *.
  assert (expand_parents (heap w4) a = []) as HeA.
  { rewrite (expand_parents_forget (heap w3)) by (apply H4; lia).
    rewrite (expand_parents_forget (heap w2)) by (apply H3; lia).
    rewrite (expand_parents_forget (heap w1)) by (apply H2; lia). done. }
  assert (expand_parents (heap w4) b = [(a, has_backwards_path b a)]) as HeB.
  { rewrite (expand_parents_forget (heap w3)) by (apply H4; lia).
    rewrite (expand_parents_forget (heap w2)) by (apply H3; lia). done. }
  assert (expand_parents (heap w4) c = [(a, has_backwards_path c a)]) as HeC.
  { rewrite (expand_parents_forget (heap w3)) by (apply H4; lia). done. }
  assert (a ≠ b ∧ a ≠ c ∧ a ≠ d ∧ b ≠ c ∧ b ≠ d ∧ c ≠ d)
    as (Hab & Hac & Had & Hbc & Hbd & Hcd) by (subst a b c d; lia).
  clearbody a b c d.
  exists w4, a, b, c, d. unfold node_id in *.
  split_and!; [done| |by rewrite ?HeA, ?HeB, ?HeC, ?HpD..| |];
    [| |apply walk_parents_finite].
  { repeat (apply NoDup_cons_2;
              [rewrite ?not_elem_of_cons; split_and?;
               first [done | apply not_elem_of_nil] |]).
    apply NoDup_nil_2. }
  intros fuel Hfuel. split.
  - replace fuel with (6 + (fuel - 6)) by lia.
    apply walk_depth_first_fuel. unfold walk_parents, Tensor_walk.
    rewrite walk_depth_first_visit by visited_solver.
    rewrite pushed_all, HpD. cbn -[walk_depth_first].
    rewrite walk_depth_first_visit by visited_solver.
    rewrite pushed_all, HeC. cbn -[walk_depth_first].
    rewrite walk_depth_first_visit by visited_solver.
    rewrite pushed_all, HeA. cbn -[walk_depth_first].
    rewrite walk_depth_first_visit by visited_solver.
    rewrite pushed_all, HeB. cbn -[walk_depth_first].
    rewrite walk_depth_first_skip by visited_solver. done.
  - intros x Hx. rewrite !elem_of_cons, elem_of_nil in Hx.
    rewrite !filter_cons, filter_nil.
    destruct Hx as [->|[->|[->|[->|[]]]]]; repeat case_decide;
      done || congruence.
Qed.

End Walks.

(** ** Boolean coercion *)

(** C10.  Coercing a node to a truth value raises the illegal-conditional
    error, whatever its class and the shape of its tensor; it never returns
    a truth value, and the error is none of the validation errors. *)
Theorem bool_coercion_is_illegal (self : Tensor) :
  Tensor__bool__ self = inl IllegalConditionalError
  ∧ (∀ b : bool, Tensor__bool__ self ≠ inr b)
  ∧ (∀ m : message, IllegalConditionalError ≠ ValueError m).
Proof. by split_and!. Qed.

(** ** Expected gradients *)

Section ExpectedGradProperties.

Variable torch_mean : torch_Tensor → list nat → torch_Tensor.

(** The entry computed for the accumulated gradient [grad] of the parameter
    [name]. *)
Lemma total_expected_grad_entries (distribution : gmap string torch_Tensor)
    (indices : list nat) (accum_grads : gmap string torch_Tensor) :
  (∀ name grad, accum_grads !! name = Some grad →
                is_Some (distribution !! name)) →
  ∃ r,
    map_fold (expected_grad_step torch_mean distribution indices) (inr ∅)
             accum_grads = inr r
    ∧ ∀ name,
        r !! name
        = grad ← accum_grads !! name;
          tensor ← distribution !! name;
          Some (if decide (dim grad = dim tensor) then grad
                else torch_mean grad indices).
Proof.
  apply (map_fold_weak_ind
    (λ res m,
       (∀ name grad, m !! name = Some grad → is_Some (distribution !! name)) →
       ∃ r, res = inr r
            ∧ ∀ name,
                r !! name
                = grad ← m !! name;
                  tensor ← distribution !! name;
                  Some (if decide (dim grad = dim tensor) then grad
                        else torch_mean grad indices))).
  - intros _. exists ∅. split; [done|]. intros name.
    by rewrite !lookup_empty.
  - intros name grad m res Hfresh IH Hparams.
    destruct IH as (r & -> & Hr).
    { intros name' grad' Hname'. apply (Hparams name' grad').
      rewrite lookup_insert_ne; [done|]. intros <-. congruence. }
    destruct (Hparams name grad) as [tensor Htensor].
    { by rewrite lookup_insert_eq. }
    simpl. rewrite Htensor.
    exists (<[name := if decide (dim grad = dim tensor) then grad
                      else torch_mean grad indices]> r).
    split.
    + destruct (Nat.eqb_spec (dim grad) (dim tensor));
        by destruct (decide (dim grad = dim tensor)).
    + intros name'. destruct (decide (name = name')) as [<-|Hne].
      * rewrite !lookup_insert_eq. simpl. by rewrite Htensor.
      * rewrite !lookup_insert_ne by done. apply Hr.
Qed.

(** C9.  For a stochastic node every accumulated gradient of which belongs
    to a parameter of the distribution, [total_expected_grad] returns a
    mapping with exactly the keys of the accumulated gradients; under the
    key [name] it holds the accumulated gradient itself when it has as many
    dimensions as the parameter [name], and otherwise its mean over the
    node's batch dimension indices [0 .. batch_len - 1]. *)
Theorem total_expected_grad_entrywise (self : Tensor) (n : Z)
    (distribution : gmap string torch_Tensor) (requires_grad : bool)
    (accum_grads : gmap string torch_Tensor) :
  kind self = Stochastic n distribution requires_grad accum_grads →
  (∀ name grad, accum_grads !! name = Some grad →
                is_Some (distribution !! name)) →
  ∃ r,
    total_expected_grad torch_mean self = inr r
    ∧ dom r = dom accum_grads
    ∧ batch_dim_indices self = seq 0 (batch_len self)
    ∧ ∀ name grad,
        accum_grads !! name = Some grad →
        ∃ tensor,
          distribution !! name = Some tensor
          ∧ (dim grad = dim tensor → r !! name = Some grad)
          ∧ (dim grad ≠ dim tensor →
             r !! name = Some (torch_mean grad (batch_dim_indices self))).
Proof.
  intros Hkind Hparams. unfold total_expected_grad. rewrite Hkind.
  destruct (total_expected_grad_entries distribution (batch_dim_indices self)
              accum_grads Hparams) as (r & -> & Hr).
  exists r. split_and!; [done| |done|].
  - apply set_eq. intros name. rewrite !elem_of_dom, Hr.
    destruct (accum_grads !! name) as [grad|] eqn:Hgrad; simpl.
    + destruct (Hparams _ _ Hgrad) as [tensor ->]. simpl.
      split; by eexists.
    + split; by intros [? ?].
  - intros name grad Hgrad. destruct (Hparams _ _ Hgrad) as [tensor Htensor].
    exists tensor. split; [done|]. rewrite Hr, Hgrad. simpl.
    rewrite Htensor. simpl. split; intros ?; by destruct (decide _).
Qed.

End ExpectedGradProperties.

(** ** Baselines *)

Section MovingAverage.

Import MovingAverageBaseline.

Variable reduce_plates : Tensor → float.

(** One call: the decay rate is kept, the new average is stored and
    returned. *)
Lemma compute_baseline_step (self : MovingAverageBaseline.t)
    (tensor cost_node : Tensor) :
  ∃ self' b,
    compute_baseline reduce_plates self tensor cost_node = (self', b)
    ∧ exponential_decay self' = exponential_decay self
    ∧ moving_average self' = b
    ∧ b = add32 (mul32 (exponential_decay self) (moving_average self))
                (mul32 (sub32 (Finite 1) (exponential_decay self))
                       (reduce_plates cost_node)).
Proof. by eexists _, _. Qed.

Lemma last_cons_default {A : Type} (l : list A) :
  ∀ x d : A, List.last (x :: l) d = List.last l x.
Proof.
  induction l as [|y l IH]; intros x d; [done|].
  change (List.last (y :: l) d = List.last (y :: l) x). by rewrite !IH.
Qed.

(** Any number of calls: the decay rate is the one the object was built
    with, and the stored average is the value returned last. *)
Lemma calls_state (tensor : Tensor) (cost_nodes : list Tensor) :
  ∀ self : MovingAverageBaseline.t,
    exponential_decay (fst (calls reduce_plates self tensor cost_nodes))
    = exponential_decay self
    ∧ moving_average (fst (calls reduce_plates self tensor cost_nodes))
      = List.last (snd (calls reduce_plates self tensor cost_nodes))
                  (moving_average self).
Proof.
  induction cost_nodes as [|cost_node rest IH]; intros self; [done|].
  cbn [calls compute_baseline].
  specialize (IH (mk (exponential_decay self)
    (add32 (mul32 (exponential_decay self) (moving_average self))
           (mul32 (sub32 (Finite 1) (exponential_decay self))
                  (reduce_plates cost_node))))).
  destruct (calls _ _ _ rest) as [self' bs]. cbn [fst snd] in *.
  destruct IH as [Hdecay Haverage]. split; [done|].
  by rewrite last_cons_default.
Qed.

(** C7 (as amended).  Each call of the moving-average baseline keeps the
    decay rate, replaces the stored average by
    [decay * old_average + (1 - decay) * reduced_cost], every operation
    rounded to float32, and returns it; over any sequence of calls the
    object keeps its decay rate and holds the value returned last.  With
    the decay rate 0.9, which is stored as 7549747/8388608, the initial
    average 0.0 and the reduced costs 10 and 20, two successive calls
    return 4194305/4194304 and then 3040871/1048576, which lie within
    1/1000000 of 1 and of 2.9. *)
Theorem moving_average_baseline (self : MovingAverageBaseline.t)
    (tensor cost_node c1 c2 : Tensor) (cost_nodes : list Tensor) :
  (∃ self' b,
     compute_baseline reduce_plates self tensor cost_node = (self', b)
     ∧ exponential_decay self' = exponential_decay self
     ∧ moving_average self' = b
     ∧ b = add32 (mul32 (exponential_decay self) (moving_average self))
                 (mul32 (sub32 (Finite 1) (exponential_decay self))
                        (reduce_plates cost_node)))
  ∧ (exponential_decay (fst (calls reduce_plates self tensor cost_nodes))
     = exponential_decay self
     ∧ moving_average (fst (calls reduce_plates self tensor cost_nodes))
       = List.last (snd (calls reduce_plates self tensor cost_nodes))
                   (moving_average self))
  ∧ (reduce_plates c1 = Finite 10 → reduce_plates c2 = Finite 20 →
     ∃ self',
       calls reduce_plates (__init__ (python_float (9 # 10))) tensor [c1; c2]
       = (self', [Finite (4194305 # 4194304); Finite (3040871 # 1048576)])
       ∧ moving_average self' = Finite (3040871 # 1048576)
       ∧ exponential_decay self' = Finite (7549747 # 8388608)
       ∧ (Qabs ((4194305 # 4194304) - 1) <= 1 # 1000000)%Q
       ∧ (Qabs ((3040871 # 1048576) - (29 # 10)) <= 1 # 1000000)%Q).
Proof.
  split; [|split].
  - apply compute_baseline_step.
  - apply calls_state.
  - intros H1 H2. cbn [calls compute_baseline]. rewrite H1, H2.
    eexists. split; [vm_compute; reflexivity|].
    split_and!; [reflexivity..| |]; vm_compute; discriminate.
Qed.

End MovingAverage.

Section BatchAverage.

Import BatchAverageBaseline.

(** Removing one entry from the costs removes it from their sum. *)
Lemma storch_sum_delete (costs : list Q) :
  ∀ (i : nat) (c : Q),
    costs !! i = Some c →
    (storch_sum (delete i costs) == storch_sum costs - c)%Q.
Proof.
  induction costs as [|c0 costs IH]; intros [|i] c Hi; try done.
  - simpl in *. injection Hi as ->. unfold storch_sum. simpl. ring.
  - simpl in *. specialize (IH i c Hi). unfold storch_sum in *. simpl.
    rewrite IH. ring.
Qed.

(** C8.  For a stochastic node with sample count [n], the batch-average
    baseline raises (the single-sample error) exactly when [n] is 1.
    Otherwise it returns one entry per cost along the sampling plate, the
    entry for a cost [c] being [(sum_over_plate(costs) - c) / (n - 1)]; when
    the plate holds [n] costs this is the mean of the other [n - 1] costs.
    Costs 1, 2, 3 along a plate of size 3 give 2.5, 2, 1.5. *)
Theorem batch_average_baseline (tensor : Tensor) (costs : list Q) (n : Z)
    (distribution : gmap string torch_Tensor) (requires_grad : bool)
    (accum_grads : gmap string torch_Tensor) :
  kind tensor = Stochastic n distribution requires_grad accum_grads →
  ((∃ e, compute_baseline tensor costs = inl e) ↔ n = 1%Z)
  ∧ (n = 1%Z →
     compute_baseline tensor costs = inl (ValueError SingleSampleBatchAverage))
  ∧ (n ≠ 1%Z →
     ∃ baseline,
       compute_baseline tensor costs = inr baseline
       ∧ length baseline = length costs
       ∧ ∀ i c,
           costs !! i = Some c →
           ∃ b,
             baseline !! i = Some b
             ∧ b = ((storch_sum costs - c) / inject_Z (n - 1))%Q
             ∧ (Z.of_nat (length costs) = n →
                (b == storch_sum (delete i costs)
                      / inject_Z (Z.of_nat (length (delete i costs))))%Q))
  ∧ (n = 3%Z →
     ∃ baseline,
       compute_baseline tensor [1; 2; 3]%Q = inr baseline
       ∧ Forall2 Qeq baseline [5 # 2; 2; 3 # 2]%Q).
Proof.
  intros Hkind. unfold compute_baseline, attr_n. rewrite Hkind.
  destruct (Z.eqb_spec n 1) as [->|Hn].
  - split_and!; try done. split; [done | by eexists].
  - split_and!; try done.
    + split; [by intros [? [=]] | done].
    + intros _. eexists. split; [done|]. split; [by rewrite length_fmap|].
      intros i c Hi. eexists. split; [by rewrite list_lookup_fmap, Hi|].
      split; [done|]. intros Hlen.
      rewrite storch_sum_delete by done.
      rewrite length_delete by done.
      apply lookup_lt_Some in Hi.
      replace (Z.of_nat (length costs - 1)) with (n - 1)%Z by lia.
      reflexivity.
    + intros ->. eexists. split; [reflexivity|]. cbn [fmap list_fmap].
      repeat (constructor; [vm_compute; reflexivity|]). constructor.
Qed.

End BatchAverage.

(** * Concrete instances *)

(** C2 (the claim as stated fails).  A tensor of shape [2; 2] matches the
    sizes of the plates [("a", 2); ("a", 2)], yet the construction fails on
    the repeated name; and a scalar tensor matches the empty plate list, yet
    the construction fails when a parent is a cost node. *)
Lemma matching_node_construction_needs_valid_input :
  (shape (mk_torch [2; 2]%Z []) = plate_dims [("a", 2%Z); ("a", 2%Z)] ++ []
   ∧ snd (new_Tensor every_edge (mk_torch [2; 2]%Z []) []
                     [("a", 2%Z); ("a", 2%Z)] None (empty_world true))
     = inl (ValueError (TwoInstancesOfPlate "a")))
  ∧ (let w := fst (new_DeterministicTensor every_edge scalar [] [] true
                                           (Some "loss") (empty_world true)) in
     shape scalar = plate_dims [] ++ []
     ∧ snd (new_Tensor every_edge scalar [0] [] None w)
       = inl (ValueError CostNodesCannotHaveChildren)).
Proof. split; split; reflexivity. Qed.

Lemma matching_node_construction_witness :
  ∃ w' node,
    Tensor__init__ every_edge 0 (mk_torch [3; 2; 5]%Z []) []
                   [("batch", 3%Z); ("one", 1%Z); ("z", 2%Z)] None BaseTensor
                   (empty_world true)
    = (w', inr ())
    ∧ heap w' !! 0 = Some node
    ∧ batch_len node = 2
    ∧ event_shape node = [5%Z].
Proof.
  destruct (matching_node_construction every_edge 0
              (mk_torch [3; 2; 5]%Z []) []
              [("batch", 3%Z); ("one", 1%Z); ("z", 2%Z)] None BaseTensor
              (empty_world true) [5%Z])
    as (w' & node & Hinit & Hself & _ & Hlen & _ & _ & Hevent & _).
  - apply (bool_decide_unpack _). vm_compute. exact I.
  - repeat constructor; simpl; lia.
  - reflexivity.
  - intros (p & t & Hp & _). by apply elem_of_nil in Hp.
  - exists w', node. by split_and!.
Defined.

(** C3 (the claim as stated fails).  A plate of size 0 over a tensor of
    shape [3] makes the construction fail with the mismatch error, and a
    cost node among the parents makes it fail with the cost-parent error,
    both structural-validation errors, although no plate name occurs twice
    and no plate of size greater than 1 finds its dimension missing or
    different. *)
Lemma plate_validation_errors_other_causes :
  (let r := snd (Tensor__init__ every_edge 0 (mk_torch [3%Z] []) []
                                [("a", 0%Z)] None BaseTensor
                                (empty_world true)) in
   r = inl (ValueError (PlateViolated 0 "a" 0 3 [("a", 0%Z)] [3%Z]))
   ∧ structural_validation_error
       (ValueError (PlateViolated 0 "a" 0 3 [("a", 0%Z)] [3%Z]))
   ∧ ¬ ((∃ plate_name, duplicate_plate [("a", 0%Z)] plate_name)
        ∨ (∃ i, plate_mismatch [3%Z] [("a", 0%Z)] i)))
  ∧ (let r := snd (Tensor__init__ every_edge 2 scalar [1] [] None BaseTensor
                                  with_cost) in
     r = inl (ValueError CostNodesCannotHaveChildren)
     ∧ structural_validation_error (ValueError CostNodesCannotHaveChildren)
     ∧ ¬ ((∃ plate_name, duplicate_plate [] plate_name)
          ∨ (∃ i, plate_mismatch (shape scalar) [] i))).
Proof.
  split; (split; [reflexivity|]); (split; [exact I|]).
  - intros [(plate_name & i & j & Hij & Hi & Hj)
           |(i & plate_name & n & Hi & Hn & _)].
    + apply lookup_lt_Some in Hj. simpl in Hj. lia.
    + destruct i; [|done]. injection Hi as _ <-. lia.
  - intros [(plate_name & i & j & Hij & Hi & Hj)
           |(i & plate_name & n & Hi & _)]; done.
Qed.

Lemma plate_validation_errors_witness :
  (∃ e,
     snd (Tensor__init__ every_edge 0 (mk_torch [2; 2]%Z []) []
                         [("a", 2%Z); ("a", 2%Z)] None BaseTensor
                         (empty_world true))
     = inl e ∧ structural_validation_error e)
  ↔ ((∃ plate_name, duplicate_plate [("a", 2%Z); ("a", 2%Z)] plate_name)
     ∨ (∃ i, plate_mismatch [2; 2]%Z [("a", 2%Z); ("a", 2%Z)] i))
    ∨ cost_parent (heap (empty_world true)) [].
Proof.
  refine (proj1 (plate_validation_errors every_edge 0
                   (mk_torch [2; 2]%Z []) [] [("a", 2%Z); ("a", 2%Z)]
                   None BaseTensor (empty_world true) _)).
  repeat constructor; simpl; lia.
Defined.

(** C4 (the claim as stated fails).  With gradient tracking disabled, a
    cost-flagged deterministic node without a name is constructed, and is
    not registered.  An independent node over a scalar tensor with a cost
    node as parent fails on the missing first dimension of the tensor, not
    with a validation error. *)
Lemma cost_node_misuse_unguarded :
  (∃ w' node,
     new_DeterministicTensor every_edge scalar [] [] true None
                             (empty_world false)
     = (w', inr 0)
     ∧ heap w' !! 0 = Some node
     ∧ is_cost node = true ∧ _name node = None
     ∧ _cost_tensors w' = [])
  ∧ (let w := fst (new_DeterministicTensor every_edge scalar [] [] true
                                           (Some "loss") (empty_world true)) in
     cost_parent (heap w) [0]
     ∧ snd (new_IndependentTensor every_edge scalar [0] [] "batch" w)
       = inl IndexError
     ∧ ¬ structural_validation_error IndexError).
Proof.
  split.
  - eexists _, _. split; [reflexivity|]. split; [apply lookup_insert_eq|].
    done.
  - split; [|split; [reflexivity | by intros []]].
    eexists 0, _. split; [apply list_elem_of_here|].
    split; [apply lookup_insert_eq | reflexivity].
Qed.

Lemma cost_node_misuse_witness :
  let w := fst (new_DeterministicTensor every_edge scalar [] [] true
                                        (Some "loss") (empty_world true)) in
  (∃ w' e,
     Tensor__init__ every_edge 1 scalar [0] [] None BaseTensor w = (w', inl e)
     ∧ structural_validation_error e)
  ∧ (∃ w' e,
       DeterministicTensor__init__ every_edge 1 scalar [] [] true None w
       = (w', inl e)
       ∧ (structural_validation_error e ∨ e = ValueError CostNodeWithoutName)).
Proof.
  intros w. split.
  - destruct (cost_node_misuse every_edge 1 scalar [0] [] true None "z" ∅
                true 2 w) as [Hparent _].
    destruct Hparent as [Hbase _]; [|exact (Hbase BaseTensor)].
    eexists 0, _. split; [apply list_elem_of_here|].
    split; [vm_compute; reflexivity | reflexivity].
  - destruct (cost_node_misuse every_edge 1 scalar [] [] true None "z" ∅
                true 2 w) as [_ Hname].
    destruct Hname as (w' & e & Hinit & He & _); [reflexivity..|].
    by exists w', e.
Defined.

(** C5 (the claim as stated fails).  The sample name "z" does not occur in
    the plates of the existing node, yet the stochastic node over a tensor
    of shape [2] with 3 samples is rejected by the base constructor; and an
    independent node over a scalar tensor fails on the missing first
    dimension, not on the name that is in use. *)
Lemma plate_introduction_may_fail :
  let w := fst (new_Tensor every_edge scalar [] [] (Some "n")
                           (empty_world true)) in
  (∃ n, heap w !! 0 = Some n ∧ batch_links n = []
        ∧ ("z" ∉ plate_names (batch_links n))
        ∧ snd (new_StochasticTensor every_edge (mk_torch [2%Z] []) [0]
                                    (batch_links n) ∅ true 3 "z" w)
          = inl (ValueError (PlateViolated 0 "z" 3 2 [("z", 3%Z)] [2%Z])))
  ∧ ("batch" ∈ plate_names [("batch", 3%Z)]
     ∧ snd (new_IndependentTensor every_edge scalar [] [("batch", 3%Z)]
                                  "batch" (empty_world true))
       = inl IndexError).
Proof.
  intros w. split.
  - eexists. split; [apply lookup_insert_eq|]. split; [done|].
    split; [apply not_elem_of_nil | reflexivity].
  - split; [apply list_elem_of_here | reflexivity].
Qed.

Lemma plate_introduction_witness :
  ∃ w' node,
    StochasticTensor__init__ every_edge 0 (mk_torch [2; 3]%Z []) []
                             [("batch", 3%Z)] ∅ true 2 "z" (empty_world true)
    = (w', inr ())
    ∧ heap w' !! 0 = Some node
    ∧ batch_links node = [("z", 2%Z); ("batch", 3%Z)].
Proof.
  destruct (plate_introduction every_edge 0 (mk_torch [2; 3]%Z []) []
              [("batch", 3%Z)] ∅ true 2 "z" (empty_world true))
    as [_ Hfree].
  destruct Hfree as (_ & _ & Hreturns & _).
  - intros Hin. apply list_elem_of_singleton in Hin. discriminate Hin.
  - apply (Hreturns []).
    + apply (bool_decide_unpack _). vm_compute. exact I.
    + repeat constructor; simpl; lia.
    + reflexivity.
    + intros (p & t & Hp & _). by apply elem_of_nil in Hp.
Defined.

Lemma walk_parents_diamond_witness :
  ∃ w' a b c d,
    diamond every_edge scalar scalar scalar scalar (empty_world true)
    = Some (w', (a, b, c, d))
    ∧ walk_parents (heap w') 6 d true false false id = Some [d; c; a; b].
Proof.
  destruct (walk_parents_diamond every_edge scalar scalar scalar scalar
              (empty_world true))
    as (w' & a & b & c & d & Hdiamond & _ & _ & _ & _ & _ & Hwalk & _).
  exists w', a, b, c, d. split; [exact Hdiamond|].
  apply (Hwalk 6). lia.
Defined.

(** C7 (the claim as stated fails).  With the decay rate 0.9, the initial
    average 0.0 and the reduced costs 10 and 20, the two calls return
    4194305/4194304 and 3040871/1048576: the first is not 1, and the second
    is neither 2.9 nor the float32 nearest to 2.9. *)
Lemma moving_average_baseline_is_rounded :
  snd (MovingAverageBaseline.calls first_entry
         (MovingAverageBaseline.__init__ (python_float (9 # 10)))
         (sample_node 3 ∅ ∅) [cost_of 10; cost_of 20])
  = [Finite (4194305 # 4194304); Finite (3040871 # 1048576)]
  ∧ ¬ (4194305 # 4194304 == 1)%Q
  ∧ ¬ (3040871 # 1048576 == 29 # 10)%Q
  ∧ binary32 (29 # 10) = Finite (6081741 # 2097152)
  ∧ ¬ (3040871 # 1048576 == 6081741 # 2097152)%Q.
Proof.
  split; [vm_compute; reflexivity|].
  split_and!; [| |vm_compute; reflexivity|]; vm_compute; discriminate.
Qed.

Lemma moving_average_baseline_witness :
  ∃ self',
    MovingAverageBaseline.calls first_entry
      (MovingAverageBaseline.__init__ (python_float (9 # 10)))
      (sample_node 3 ∅ ∅) [cost_of 10; cost_of 20]
    = (self', [Finite (4194305 # 4194304); Finite (3040871 # 1048576)])
    ∧ MovingAverageBaseline.exponential_decay self'
      = Finite (7549747 # 8388608).
Proof.
  destruct (moving_average_baseline first_entry
              (MovingAverageBaseline.__init__ (python_float (9 # 10)))
              (sample_node 3 ∅ ∅) (cost_of 10) (cost_of 10) (cost_of 20) [])
    as (_ & _ & Hexample).
  destruct Hexample as (self' & Hcalls & _ & Hdecay & _);
    [vm_compute; reflexivity..|].
  exists self'. split; [exact Hcalls | exact Hdecay].
Defined.

Lemma batch_average_baseline_witness :
  ∃ baseline,
    BatchAverageBaseline.compute_baseline (sample_node 3 ∅ ∅) [1; 2; 3]%Q
    = inr baseline
    ∧ Forall2 Qeq baseline [5 # 2; 2; 3 # 2]%Q.
Proof.
  destruct (batch_average_baseline (sample_node 3 ∅ ∅) [1; 2; 3]%Q 3 ∅ true ∅)
    as (_ & _ & _ & Hexample); [reflexivity|].
  apply Hexample. reflexivity.
Defined.

Lemma total_expected_grad_entrywise_witness :
  let loc := mk_torch [2%Z] [] in
  let grad := mk_torch [3%Z; 2%Z] [] in
  ∃ r,
    total_expected_grad mean_shape
      (sample_node 3 {["loc" := loc]} {["loc" := grad]}) = inr r
    ∧ r !! "loc" = Some (mean_shape grad [0]).
Proof.
  intros loc grad.
  destruct (total_expected_grad_entrywise mean_shape
              (sample_node 3 {["loc" := loc]} {["loc" := grad]}) 3
              {["loc" := loc]} true {["loc" := grad]})
    as (r & Hr & _ & _ & Hentries).
  - reflexivity.
  - intros name g [<- _]%lookup_singleton_Some.
    rewrite lookup_singleton_eq. by eexists.
  - exists r. split; [exact Hr|].
    destruct (Hentries "loc" grad) as (tensor & Htensor & _ & Hmean).
    + apply lookup_singleton_eq.
    + rewrite lookup_singleton_eq in Htensor. injection Htensor as <-.
      apply Hmean. vm_compute. lia.
Defined.
(** * Further properties *)

(** ** Effects of the constructors on the store *)

Section StoreEffects.

Variable has_backwards_path : node_id → node_id → bool.

Lemma occurrences_cons (x p : node_id) (l : list node_id) :
  occurrences x (p :: l)
  = (if decide (p = x) then S (occurrences x l) else occurrences x l).
Proof. unfold occurrences. rewrite filter_cons. by destruct (decide _). Qed.

Lemma add_children_0 (self : node_id) (d : bool) (t : Tensor) :
  add_children self d 0 t = t.
Proof. destruct t. unfold add_children. simpl. by rewrite app_nil_r. Qed.

Lemma add_children_S (self : node_id) (d : bool) (k : nat) (t : Tensor) :
  add_children self d k (add_child self d t) = add_children self d (S k) t.
Proof. unfold add_children, add_child. simpl. by rewrite <-app_assoc. Qed.

Lemma linked_parents_alter (self q : node_id) (d : bool)
    (h : gmap node_id Tensor) (parents : list node_id) :
  linked_parents (alter (add_child self d) q h) parents
  = linked_parents h parents.
Proof.
  induction parents as [|p rest IH]; [done|]. simpl. rewrite IH.
  destruct (decide (q = p)) as [->|Hne].
  - rewrite lookup_alter_eq. by destruct (h !! p).
  - by rewrite lookup_alter_ne.
Qed.

(** The store after the parent loop: every parent the loop got through has
    the new node appended to its children, once per occurrence. *)
Lemma link_parents_heap (self : node_id) (parents : list node_id) :
  ∀ (acc : list (node_id * bool)) (h h' : gmap node_id Tensor)
    (r : exn + list (node_id * bool)) (x : node_id),
    link_parents has_backwards_path self parents acc h = (h', r) →
    h' !! x
    = add_children self (has_backwards_path self x)
                   (occurrences x (linked_parents h parents)) <$> h !! x.
Proof.
  induction parents as [|p rest IH]; intros acc h h' r x; simpl.
  - intros [= <- _]. destruct (h !! x); [|done]. simpl.
    by rewrite add_children_0.
  - unfold ref_is_cost. destruct (h !! p) as [t|] eqn:Hp.
    + destruct (is_cost t).
      * intros [= <- _]. destruct (h !! x); [|done]. simpl.
        by rewrite add_children_0.
      * intros ->%(IH _ _ _ _ x). rewrite linked_parents_alter.
        rewrite occurrences_cons. destruct (decide (p = x)) as [->|Hne].
        -- rewrite lookup_alter_eq, Hp. simpl. by rewrite add_children_S.
        -- by rewrite lookup_alter_ne.
    + intros ->%(IH _ _ _ _ x). rewrite linked_parents_alter.
      rewrite occurrences_cons. destruct (decide (p = x)) as [->|Hne].
      * by rewrite lookup_alter_eq, Hp.
      * by rewrite lookup_alter_ne.
Qed.

(** The loop raises exactly when it does not get through all parents. *)
Lemma link_parents_result (self : node_id) (parents : list node_id) :
  ∀ (acc : list (node_id * bool)) (h : gmap node_id Tensor),
    snd (link_parents has_backwards_path self parents acc h)
    = if decide (linked_parents h parents = parents)
      then inr (acc ++ ((λ p, (p, has_backwards_path self p)) <$> parents))
      else inl (ValueError CostNodesCannotHaveChildren).
Proof.
  induction parents as [|p rest IH]; intros acc h; simpl.
  - by rewrite app_nil_r.
  - unfold ref_is_cost. destruct (h !! p) as [t|] eqn:Hp.
    + destruct (is_cost t); [done|].
      rewrite IH, linked_parents_alter, <-app_assoc. simpl.
      destruct (decide (linked_parents h rest = rest)) as [->|Hne].
      * by rewrite decide_True.
      * rewrite decide_False; [done|]. by intros [= ?].
    + rewrite IH, linked_parents_alter, <-app_assoc. simpl.
      destruct (decide (linked_parents h rest = rest)) as [->|Hne].
      * by rewrite decide_True.
      * rewrite decide_False; [done|]. by intros [= ?].
Qed.

(** The whole effect of [Tensor.__init__] on the store, by outcome. *)
Lemma Tensor__init__effect (self : node_id) (tensor : torch_Tensor)
    (parents : list node_id) (links : list Plate) (name : option string)
    (k : variant) (w w' : world) (r : exn + unit) :
  Tensor__init__ has_backwards_path self tensor parents links name k w
  = (w', r) →
  next_id w' = next_id w
  ∧ _cost_tensors w' = _cost_tensors w
  ∧ grad_enabled w' = grad_enabled w
  ∧ match r with
    | inr _ =>
        linked_parents (heap w) parents = parents
        ∧ ∃ bl,
            check_batch_links (shape tensor) links ∅ 0 links = inr bl
            ∧ heap w' !! self
              = Some (mk_Tensor name tensor
                        ((λ p, (p, has_backwards_path self p)) <$> parents)
                        [] bl (drop bl (shape tensor)) links k)
            ∧ ∀ x, x ≠ self →
                heap w' !! x
                = add_children self (has_backwards_path self x)
                               (occurrences x parents) <$> heap w !! x
    | inl (ValueError CostNodesCannotHaveChildren) =>
        linked_parents (heap w) parents ≠ parents
        ∧ ∀ x,
            heap w' !! x
            = add_children self (has_backwards_path self x)
                (occurrences x (linked_parents (heap w) parents))
              <$> heap w !! x
    | inl e =>
        w' = w ∧ check_batch_links (shape tensor) links ∅ 0 links = inl e
    end.
Proof.
  unfold Tensor__init__.
  destruct (check_batch_links _ _ _ _ _) as [e|bl] eqn:Hcheck.
  - intros [= <- <-]. split_and!; try done.
    apply check_batch_links_raises in Hcheck.
    by destruct e as [[]| | |].
  - destruct (link_parents _ _ _ _ _) as [h r'] eqn:Hlink.
    pose proof (link_parents_result self parents [] (heap w)) as Hres.
    rewrite Hlink in Hres. simpl in Hres.
    destruct (decide (linked_parents (heap w) parents = parents))
      as [Hall|Hsome]; subst r'.
    + intros [= <- <-]. split_and!; try done. exists bl.
      split_and!; try done; simpl.
      * by rewrite lookup_insert_eq.
      * intros x Hx. rewrite lookup_insert_ne by done.
        rewrite (link_parents_heap _ _ _ _ _ _ x Hlink). by rewrite Hall.
    + intros [= <- <-]. split_and!; try done. simpl. intros x.
      by rewrite (link_parents_heap _ _ _ _ _ _ x Hlink).
Qed.

End StoreEffects.

Section StoreProperties.

Variable has_backwards_path : node_id → node_id → bool.

Lemma occurrences_none (x : node_id) (l : list node_id) :
  x ∉ l → occurrences x l = 0.
Proof.
  unfold occurrences. induction l as [|p l IH]; [done|].
  intros [Hne Hl]%not_elem_of_cons. rewrite filter_cons.
  destruct (decide (p = x)); [congruence | by apply IH].
Qed.

Lemma occurrences_some (x : node_id) (l : list node_id) :
  occurrences x l ≠ 0 → x ∈ l.
Proof.
  intros Hocc. destruct (decide (x ∈ l)) as [|Hout]; [done|].
  by rewrite occurrences_none in Hocc.
Qed.

Lemma linked_parents_subseteq (h : gmap node_id Tensor)
    (parents : list node_id) (x : node_id) :
  x ∈ linked_parents h parents → x ∈ parents.
Proof.
  induction parents as [|p rest IH]; simpl; [done|].
  destruct (h !! p) as [t|]; [destruct (is_cost t)|].
  - by intros ?%elem_of_nil.
  - intros [->|?]%elem_of_cons; [left | right; by apply IH].
  - intros [->|?]%elem_of_cons; [left | right; by apply IH].
Qed.

(** X1.  When the base constructor, called over stored parents, returns,
    the new node holds its parents in the order given, each with the flag
    of [has_backwards_path], and has no children; every parent has gained
    the new node as a child, with the same flag, appended once per
    occurrence among the parents and changed in nothing else; nodes that
    are not parents are untouched. *)
Theorem construction_records_edges (self : node_id) (tensor : torch_Tensor)
    (parents : list node_id) (links : list Plate) (name : option string)
    (k : variant) (w w' : world) :
  Forall (stored (heap w)) parents →
  Tensor__init__ has_backwards_path self tensor parents links name k w
  = (w', inr ()) →
  ∃ node,
    heap w' !! self = Some node
    ∧ _parents node = (λ p, (p, has_backwards_path self p)) <$> parents
    ∧ _children node = []
    ∧ (∀ p t, p ≠ self → heap w !! p = Some t →
         ∃ t', heap w' !! p = Some t'
               ∧ _children t'
                 = _children t
                   ++ replicate (occurrences p parents)
                                (self, has_backwards_path self p)
               ∧ forget_children t' = forget_children t)
    ∧ (∀ x, x ≠ self → x ∉ parents → heap w' !! x = heap w !! x).
Proof.
  intros _ Hinit. apply Tensor__init__effect in Hinit
    as (_ & _ & _ & _ & bl & _ & Hself & Hothers).
  eexists. split; [exact Hself|]. split_and!; try done.
  - intros p t Hp Ht. rewrite (Hothers p Hp), Ht. by eexists.
  - intros x Hx Hout. rewrite (Hothers x Hx), occurrences_none by done.
    destruct (heap w !! x); [|done]. simpl. by rewrite add_children_0.
Qed.

(** X2.  A construction that raises before it reads its parents leaves
    the whole world as before.  This holds for the base constructor on
    every exception but the cost-parent error; for the deterministic
    constructor on every exception but that error and the missing-name
    error; for the independent constructor on the [IndexError] of a tensor
    without dimensions and on a plate name in use; for the stochastic
    constructor on a plate name in use.  (The failures of the base
    validation inside the independent and the stochastic constructor come
    after [batch_links.insert] and are not covered.) *)
Theorem validation_failure_leaves_world (self : node_id)
    (tensor : torch_Tensor) (parents : list node_id) (links : list Plate)
    (name : option string) (plate_name : string) (cost : bool)
    (distribution : gmap string torch_Tensor) (requires_grad : bool) (n : Z)
    (k : variant) (w w' : world) (e : exn) :
  (e ≠ ValueError CostNodesCannotHaveChildren →
   Tensor__init__ has_backwards_path self tensor parents links name k w
   = (w', inl e) → w' = w)
  ∧ (e ≠ ValueError CostNodesCannotHaveChildren →
     e ≠ ValueError CostNodeWithoutName →
     DeterministicTensor__init__ has_backwards_path self tensor parents links
                                 cost name w = (w', inl e) → w' = w)
  ∧ (e = IndexError ∨ e = ValueError (IndependentNameInUse plate_name) →
     IndependentTensor__init__ has_backwards_path self tensor parents links
                               plate_name w = (w', inl e) → w' = w)
  ∧ (e = ValueError (StochasticNameInUse plate_name) →
     StochasticTensor__init__ has_backwards_path self tensor parents links
                              distribution requires_grad n plate_name w
     = (w', inl e) → w' = w).
Proof.
  assert (Hbase : ∀ links' name' k',
    e ≠ ValueError CostNodesCannotHaveChildren →
    Tensor__init__ has_backwards_path self tensor parents links' name' k' w
    = (w', inl e) → w' = w).
  { intros links' name' k' He Hinit.
    apply Tensor__init__effect in Hinit as (_ & _ & _ & Heffect).
    by destruct e as [[]| | |]; destruct Heffect. }
  split_and!.
  - apply Hbase.
  - intros He Hname. unfold DeterministicTensor__init__.
    destruct (Tensor__init__ _ _ _ _ _ _ _ _) as [w1 [e1|[]]] eqn:Hinit.
    + intros [= <- <-]. by eapply Hbase.
    + destruct (_ && _); [|done]. destruct (negb _); [|done].
      intros [= _ <-]. done.
  - intros He. unfold IndependentTensor__init__.
    destruct (shape tensor); [by intros [= <- _]|].
    destruct (name_in_use _ _); [by intros [= <- _]|].
    apply Hbase. destruct He as [He|He]; by rewrite He.
  - intros ->. unfold StochasticTensor__init__.
    destruct (name_in_use _ _); [by intros [= <-]|]. by apply Hbase.
Qed.

(** X3.  When the base constructor, called over stored parents, fails on a
    cost node among them, the parents listed before that cost node keep the
    failed node among their children: each has it appended once per
    occurrence, while the failed node itself is not stored and no other
    field of any node, the registry and the allocation counter change. *)
Theorem cost_parent_failure_leaves_children (self : node_id)
    (tensor : torch_Tensor) (parents : list node_id) (links : list Plate)
    (name : option string) (k : variant) (w w' : world) :
  heap w !! self = None → Forall (stored (heap w)) parents →
  Tensor__init__ has_backwards_path self tensor parents links name k w
  = (w', inl (ValueError CostNodesCannotHaveChildren)) →
  heap w' !! self = None
  ∧ next_id w' = next_id w
  ∧ _cost_tensors w' = _cost_tensors w
  ∧ (∃ before c after,
       parents = before ++ c :: after
       ∧ ref_is_cost (heap w) c = true
       ∧ linked_parents (heap w) parents = before)
  ∧ ∀ p t,
      heap w !! p = Some t →
      ∃ t',
        heap w' !! p = Some t'
        ∧ _children t'
          = _children t
            ++ replicate (occurrences p (linked_parents (heap w) parents))
                         (self, has_backwards_path self p)
        ∧ forget_children t' = forget_children t.
Proof.
  intros Hfresh _ Hinit. apply Tensor__init__effect in Hinit
    as (Hnext & Hreg & _ & Hsome & Hheap).
  split_and!; try done.
  - by rewrite Hheap, Hfresh.
  - clear -Hsome. induction parents as [|p rest IH]; [done|].
    simpl in *. unfold ref_is_cost.
    destruct (heap w !! p) as [t|] eqn:Hp.
    + destruct (is_cost t) eqn:Hcost.
      * exists [], p, rest. unfold ref_is_cost. by rewrite Hp.
      * destruct IH as (before & c & after & -> & Hc & Hlinked);
          [congruence|].
        exists (p :: before), c, after. by rewrite Hlinked.
    + destruct IH as (before & c & after & -> & Hc & Hlinked); [congruence|].
      exists (p :: before), c, after. by rewrite Hlinked.
  - intros p t Ht. rewrite Hheap, Ht. by eexists.
Qed.

End StoreProperties.

Section StoreInvariant.

Variable has_backwards_path : node_id → node_id → bool.

Lemma node_consistent_add_children (self : node_id) (d : bool) (k : nat)
    (t : Tensor) :
  node_consistent (add_children self d k t) ↔ node_consistent t.
Proof. done. Qed.

Lemma store_consistent_new (w : world) :
  store_consistent w → store_consistent (snd (Tensor__new__ w)).
Proof.
  intros [Hheap Hreg]. split; [|done]. simpl. intros x t Hx.
  destruct (Hheap x t Hx) as (Hlt & Hnode & Hparents & Hchildren).
  split_and!; [lia | done | done |].
  intros c d Hc. destruct (Hchildren c d Hc). lia.
Qed.

(** The base constructor, run on a freshly allocated object over allocated
    parents, keeps the store consistent whatever its outcome. *)
Lemma Tensor__init__consistent (tensor : torch_Tensor)
    (parents : list node_id) (links : list Plate) (name : option string)
    (k : variant) (w w' : world) (r : exn + unit) :
  store_consistent w → allocated w parents →
  Tensor__init__ has_backwards_path (next_id w) tensor parents links name k
                 (snd (Tensor__new__ w)) = (w', r) →
  store_consistent w'.
Proof.
  intros Hw Hparents Hinit.
  pose proof (store_consistent_new w Hw) as [Hheap Hreg].
  assert (heap w !! next_id w = None) as Hfresh.
  { destruct (heap w !! next_id w) as [t|] eqn:Hself; [|done].
    destruct Hw as [Hw _]. destruct (Hw _ _ Hself). lia. }
  assert (Hold : ∀ linked (x : node_id) t,
    (∀ p, p ∈ linked → p ∈ parents) →
    heap w !! x = Some t →
    let t' := add_children (next_id w) (has_backwards_path (next_id w) x)
                           (occurrences x linked) t in
    x < S (next_id w) ∧ node_consistent t'
    ∧ (∀ (p : node_id) d, (p, d) ∈ _parents t' → p < x)
    ∧ (∀ (c : node_id) d, (c, d) ∈ _children t' → x < c ∧ c < S (next_id w))).
  { intros linked x t Hsub Hx t'.
    destruct (Hheap x t Hx) as (Hlt & Hnode & Hps & Hcs).
    split_and!; try done. intros c d. unfold t'. simpl.
    intros [Hc|[[= -> ->] Hocc]%elem_of_replicate]%elem_of_app.
    - by apply (Hcs c d).
    - apply occurrences_some, Hsub in Hocc. unfold allocated in Hparents.
      rewrite Forall_forall in Hparents. specialize (Hparents x Hocc). lia. }
  apply Tensor__init__effect in Hinit as (Hnext & Hregs & _ & Heffect).
  simpl in Hnext, Hregs.
  destruct r as [e|[]].
  - assert ((∀ x, heap w' !! x
                  = add_children (next_id w)
                      (has_backwards_path (next_id w) x)
                      (occurrences x (linked_parents (heap w) parents))
                    <$> heap w !! x)
            ∨ w' = snd (Tensor__new__ w)) as [Hheap' | ->];
      [| |exact (store_consistent_new w Hw)].
    { destruct e as [[]| | |]; destruct Heffect as [H1 H2];
        first [by right | by left]. }
    split.
    + intros x t'. rewrite Hnext, Hheap'.
      destruct (heap w !! x) as [t|] eqn:Hx; simpl; [|done]. intros [= <-].
      apply (Hold (linked_parents (heap w) parents)); [|done].
      apply linked_parents_subseteq.
    + intros x Hx. rewrite Hregs in Hx.
      destruct (Hreg x Hx) as (t & Ht & Hcost). simpl in Ht.
      rewrite Hheap', Ht. by eexists.
  - destruct Heffect as (_ & bl & Hcheck & Hself & Hothers).
    simpl in Hothers. split.
    + intros x t'. rewrite Hnext. destruct (decide (x = next_id w)) as [->|Hx].
      * rewrite Hself. intros [= <-]. split_and!; [lia | | |]; simpl.
        -- apply check_batch_links_returns in Hcheck
             as (Hnd & _ & Hdims & ->).
           by split_and!.
        -- intros p d [p' [[= -> ->] Hp]]%list_elem_of_fmap.
           unfold allocated in Hparents. rewrite Forall_forall in Hparents.
           by apply Hparents.
        -- by intros c d ?%elem_of_nil.
      * rewrite (Hothers x Hx).
        destruct (heap w !! x) as [t|] eqn:Ht; simpl; [|done]. intros [= <-].
        by apply (Hold parents).
    + intros x Hx. rewrite Hregs in Hx.
      destruct (Hreg x Hx) as (t & Ht & Hcost). simpl in Ht.
      assert (x ≠ next_id w) as Hne by congruence.
      rewrite (Hothers x Hne), Ht. by eexists.
Qed.

Lemma store_consistent_ordered (w : world) :
  store_consistent w → store_ordered w.
Proof.
  intros [Hheap Hreg]. split; [|done]. intros x t Hx.
  by destruct (Hheap x t Hx) as (? & _ & ? & ?).
Qed.

Lemma store_ordered_new (w : world) :
  store_ordered w → store_ordered (snd (Tensor__new__ w)).
Proof.
  intros [Hheap Hreg]. split; [|done]. simpl. intros x t Hx.
  destruct (Hheap x t Hx) as (Hlt & Hparents & Hchildren).
  split_and!; [lia | done |].
  intros c d Hc. destruct (Hchildren c d Hc). lia.
Qed.

(** The base constructor, run on a freshly allocated object over allocated
    parents, keeps the edges ordered whatever its outcome. *)
Lemma Tensor__init__ordered (tensor : torch_Tensor)
    (parents : list node_id) (links : list Plate) (name : option string)
    (k : variant) (w w' : world) (r : exn + unit) :
  store_ordered w → allocated w parents →
  Tensor__init__ has_backwards_path (next_id w) tensor parents links name k
                 (snd (Tensor__new__ w)) = (w', r) →
  store_ordered w'.
Proof.
  intros Hw Hparents Hinit.
  pose proof (store_ordered_new w Hw) as [Hheap Hreg].
  assert (heap w !! next_id w = None) as Hfresh.
  { destruct (heap w !! next_id w) as [t|] eqn:Hself; [|done].
    destruct Hw as [Hw _]. destruct (Hw _ _ Hself). lia. }
  assert (Hold : ∀ linked (x : node_id) t,
    (∀ p, p ∈ linked → p ∈ parents) →
    heap w !! x = Some t →
    let t' := add_children (next_id w) (has_backwards_path (next_id w) x)
                           (occurrences x linked) t in
    x < S (next_id w)
    ∧ (∀ (p : node_id) d, (p, d) ∈ _parents t' → p < x)
    ∧ (∀ (c : node_id) d, (c, d) ∈ _children t' → x < c ∧ c < S (next_id w))).
  { intros linked x t Hsub Hx t'.
    destruct (Hheap x t Hx) as (Hlt & Hps & Hcs).
    split_and!; try done. intros c d. unfold t'. simpl.
    intros [Hc|[[= -> ->] Hocc]%elem_of_replicate]%elem_of_app.
    - by apply (Hcs c d).
    - apply occurrences_some, Hsub in Hocc. unfold allocated in Hparents.
      rewrite Forall_forall in Hparents. specialize (Hparents x Hocc). lia. }
  apply Tensor__init__effect in Hinit as (Hnext & Hregs & _ & Heffect).
  simpl in Hnext, Hregs.
  destruct r as [e|[]].
  - assert ((∀ x, heap w' !! x
                  = add_children (next_id w)
                      (has_backwards_path (next_id w) x)
                      (occurrences x (linked_parents (heap w) parents))
                    <$> heap w !! x)
            ∨ w' = snd (Tensor__new__ w)) as [Hheap' | ->];
      [| |exact (store_ordered_new w Hw)].
    { destruct e as [[]| | |]; destruct Heffect as [H1 H2];
        first [by right | by left]. }
    split.
    + intros x t'. rewrite Hnext, Hheap'.
      destruct (heap w !! x) as [t|] eqn:Hx; simpl; [|done]. intros [= <-].
      apply (Hold (linked_parents (heap w) parents)); [|done].
      apply linked_parents_subseteq.
    + intros x Hx. rewrite Hregs in Hx.
      destruct (Hreg x Hx) as (t & Ht & Hcost). simpl in Ht.
      rewrite Hheap', Ht. by eexists.
  - destruct Heffect as (_ & bl & Hcheck & Hself & Hothers).
    simpl in Hothers. split.
    + intros x t'. rewrite Hnext. destruct (decide (x = next_id w)) as [->|Hx].
      * rewrite Hself. intros [= <-]. split_and!; [lia | |]; simpl.
        -- intros p d [p' [[= -> ->] Hp]]%list_elem_of_fmap.
           unfold allocated in Hparents. rewrite Forall_forall in Hparents.
           by apply Hparents.
        -- by intros c d ?%elem_of_nil.
      * rewrite (Hothers x Hx).
        destruct (heap w !! x) as [t|] eqn:Ht; simpl; [|done]. intros [= <-].
        by apply (Hold parents).
    + intros x Hx. rewrite Hregs in Hx.
      destruct (Hreg x Hx) as (t & Ht & Hcost). simpl in Ht.
      assert (x ≠ next_id w) as Hne by congruence.
      rewrite (Hothers x Hne), Ht. by eexists.
Qed.

Lemma stored_allocated (w : world) (parents : list node_id) :
  store_ordered w → Forall (stored (heap w)) parents →
  allocated w parents.
Proof.
  intros [Hheap _] Hparents. unfold allocated.
  eapply Forall_impl; [exact Hparents|]. intros p [t Hp]. simpl.
  by destruct (Hheap p t Hp).
Qed.

(** An invariant of the world that the base constructor keeps, and that
    registering the new cost node keeps, is kept by the four
    constructors. *)
Lemma constructors_keep (I : world → Prop) (tensor : torch_Tensor)
    (parents : list node_id) (links : list Plate) (name : option string)
    (plate_name : string) (cost : bool)
    (distribution : gmap string torch_Tensor) (requires_grad : bool) (n : Z)
    (w : world) :
  I (snd (Tensor__new__ w)) →
  (∀ links' name' k w' r,
     Tensor__init__ has_backwards_path (next_id w) tensor parents links'
                    name' k (snd (Tensor__new__ w)) = (w', r) → I w') →
  (∀ w' t, I w' → heap w' !! next_id w = Some t → is_cost t = true →
           I (append_cost_tensor (next_id w) w')) →
  I (fst (new_Tensor has_backwards_path tensor parents links name w))
  ∧ I (fst (new_DeterministicTensor has_backwards_path tensor parents links
                                    cost name w))
  ∧ I (fst (new_IndependentTensor has_backwards_path tensor parents links
                                  plate_name w))
  ∧ I (fst (new_StochasticTensor has_backwards_path tensor parents links
                                 distribution requires_grad n plate_name w)).
Proof.
  intros Hnew Hbase Happend.
  unfold new_Tensor, new_DeterministicTensor, new_IndependentTensor,
    new_StochasticTensor. cbn [Tensor__new__].
  split; [|split; [|split]].
  - destruct (Tensor__init__ _ _ _ _ _ _ _ _) as [w' r] eqn:Hinit.
    apply Hbase in Hinit. by destruct r as [e|[]].
  - unfold DeterministicTensor__init__.
    destruct (Tensor__init__ _ _ _ _ _ _ _ _) as [w' r] eqn:Hinit.
    pose proof (Hbase _ _ _ _ _ Hinit) as Hw'.
    destruct r as [e|[]]; [done|].
    destruct (cost && grad_enabled w') eqn:Hcg; [|done].
    apply Tensor__init__links in Hinit as (node & Hnode & _ & Hk & _).
    assert (I (append_cost_tensor (next_id w) w')) as Hreg.
    { apply (Happend w' node Hw' Hnode). unfold is_cost. rewrite Hk.
      by destruct cost. }
    by destruct (negb (truthy name)).
  - unfold IndependentTensor__init__. destruct (shape tensor); [done|].
    destruct (name_in_use _ _); [done|].
    destruct (Tensor__init__ _ _ _ _ _ _ _ _) as [w' r] eqn:Hinit.
    apply Hbase in Hinit. by destruct r as [e|[]].
  - unfold StochasticTensor__init__.
    destruct (name_in_use _ _); [done|].
    destruct (Tensor__init__ _ _ _ _ _ _ _ _) as [w' r] eqn:Hinit.
    apply Hbase in Hinit. by destruct r as [e|[]].
Qed.

(** X4.  Each of the four constructors, called on a store with ordered
    edges over stored parents, leaves the edges ordered, whether it returns
    or raises: parent edges point to older nodes and child edges to younger
    allocated objects, so the parent graph has no cycle, and every
    registered cost tensor is a stored cost node.  The base and the
    deterministic constructor, which do not touch the plate list they are
    given, moreover keep a consistent store consistent: every stored node
    stays consistent with its plates. *)
Theorem constructors_keep_store_consistent (tensor : torch_Tensor)
    (parents : list node_id) (links : list Plate) (name : option string)
    (plate_name : string) (cost : bool)
    (distribution : gmap string torch_Tensor) (requires_grad : bool) (n : Z)
    (w : world) :
  Forall (stored (heap w)) parents →
  (store_ordered w →
   store_ordered
     (fst (new_Tensor has_backwards_path tensor parents links name w))
   ∧ store_ordered
       (fst (new_DeterministicTensor has_backwards_path tensor parents links
                                     cost name w))
   ∧ store_ordered
       (fst (new_IndependentTensor has_backwards_path tensor parents links
                                   plate_name w))
   ∧ store_ordered
       (fst (new_StochasticTensor has_backwards_path tensor parents links
                                  distribution requires_grad n plate_name
                                  w)))
  ∧ (store_consistent w →
     store_consistent
       (fst (new_Tensor has_backwards_path tensor parents links name w))
     ∧ store_consistent
         (fst (new_DeterministicTensor has_backwards_path tensor parents
                                       links cost name w))).
Proof.
  intros Hparents. split.
  - intros Hw.
    apply (constructors_keep store_ordered);
      [by apply store_ordered_new | |].
    + intros links' name' k w' r.
      apply Tensor__init__ordered; [done|]. by apply stored_allocated.
    + intros w' t [Hheap Hreg] Ht Hcost. split; [done|]. simpl.
      intros x [Hx|Hx%list_elem_of_singleton]%elem_of_app.
      * by apply Hreg.
      * subst x. by exists t.
  - intros Hw.
    destruct (constructors_keep store_consistent tensor parents links name
                plate_name cost distribution requires_grad n w)
      as (Hbase & Hdet & _); [by apply store_consistent_new | | |done].
    + intros links' name' k w' r.
      apply Tensor__init__consistent; [done|].
      apply stored_allocated; [by apply store_consistent_ordered | done].
    + intros w' t [Hheap Hreg] Ht Hcost. split; [done|]. simpl.
      intros x [Hx|Hx%list_elem_of_singleton]%elem_of_app.
      * by apply Hreg.
      * subst x. by exists t.
Qed.

End StoreInvariant.

(** ** Derived queries *)

Lemma dims_used_app (l1 l2 : list Plate) :
  dims_used (l1 ++ l2) = dims_used l1 + dims_used l2.
Proof. unfold dims_used. by rewrite filter_app, length_app. Qed.

(** The leading dimensions that the plate loop has checked are the sizes of
    the plates that are not singletons, in order. *)
Lemma checked_dimensions (tensor_shape : list Z) (links : list Plate) :
  (∀ i name n, links !! i = Some (name, n) → n ≠ 1%Z →
     tensor_shape !! dims_used (take i links) = Some n) →
  take (dims_used links) tensor_shape
  = snd <$> filter (λ plate : Plate, snd plate ≠ 1%Z) links.
Proof.
  induction links as [|[name n] links IH] using rev_ind; intros Hdims.
  - done.
  - assert (take (dims_used links) tensor_shape
            = snd <$> filter (λ plate : Plate, snd plate ≠ 1%Z) links) as IH'.
    { apply IH. intros i name' n' Hi Hn'.
      pose proof (lookup_lt_Some _ _ _ Hi) as Hlt.
      specialize (Hdims i name' n'). rewrite lookup_app_l in Hdims by done.
      rewrite take_app_le in Hdims by (by apply Nat.lt_le_incl).
      by apply Hdims. }
    rewrite dims_used_app, filter_app, fmap_app, <-IH'.
    unfold dims_used at 2. rewrite filter_cons, filter_nil. simpl.
    destruct (decide (n ≠ 1%Z)) as [Hn|Hn]; simpl.
    + specialize (Hdims (length links) name n).
      rewrite lookup_app_r, Nat.sub_diag in Hdims by done.
      rewrite take_app_length in Hdims. specialize (Hdims eq_refl Hn).
      replace (dims_used links + 1) with (S (dims_used links)) by lia.
      by rewrite (take_S_r _ _ _ Hdims).
    + by rewrite Nat.add_0_r, app_nil_r.
Qed.

Lemma node_consistent_batch_shape (t : Tensor) :
  node_consistent t →
  batch_shape t
  = snd <$> filter (λ plate : Plate, snd plate ≠ 1%Z) (batch_links t).
Proof.
  intros (_ & Hlen & _ & Hdims). unfold batch_shape. rewrite Hlen.
  by apply checked_dimensions.
Qed.

Lemma node_consistent_batch_len (t : Tensor) :
  node_consistent t → batch_len t ≤ dim (_tensor t).
Proof.
  intros Ht. pose proof (node_consistent_batch_shape t Ht) as Hshape.
  destruct Ht as (_ & Hlen & _ & _).
  apply (f_equal length) in Hshape. unfold batch_shape in Hshape.
  rewrite length_take, length_fmap in Hshape. unfold dim.
  unfold dims_used in Hlen. unfold Plate in *. lia.
Qed.

(** The node stored by a returning base constructor is consistent. *)
Lemma Tensor__init__node_consistent
    (has_backwards_path : node_id → node_id → bool) (self : node_id)
    (tensor : torch_Tensor) (parents : list node_id) (links : list Plate)
    (name : option string) (k : variant) (w w' : world) :
  Tensor__init__ has_backwards_path self tensor parents links name k w
  = (w', inr ()) →
  ∃ node, heap w' !! self = Some node ∧ node_consistent node
          ∧ _tensor node = tensor ∧ batch_links node = links.
Proof.
  intros Hinit. apply Tensor__init__effect in Hinit
    as (_ & _ & _ & _ & bl & Hcheck & Hself & _).
  eexists. split; [exact Hself|]. split; [|done].
  apply check_batch_links_returns in Hcheck as (Hnd & _ & Hdims & ->).
  by split_and!.
Qed.

(** X5.  For every node of a consistent store, the batch shape followed
    by the event shape is the shape of the tensor; the batch shape has
    [batch_len] entries, the sizes of the plates that are not singletons,
    in order; and the batch dimension indices followed by the event
    dimension indices count through all dimensions of the tensor. *)
Theorem batch_and_event_dimensions (w : world) (x : node_id)
    (node : Tensor) :
  store_consistent w → heap w !! x = Some node →
  batch_shape node ++ event_shape node = shape (_tensor node)
  ∧ length (batch_shape node) = batch_len node
  ∧ batch_shape node
    = snd <$> filter (λ plate : Plate, snd plate ≠ 1%Z) (batch_links node)
  ∧ batch_dim_indices node ++ event_dim_indices node
    = seq 0 (dim (_tensor node))
  ∧ length (event_dim_indices node) = length (event_shape node).
Proof.
  intros [Hheap _] Hx. destruct (Hheap x node Hx) as (_ & Hnode & _).
  pose proof (node_consistent_batch_len node Hnode) as Hle.
  pose proof (node_consistent_batch_shape node Hnode) as Hshape.
  destruct Hnode as (_ & _ & Hevent & _).
  split_and!; [| |done| |].
  - unfold batch_shape. rewrite Hevent. apply take_drop.
  - unfold batch_shape, dim in *. rewrite length_take. lia.
  - unfold batch_dim_indices, event_dim_indices.
    rewrite <-seq_app. f_equal. lia.
  - unfold event_dim_indices. rewrite Hevent, length_seq, length_drop.
    done.
Qed.

Lemma dims_used_split (links : list Plate) :
  dims_used links
  = length (plates_above_one links)
    + length (filter (λ plate : Plate, (snd plate < 1)%Z) links).
Proof.
  unfold dims_used, plates_above_one.
  induction links as [|plate links IH]; [done|].
  rewrite !filter_cons.
  destruct (decide (snd plate ≠ 1%Z)), (decide (1 < snd plate)%Z),
    (decide (snd plate < 1)%Z); simpl; unfold Plate in *; lia.
Qed.

Lemma plates_above_one_valid (links : list Plate) :
  valid_sizes links →
  filter (λ plate : Plate, snd plate ≠ 1%Z) links = plates_above_one links.
Proof.
  unfold plates_above_one. induction 1 as [|plate links Hp _ IH]; [done|].
  rewrite !filter_cons, IH.
  destruct (decide (snd plate ≠ 1%Z)), (decide (1 < snd plate)%Z);
    try done; lia.
Qed.

(** X6.  For every node of a consistent store, [multi_dim_plates] lists,
    in order, the plates of size greater than 1; [batch_len] exceeds their
    number by the number of plates of size below 1, which the constructor
    counts as batch dimensions; when every plate has size at least 1 the
    sizes of [multi_dim_plates] are the batch shape. *)
Theorem multi_dim_plates_and_batch_len (w : world) (x : node_id)
    (node : Tensor) :
  store_consistent w → heap w !! x = Some node →
  (∀ plate, plate ∈ multi_dim_plates node
            ↔ plate ∈ batch_links node ∧ (1 < snd plate)%Z)
  ∧ multi_dim_plates node `sublist_of` batch_links node
  ∧ batch_len node
    = length (multi_dim_plates node)
      + length (filter (λ plate : Plate, (snd plate < 1)%Z)
                       (batch_links node))
  ∧ (valid_sizes (batch_links node) →
     snd <$> multi_dim_plates node = batch_shape node
     ∧ length (multi_dim_plates node) = batch_len node).
Proof.
  intros [Hheap _] Hx. destruct (Hheap x node Hx) as (_ & Hnode & _).
  pose proof (node_consistent_batch_shape node Hnode) as Hshape.
  destruct Hnode as (_ & Hlen & _ & _). unfold multi_dim_plates.
  split_and!.
  - intros plate. unfold plates_above_one.
    by rewrite list_elem_of_filter, (comm and).
  - apply sublist_filter.
  - by rewrite Hlen, dims_used_split.
  - intros Hv. rewrite Hshape, Hlen, plates_above_one_valid by done.
    split; [done|]. by rewrite dims_used_valid.
Qed.

(** ** [iterate_batch_indices] *)

Lemma elem_of_product (ranges : list (list nat)) :
  ∀ idx, idx ∈ product ranges ↔ Forall2 (λ i r, i ∈ r) idx ranges.
Proof.
  induction ranges as [|r rest IH]; intros idx; simpl.
  - rewrite list_elem_of_singleton. split; [by intros -> | by inversion 1].
  - rewrite list_elem_of_bind. split.
    + intros (x & (tail & -> & Htail)%list_elem_of_fmap & Hx).
      constructor; [done | by apply IH].
    + inversion 1 as [|x r' tail rest' Hx Htail]; subst.
      exists x. split; [|done]. apply list_elem_of_fmap.
      exists tail. split; [done | by apply IH].
Qed.

Lemma length_product (ranges : list (list nat)) :
  length (product ranges) = foldr (λ r n, length r * n) 1 ranges.
Proof.
  induction ranges as [|r rest IH]; [done|]. simpl. rewrite <-IH.
  generalize (product rest). intros l.
  induction r as [|x r IHr]; [done|].
  change (length ((cons x <$> l) ++ (r ≫= λ x, cons x <$> l))
          = length l + length r * length l).
  by rewrite length_app, length_fmap, IHr.
Qed.

Lemma NoDup_product (ranges : list (list nat)) :
  Forall NoDup ranges → NoDup (product ranges).
Proof.
  induction 1 as [|r rest Hr _ IH]; simpl.
  - apply NoDup_singleton.
  - induction Hr as [|x r Hx Hr IHr]; simpl; [constructor|].
    apply NoDup_app. split_and!.
    + apply NoDup_fmap_2; [|done]. by intros ?? [=].
    + intros idx (tail & -> & _)%list_elem_of_fmap
        (y & (tail' & [= <- _] & _)%list_elem_of_fmap & Hy)%list_elem_of_bind.
      done.
    + done.
Qed.

(** X7.  [iterate_batch_indices] enumerates, without repetition, exactly
    the index tuples that have one entry per batch dimension, each below the
    size of its dimension; there are as many as the product of the batch
    sizes, none when a batch dimension is empty, and the single empty tuple
    for a node without batch dimensions. *)
Theorem iterate_batch_indices_enumerates (self : Tensor) :
  (∀ idx,
     idx ∈ iterate_batch_indices self
     ↔ Forall2 (λ (i : nat) (a : Z), (Z.of_nat i < a)%Z) idx
               (batch_shape self))
  ∧ NoDup (iterate_batch_indices self)
  ∧ length (iterate_batch_indices self)
    = foldr (λ (a : Z) n, Z.to_nat a * n) 1 (batch_shape self)
  ∧ ((∃ a, a ∈ batch_shape self ∧ (a ≤ 0)%Z) → iterate_batch_indices self = [])
  ∧ (batch_shape self = [] → iterate_batch_indices self = [[]]).
Proof.
  unfold iterate_batch_indices.
  assert (Hmem : ∀ idx,
    idx ∈ product (range <$> batch_shape self)
    ↔ Forall2 (λ (i : nat) (a : Z), (Z.of_nat i < a)%Z) idx
              (batch_shape self)).
  { intros idx. rewrite elem_of_product, Forall2_fmap_r.
    split; intros Hall; eapply Forall2_impl; try exact Hall;
      intros i a; simpl; unfold range; rewrite elem_of_seq; lia. }
  split_and!.
  - exact Hmem.
  - apply NoDup_product, Forall_fmap, Forall_forall. intros a _.
    apply NoDup_seq.
  - clear Hmem. rewrite length_product.
    induction (batch_shape self) as [|a l IH];
      [done|]. rewrite fmap_cons. simpl. rewrite IH. unfold range.
    by rewrite length_seq.
  - intros (a & Ha & Hle).
    destruct (product (range <$> batch_shape self)) as [|idx rest];
      [done|].
    assert (idx ∈ idx :: rest) as Hidx%Hmem by left.
    apply list_elem_of_lookup in Ha as [j Hj].
    destruct (Forall2_lookup_r _ _ _ _ _ Hidx Hj) as (i & _ & Hi). lia.
  - by intros ->.
Qed.

(** ** What the walks visit *)

Lemma elem_of_rev {A : Type} (x : A) (l : list A) : x ∈ rev l ↔ x ∈ l.
Proof. rewrite !list_elem_of_In. symmetry. apply in_rev. Qed.

Section WalkReach.

Variable expand_fn : node_id → list (node_id * bool).
Variable only_differentiable : bool.

Lemma elem_of_pushed (v w : node_id) :
  w ∈ pushed expand_fn only_differentiable v
  ↔ followed expand_fn only_differentiable v w.
Proof.
  unfold pushed, followed. rewrite list_elem_of_fmap. split.
  - intros ([w' d] & -> & [Hd Hin]%list_elem_of_filter). simpl in *.
    exists d. split; [done|]. destruct d, only_differentiable; auto.
  - intros (d & Hin & Hd). exists (w, d). split; [done|].
    apply list_elem_of_filter. split; [|done]. simpl.
    by destruct Hd as [-> | ->]; [|destruct d].
Qed.

Lemma reaches_avoiding_mono (V V' : gset node_id) (x y : node_id) :
  V ⊆ V' →
  reaches_avoiding expand_fn only_differentiable V' x y →
  reaches_avoiding expand_fn only_differentiable V x y.
Proof.
  intros Hsub. induction 1 as [x Hx|x y z Hx Hxy _ IH].
  - apply reaches_here. intros ?. by apply Hx, Hsub.
  - eapply reaches_step; [|done..]. intros ?. by apply Hx, Hsub.
Qed.

Lemma reaches_avoiding_start (V : gset node_id) (x y : node_id) :
  reaches_avoiding expand_fn only_differentiable V x y → x ∉ V.
Proof. by destruct 1. Qed.

Lemma reaches_avoiding_rtc (x y : node_id) :
  reaches_avoiding expand_fn only_differentiable ∅ x y
  ↔ rtc (followed expand_fn only_differentiable) x y.
Proof.
  split.
  - induction 1 as [x Hx|x y z Hx Hxy _ IH]; [done|]. by eapply rtc_l.
  - induction 1 as [x|x y z Hxy _ IH].
    + by apply reaches_here, not_elem_of_empty.
    + eapply reaches_step; [apply not_elem_of_empty|done..].
Qed.

(** A path that avoids [V] either avoids the set [N] too, or comes through
    [N] a last time. *)
Lemma reaches_avoiding_last (V N : gset node_id) (x y : node_id) :
  reaches_avoiding expand_fn only_differentiable V x y →
  reaches_avoiding expand_fn only_differentiable (N ∪ V) x y
  ∨ ∃ n, n ∈ N
         ∧ (y = n
            ∨ ∃ z, followed expand_fn only_differentiable n z
                   ∧ reaches_avoiding expand_fn only_differentiable
                                      (N ∪ V) z y).
Proof.
  induction 1 as [x Hx|x y z Hx Hxy _ IH].
  - destruct (decide (x ∈ N)) as [Hn|Hn].
    + right. exists x. auto.
    + left. apply reaches_here. by intros [?|?]%elem_of_union.
  - destruct IH as [IH|IH]; [|by right].
    destruct (decide (x ∈ N)) as [Hn|Hn].
    + right. exists x. split; [done|]. right. by exists y.
    + left. eapply reaches_step; [|done..]. by intros [?|?]%elem_of_union.
Qed.

(** The depth-first loop yields exactly the nodes reached from the stack
    along paths outside the visited set. *)
Lemma walk_depth_first_reach (fuel : nat) :
  ∀ (stack : list node_id) (visited : gset node_id) (l : list node_id),
    walk_depth_first expand_fn only_differentiable false id fuel stack visited
    = Some l →
    ∀ x, x ∈ l
         ↔ ∃ s, s ∈ stack
                ∧ reaches_avoiding expand_fn only_differentiable visited s x.
Proof.
  induction fuel as [|fuel IH]; intros stack visited l; [done|].
  destruct stack as [|v stack].
  - intros [= <-] x. split; [by intros ?%elem_of_nil|].
    by intros (s & ?%elem_of_nil & _).
  - destruct (decide (v ∈ visited)) as [Hv|Hv].
    + rewrite walk_depth_first_skip by done. intros Hwalk x.
      rewrite (IH _ _ _ Hwalk x). split.
      * intros (s & Hs & Hsx). exists s. split; [by right | done].
      * intros (s & [->|Hs]%elem_of_cons & Hsx).
        -- by apply reaches_avoiding_start in Hsx.
        -- by exists s.
    + rewrite walk_depth_first_visit by done.
      destruct (walk_depth_first _ _ _ _ fuel _ _) as [l'|] eqn:Hwalk;
        [|done].
      intros [= <-] x. specialize (IH _ _ _ Hwalk x).
      rewrite elem_of_cons, IH. clear IH Hwalk. split.
      * intros [->|(s & Hs & Hsx)].
        -- exists v. split; [left | by apply reaches_here].
        -- apply (reaches_avoiding_mono visited) in Hsx;
             [|apply union_subseteq_r].
           apply elem_of_app in Hs as [Hs|Hs].
           ++ exists v. split; [left|]. eapply reaches_step; [done| |done].
              by apply elem_of_pushed, elem_of_rev.
           ++ exists s. split; [by right | done].
      * intros (s & Hs & Hsx).
        destruct (reaches_avoiding_last visited {[v]} s x Hsx)
          as [Hsx'|(n & ->%elem_of_singleton & [->|(z & Hvz & Hzx)])].
        -- right. exists s. split; [|done].
           apply elem_of_cons in Hs as [->|Hs].
           ++ apply reaches_avoiding_start in Hsx'. destruct Hsx'.
              by apply elem_of_union_l, elem_of_singleton.
           ++ apply elem_of_app. by right.
        -- by left.
        -- right. exists z. split; [|done]. apply elem_of_app. left.
           by apply elem_of_rev, elem_of_pushed.
Qed.

(** The inner loop of the breadth-first branch appends to the queue, once
    each, the followed successors that were not visited, and marks them. *)
Lemma enqueue_fold (edges : list (node_id * bool)) :
  ∀ (visited : gset node_id) (queue : list node_id),
    ∃ new,
      fold_left (enqueue only_differentiable false) edges (visited, queue)
      = (list_to_set new ∪ visited, queue ++ new)
      ∧ NoDup new
      ∧ length new ≤ length edges
      ∧ ∀ w, w ∈ new
             ↔ (w ∉ visited)
               ∧ ∃ d : bool, (w, d) ∈ edges
                             ∧ (d = true ∨ only_differentiable = false).
Proof.
  induction edges as [|[w d] edges IH]; intros visited queue.
  - exists []. simpl. rewrite app_nil_r, (left_id_L ∅ (∪)).
    split_and!; [done | constructor | done |]. intros w.
    split; [by intros ?%elem_of_nil|]. by intros (_ & d & ?%elem_of_nil & _).
  - simpl.
    destruct (decide ((w ∉ visited)
                      ∧ (d = true ∨ only_differentiable = false)))
      as [[Hw Hd]|Hskip].
    + rewrite bool_decide_eq_true_2 by done.
      assert (d || negb only_differentiable = true) as ->
        by (destruct Hd as [-> | ->]; [done | by destruct d]).
      simpl. destruct (IH ({[w]} ∪ visited) (queue ++ [w]))
        as (new & -> & Hnd & Hlen & Hnew).
      exists (w :: new). split_and!.
      * f_equal; [|by rewrite <-app_assoc].
        simpl. by rewrite (assoc_L (∪)), (comm_L (∪) (list_to_set new)).
      * constructor; [|done]. rewrite Hnew. intros [Hw' _].
        by apply Hw', elem_of_union_l, elem_of_singleton.
      * simpl. lia.
      * intros x. rewrite elem_of_cons, Hnew. split.
        -- intros [->|(Hx & d' & Hin & Hd')].
           ++ split; [done|]. exists d. split; [left | done].
           ++ split; [by intros ?; apply Hx, elem_of_union_r|].
              exists d'. split; [by right | done].
        -- intros (Hx & d' & [[= -> ->]|Hin]%elem_of_cons & Hd');
             [by left|].
           destruct (decide (x = w)) as [->|Hne]; [by left|]. right.
           split; [|by exists d'].
           by intros [?%elem_of_singleton|?]%elem_of_union.
    + assert (bool_decide (w ∉ visited) && (d || negb only_differentiable)
              = false) as ->.
      { destruct (bool_decide (w ∉ visited)) eqn:Hw; [|done].
        apply bool_decide_eq_true in Hw. simpl.
        destruct d; [destruct Hskip; auto|].
        destruct only_differentiable; [done|]. destruct Hskip; auto. }
      destruct (IH visited queue) as (new & -> & Hnd & Hlen & Hnew).
      exists new. split_and!; [done | done | simpl; lia |].
      intros x. rewrite Hnew. split.
      * intros (Hx & d' & Hin & Hd'). split; [done|]. exists d'.
        split; [by right | done].
      * intros (Hx & d' & [[= -> ->]|Hin]%elem_of_cons & Hd').
        -- destruct Hskip. auto.
        -- split; [done|]. by exists d'.
Qed.

(** One iteration of the breadth-first loop. *)
Lemma walk_breadth_first_step {A : Type} (walk_fn : node_id → A)
    (fuel : nat) (v : node_id) (queue : list node_id)
    (visited : gset node_id) :
  ∃ new,
    walk_breadth_first expand_fn only_differentiable false walk_fn (S fuel)
                       (v :: queue) visited
    = cons (walk_fn v) <$>
        walk_breadth_first expand_fn only_differentiable false walk_fn fuel
                           (queue ++ new) (list_to_set new ∪ visited)
    ∧ NoDup new
    ∧ length new ≤ length (expand_fn v)
    ∧ ∀ w, w ∈ new
           ↔ (w ∉ visited) ∧ followed expand_fn only_differentiable v w.
Proof.
  destruct (enqueue_fold (expand_fn v) visited queue)
    as (new & Hfold & Hnd & Hlen & Hnew).
  exists new. split; [|done]. simpl. by rewrite Hfold.
Qed.

(** The breadth-first loop yields no node twice, and only nodes of the
    queue or nodes that were not visited. *)
Lemma walk_breadth_first_once (fuel : nat) :
  ∀ (queue : list node_id) (visited : gset node_id) (l : list node_id),
    NoDup queue → (∀ q, q ∈ queue → q ∈ visited) →
    walk_breadth_first expand_fn only_differentiable false id fuel queue
                       visited = Some l →
    NoDup l ∧ ∀ x, x ∈ l → x ∈ queue ∨ x ∉ visited.
Proof.
  induction fuel as [|fuel IH]; intros queue visited l Hnd Hsub; [done|].
  destruct queue as [|v queue].
  - intros [= <-]. split; [constructor | by intros ? ?%elem_of_nil].
  - destruct (walk_breadth_first_step id fuel v queue visited)
      as (new & -> & Hnew_nd & _ & Hnew).
    destruct (walk_breadth_first _ _ _ _ fuel _ _) as [l'|] eqn:Hwalk;
      [|done].
    intros [= <-]. apply NoDup_cons in Hnd as [Hv Hnd].
    apply IH in Hwalk as [Hl' Hin].
    + split.
      * constructor; [|done].
        intros [[Hq|Hn]%elem_of_app|Hout]%Hin.
        -- done.
        -- apply Hnew in Hn as [Hn _]. apply Hn, Hsub. left.
        -- apply Hout, elem_of_union_r, Hsub. left.
      * intros x [->|[[Hq|Hn]%elem_of_app|Hout]%Hin]%elem_of_cons.
        -- left. left.
        -- left. by right.
        -- right. by apply Hnew in Hn as [Hn _].
        -- right. intros ?. by apply Hout, elem_of_union_r.
    + apply NoDup_app. split_and!; [done| |done].
      intros x Hq [Hx _]%Hnew. apply Hx, Hsub. by right.
    + intros q [Hq|Hn]%elem_of_app.
      * apply elem_of_union_r, Hsub. by right.
      * by apply elem_of_union_l, elem_of_list_to_set.
Qed.

(** The breadth-first loop yields exactly the queue and the nodes reached
    from it along paths that leave the visited set at once. *)
Lemma walk_breadth_first_reach (fuel : nat) :
  ∀ (queue : list node_id) (visited : gset node_id) (l : list node_id),
    (∀ q, q ∈ queue → q ∈ visited) →
    walk_breadth_first expand_fn only_differentiable false id fuel queue
                       visited = Some l →
    ∀ x, x ∈ l
         ↔ x ∈ queue
           ∨ ∃ q y, q ∈ queue
                    ∧ followed expand_fn only_differentiable q y
                    ∧ reaches_avoiding expand_fn only_differentiable
                                       visited y x.
Proof.
  induction fuel as [|fuel IH]; intros queue visited l Hsub; [done|].
  destruct queue as [|v queue].
  - intros [= <-] x. split; [by intros ?%elem_of_nil|].
    by intros [?%elem_of_nil|(q & y & ?%elem_of_nil & _)].
  - destruct (walk_breadth_first_step id fuel v queue visited)
      as (new & -> & _ & _ & Hnew).
    destruct (walk_breadth_first _ _ _ _ fuel _ _) as [l'|] eqn:Hwalk;
      [|done].
    intros [= <-] x. apply IH with (x := x) in Hwalk.
    2:{ intros q [Hq|Hn]%elem_of_app.
        - apply elem_of_union_r, Hsub. by right.
        - by apply elem_of_union_l, elem_of_list_to_set. }
    rewrite elem_of_cons, Hwalk. clear IH Hwalk. split.
    + intros [->|[[Hq|Hn]%elem_of_app|(q & y & Hq & Hqy & Hyx)]].
      * left. left.
      * left. by right.
      * right. apply Hnew in Hn as [Hx Hvx]. exists v, x.
        split_and!; [left | done | by apply reaches_here].
      * apply (reaches_avoiding_mono visited) in Hyx;
          [|apply union_subseteq_r].
        apply elem_of_app in Hq as [Hq|Hn].
        -- right. exists q, y. split_and!; [by right | done..].
        -- apply Hnew in Hn as [Hx Hvq]. right. exists v, q.
           split_and!; [left | done |]. by eapply reaches_step.
    + intros [[->|Hq]%elem_of_cons|(q & y & Hq & Hqy & Hyx)].
      * by left.
      * right. left. apply elem_of_app. by left.
      * right.
        destruct (reaches_avoiding_last visited (list_to_set new) y x Hyx)
          as [Hyx'|(n & Hn%elem_of_list_to_set & Hlast)].
        -- right. exists q, y. split_and!; [|done..].
           apply elem_of_cons in Hq as [->|Hq];
             [|apply elem_of_app; by left].
           pose proof (reaches_avoiding_start _ _ _ Hyx) as Hy.
           pose proof (reaches_avoiding_start _ _ _ Hyx') as Hy'.
           destruct Hy'. apply elem_of_union_l, elem_of_list_to_set.
           by apply Hnew.
        -- destruct Hlast as [->|(z & Hnz & Hzx)].
           ++ left. apply elem_of_app. by right.
           ++ right. exists n, z. split_and!; [|done..].
              apply elem_of_app. by right.
Qed.

End WalkReach.

Section WalkOutcome.

Context {A : Type}.
Variable expand_fn : node_id → list (node_id * bool).
Variable only_differentiable : bool.
Variable walk_fn : node_id → A.

(** The values yielded are [walk_fn] of the nodes visited. *)
Lemma walk_depth_first_fmap (repeat_visited : bool) (fuel : nat) :
  ∀ (stack : list node_id) (visited : gset node_id),
    walk_depth_first expand_fn only_differentiable repeat_visited walk_fn
                     fuel stack visited
    = (λ l : list node_id, walk_fn <$> l)
        <$> walk_depth_first expand_fn only_differentiable repeat_visited id
                             fuel stack visited.
Proof.
  induction fuel as [|fuel IH]; intros stack visited; [done|]. simpl.
  destruct stack as [|v stack]; [done|].
  destruct (_ || _); [|apply IH]. rewrite IH.
  by destruct (walk_depth_first _ _ _ id fuel _ _).
Qed.

Lemma walk_breadth_first_fmap (repeat_visited : bool) (fuel : nat) :
  ∀ (queue : list node_id) (visited : gset node_id),
    walk_breadth_first expand_fn only_differentiable repeat_visited walk_fn
                       fuel queue visited
    = (λ l : list node_id, walk_fn <$> l)
        <$> walk_breadth_first expand_fn only_differentiable repeat_visited
                               id fuel queue visited.
Proof.
  induction fuel as [|fuel IH]; intros queue visited; [done|]. simpl.
  destruct queue as [|v queue]; [done|].
  destruct (fold_left _ _ _) as [visited' queue']. rewrite IH.
  by destruct (walk_breadth_first _ _ _ id fuel _ _).
Qed.

(** More fuel does not change a finished breadth-first walk. *)
Lemma walk_breadth_first_fuel (repeat_visited : bool) (fuel : nat) :
  ∀ (extra : nat) (queue : list node_id) (visited : gset node_id)
    (l : list A),
    walk_breadth_first expand_fn only_differentiable repeat_visited walk_fn
                       fuel queue visited = Some l →
    walk_breadth_first expand_fn only_differentiable repeat_visited walk_fn
                       (fuel + extra) queue visited = Some l.
Proof.
  induction fuel as [|fuel IH]; intros extra queue visited l; [done|]. simpl.
  destruct queue as [|v queue]; [done|].
  destruct (fold_left _ _ _) as [visited' queue'].
  destruct (walk_breadth_first _ _ _ _ fuel _ _) as [l'|] eqn:Hwalk; [|done].
  intros [= <-]. by rewrite (IH extra _ _ _ Hwalk).
Qed.

(** The graph is finite: outside [universe] no node has an edge. *)
Variable universe : gset node_id.
Hypothesis expand_fn_support : ∀ v, v ∉ universe → expand_fn v = [].

(** Without [repeat_visited] the breadth-first loop ends on every finite
    graph: the nodes that were visited and left the queue are never
    expanded again. *)
Lemma walk_breadth_first_terminates (fuel : nat) :
  ∀ (queue : list node_id) (visited : gset node_id),
    NoDup queue → (∀ q, q ∈ queue → q ∈ visited) →
    length queue
    + pending_edges expand_fn universe (visited ∖ list_to_set queue) < fuel →
    ∃ l, walk_breadth_first expand_fn only_differentiable false walk_fn
                            fuel queue visited = Some l.
Proof.
  induction fuel as [|fuel IH]; intros queue visited Hnd Hsub Hfuel; [lia|].
  destruct queue as [|v queue]; [by eexists|].
  destruct (walk_breadth_first_step expand_fn only_differentiable walk_fn
              fuel v queue visited) as (new & -> & Hnew_nd & Hlen & Hnew).
  apply NoDup_cons in Hnd as [Hv Hnd].
  destruct (IH (queue ++ new) (list_to_set new ∪ visited)) as [l ->];
    [| | |by eexists].
  - apply NoDup_app. split_and!; [done| |done].
    intros x Hq [Hx _]%Hnew. apply Hx, Hsub. by right.
  - intros q [Hq|Hn]%elem_of_app.
    + apply elem_of_union_r, Hsub. by right.
    + by apply elem_of_union_l, elem_of_list_to_set.
  - assert ((list_to_set new ∪ visited) ∖ list_to_set (queue ++ new)
            = {[v]} ∪ visited ∖ list_to_set (v :: queue)) as ->.
    { apply set_eq. intros x.
      rewrite elem_of_union, !elem_of_difference, elem_of_union,
        !elem_of_list_to_set, elem_of_app, elem_of_cons, elem_of_singleton.
      specialize (Hnew x). specialize (Hsub x).
      rewrite elem_of_cons in Hsub. destruct (decide (x = v)) as [->|Hxv].
      - split; [by left|]. intros _. split; [right; apply Hsub; by left|].
        intros [?|[Hfresh _]%Hnew]; [done|]. apply Hfresh, Hsub. by left.
      - split.
        + intros [[Hx|Hx] Hout].
          * destruct Hout. by right.
          * right. split; [done|]. intros [?|?]; [done|].
            apply Hout. by left.
        + intros [?|[Hx Hout]]; [done|]. split; [by right|].
          intros [?|[Hfresh _]%Hnew]; [|done]. apply Hout. by right. }
    pose proof (pending_edges_visit (λ _ _, false) expand_fn walk_fn universe
                  expand_fn_support v
                  (visited ∖ list_to_set (v :: queue))) as Hvisit.
    rewrite length_app.
    assert (v ∉ visited ∖ list_to_set (v :: queue)) as Hvout.
    { rewrite elem_of_difference, elem_of_list_to_set. intros [_ Hout].
      apply Hout. left. }
    specialize (Hvisit Hvout). cbn [length] in Hfuel.
    unfold node_id in *. lia.
Qed.

End WalkOutcome.

Section WalkResult.

Context {A : Type}.
Variable expand_fn : node_id → list (node_id * bool).
Variable only_differentiable : bool.
Variable walk_fn : node_id → A.

(** What a walk yields is [walk_fn] of the nodes the identity walk
    yields. *)
Lemma Tensor_walk_fmap (repeat_visited : bool) (fuel : nat)
    (depth_first : bool) (self : node_id) :
  Tensor_walk expand_fn only_differentiable repeat_visited walk_fn fuel
              depth_first self
  = (λ l : list node_id, walk_fn <$> l)
      <$> Tensor_walk expand_fn only_differentiable repeat_visited id fuel
                      depth_first self.
Proof.
  unfold Tensor_walk. destruct depth_first.
  - apply walk_depth_first_fmap.
  - apply walk_breadth_first_fmap.
Qed.

(** The nodes of a walk without [repeat_visited]: [self] first, no node
    twice, and exactly the nodes reached from [self] along followed
    edges. *)
Lemma Tensor_walk_nodes (fuel : nat) (depth_first : bool) (self : node_id)
    (nodes : list node_id) :
  Tensor_walk expand_fn only_differentiable false id fuel depth_first self
  = Some nodes →
  head nodes = Some self
  ∧ NoDup nodes
  ∧ ∀ x, x ∈ nodes ↔ rtc (followed expand_fn only_differentiable) self x.
Proof.
  unfold Tensor_walk. destruct depth_first; intros Hwalk.
  - split_and!.
    + destruct fuel as [|fuel]; [done|]. simpl in Hwalk.
      rewrite bool_decide_eq_true_2 in Hwalk by apply not_elem_of_empty.
      destruct (walk_depth_first _ _ _ _ fuel _ _); [|done].
      by injection Hwalk as <-.
    + by apply walk_depth_first_once in Hwalk as [? _].
    + intros x.
      rewrite (walk_depth_first_reach _ _ _ _ _ _ Hwalk x),
        <-reaches_avoiding_rtc.
      split; [by intros (s & ->%list_elem_of_singleton & ?)|].
      intros ?. exists self. split; [left|done].
  - assert (∀ q, q ∈ [self] → q ∈ ({[self]} : gset node_id)) as Hsub.
    { intros q ->%list_elem_of_singleton. by apply elem_of_singleton. }
    split_and!.
    + destruct fuel as [|fuel]; [done|].
      destruct (walk_breadth_first_step expand_fn only_differentiable id
                  fuel self [] {[self]}) as (new & Heq & _).
      rewrite Heq in Hwalk.
      destruct (walk_breadth_first _ _ _ _ fuel _ _); [|done].
      by injection Hwalk as <-.
    + apply walk_breadth_first_once in Hwalk as [? _]; [done| |done].
      apply NoDup_singleton.
    + intros x.
      rewrite (walk_breadth_first_reach _ _ _ _ _ _ Hsub Hwalk x),
        <-reaches_avoiding_rtc.
      split.
      * intros [->%list_elem_of_singleton
               |(q & y & ->%list_elem_of_singleton & Hqy & Hyx)].
        -- by apply reaches_here, not_elem_of_empty.
        -- eapply reaches_step; [apply not_elem_of_empty|done|].
           eapply reaches_avoiding_mono; [|done]. by intros ? ?%elem_of_empty.
      * intros Hreach.
        destruct (reaches_avoiding_last _ _ _ {[self]} _ _ Hreach)
          as [Hout|(n & ->%elem_of_singleton & [->|(z & Hnz & Hzx)])].
        -- apply reaches_avoiding_start in Hout. destruct Hout.
           by apply elem_of_union_l, elem_of_singleton.
        -- left. left.
        -- right. exists self, z. split_and!; [left|done|].
           eapply reaches_avoiding_mono; [|done].
           intros ? ?. by apply elem_of_union_l.
Qed.

(** On a finite graph both orders end without [repeat_visited]. *)
Lemma Tensor_walk_terminates (universe : gset node_id)
    (depth_first : bool) (self : node_id) :
  (∀ v, v ∉ universe → expand_fn v = []) →
  ∃ fuel l,
    Tensor_walk expand_fn only_differentiable false walk_fn fuel depth_first
                self = Some l.
Proof.
  intros Hsupport. unfold Tensor_walk.
  exists (S (S (pending_edges expand_fn universe ∅))).
  destruct depth_first.
  - apply (walk_depth_first_terminates (λ _ _, false) expand_fn
             only_differentiable walk_fn universe Hsupport).
    cbn [length]. lia.
  - apply (walk_breadth_first_terminates expand_fn only_differentiable
             walk_fn universe Hsupport).
    + apply NoDup_singleton.
    + intros q ->%list_elem_of_singleton. by apply elem_of_singleton.
    + assert (({[self]} : gset node_id) ∖ list_to_set [self] = ∅) as ->.
      { apply set_eq. intros x.
        rewrite elem_of_difference, elem_of_list_to_set,
          list_elem_of_singleton, elem_of_singleton, elem_of_empty. tauto. }
      cbn [length]. lia.
Qed.

End WalkResult.

Lemma expand_parents_support (h : gmap node_id Tensor) (v : node_id) :
  v ∉ dom h → expand_parents h v = [].
Proof.
  intros Hv%not_elem_of_dom. unfold expand_parents. by rewrite Hv.
Qed.

Lemma expand_children_support (h : gmap node_id Tensor) (v : node_id) :
  v ∉ dom h → expand_children h v = [].
Proof.
  intros Hv%not_elem_of_dom. unfold expand_children. by rewrite Hv.
Qed.

(** X8.  A walk without [repeat_visited], in either order, yields
    [walk_fn] of a list of nodes that starts with [self], holds no node
    twice, and holds exactly the nodes that [self] reaches along the
    followed edges: every edge, or only the differentiable ones when
    [only_differentiable] is set. *)
Theorem walk_yields_reachable_nodes {A : Type}
    (expand_fn : node_id → list (node_id * bool))
    (only_differentiable depth_first : bool) (walk_fn : node_id → A)
    (fuel : nat) (self : node_id) (l : list A) :
  Tensor_walk expand_fn only_differentiable false walk_fn fuel depth_first
              self = Some l →
  ∃ nodes,
    l = walk_fn <$> nodes
    ∧ head nodes = Some self
    ∧ NoDup nodes
    ∧ ∀ x, x ∈ nodes ↔ rtc (followed expand_fn only_differentiable) self x.
Proof.
  rewrite Tensor_walk_fmap.
  destruct (Tensor_walk _ _ _ id _ _ _) as [nodes|] eqn:Hwalk; [|done].
  intros [= <-]. exists nodes. split; [done|].
  by eapply Tensor_walk_nodes.
Qed.

(** X9.  The order of a walk changes only the order of what it yields: the
    depth-first and the breadth-first walk from the same node yield the
    same values, each as often as the other. *)
Theorem walk_orders_agree {A : Type}
    (expand_fn : node_id → list (node_id * bool))
    (only_differentiable : bool) (walk_fn : node_id → A)
    (fuel fuel' : nat) (self : node_id) (l l' : list A) :
  Tensor_walk expand_fn only_differentiable false walk_fn fuel true self
  = Some l →
  Tensor_walk expand_fn only_differentiable false walk_fn fuel' false self
  = Some l' →
  l ≡ₚ l'.
Proof.
  rewrite (Tensor_walk_fmap _ _ walk_fn _ fuel),
    (Tensor_walk_fmap _ _ walk_fn _ fuel').
  destruct (Tensor_walk _ _ _ id fuel _ _) as [nodes|] eqn:Hwalk; [|done].
  destruct (Tensor_walk _ _ _ id fuel' _ _) as [nodes'|] eqn:Hwalk'; [|done].
  intros [= <-] [= <-]. apply fmap_Permutation.
  apply Tensor_walk_nodes in Hwalk as (_ & Hnd & Hin).
  apply Tensor_walk_nodes in Hwalk' as (_ & Hnd' & Hin').
  apply NoDup_Permutation; [done..|]. intros x. by rewrite Hin, Hin'.
Qed.

(** Following stored references from a stored node leads to stored
    nodes. *)
Lemma followed_parents_stored (h : gmap node_id Tensor)
    (only_differentiable : bool) (x y : node_id) :
  parents_stored h → stored h x →
  rtc (followed (expand_parents h) only_differentiable) x y → stored h y.
Proof.
  intros Hrefs Hx Hpath. induction Hpath as [x|x y z (d & Hedge & _) _ IH];
    [done|].
  apply IH. unfold expand_parents in Hedge.
  destruct (h !! x) as [t|] eqn:Ht; [|by apply elem_of_nil in Hedge].
  by eapply Hrefs.
Qed.

Lemma followed_children_stored (h : gmap node_id Tensor)
    (only_differentiable : bool) (x y : node_id) :
  children_stored h → stored h x →
  rtc (followed (expand_children h) only_differentiable) x y → stored h y.
Proof.
  intros Hrefs Hx Hpath. induction Hpath as [x|x y z (d & Hedge & _) _ IH];
    [done|].
  apply IH. unfold expand_children in Hedge.
  destruct (h !! x) as [t|] eqn:Ht; [|by apply elem_of_nil in Hedge].
  by eapply Hrefs.
Qed.

(** X10.  On a store whose parent references are stored, the walk of the
    parents of a stored node without [repeat_visited] ends, in either
    order and for every [walk_fn], and meets stored nodes only; likewise
    the walk of the children on a store whose child references are
    stored. *)
Theorem walks_of_a_store_end {A : Type} (h : gmap node_id Tensor)
    (self : node_id) (depth_first only_differentiable : bool)
    (walk_fn : node_id → A) :
  stored h self →
  (parents_stored h →
   ∃ fuel nodes,
     walk_parents h fuel self depth_first only_differentiable false walk_fn
     = Some (walk_fn <$> nodes)
     ∧ Forall (stored h) nodes)
  ∧ (children_stored h →
     ∃ fuel nodes,
       walk_children h fuel self depth_first only_differentiable false
                     walk_fn = Some (walk_fn <$> nodes)
       ∧ Forall (stored h) nodes).
Proof.
  intros Hself. split; intros Hrefs.
  - destruct (Tensor_walk_terminates (expand_parents h) only_differentiable
                id (dom h) depth_first self (expand_parents_support h))
      as (fuel & nodes & Hwalk).
    exists fuel, nodes. unfold walk_parents.
    rewrite Tensor_walk_fmap, Hwalk. split; [done|].
    apply Tensor_walk_nodes in Hwalk as (_ & _ & Hin).
    apply Forall_forall. intros x Hx%Hin.
    by eapply followed_parents_stored.
  - destruct (Tensor_walk_terminates (expand_children h) only_differentiable
                id (dom h) depth_first self (expand_children_support h))
      as (fuel & nodes & Hwalk).
    exists fuel, nodes. unfold walk_children.
    rewrite Tensor_walk_fmap, Hwalk. split; [done|].
    apply Tensor_walk_nodes in Hwalk as (_ & _ & Hin).
    apply Forall_forall. intros x Hx%Hin.
    by eapply followed_children_stored.
Qed.

Section RepeatedWalk.

Context {A : Type}.
Variable expand_fn : node_id → list (node_id * bool).
Variable only_differentiable : bool.
Variable walk_fn : node_id → A.

(** With [repeat_visited] the visited set is written and never read. *)
Lemma walk_depth_first_repeat_visited (fuel : nat) :
  ∀ (stack : list node_id) (visited visited' : gset node_id),
    walk_depth_first expand_fn only_differentiable true walk_fn fuel stack
                     visited
    = walk_depth_first expand_fn only_differentiable true walk_fn fuel stack
                       visited'.
Proof.
  induction fuel as [|fuel IH]; intros stack visited visited'; [done|].
  destruct stack as [|v stack]; [done|]. simpl.
  by rewrite (IH _ _ ({[v]} ∪ visited')).
Qed.

(** With [repeat_visited] the depth-first walk of a stack is the walk of
    its top part followed by the walk of the rest. *)
Lemma walk_depth_first_repeat_app (fuel1 : nat) :
  ∀ (stack1 : list node_id) (visited : gset node_id) (l1 : list A)
    (fuel2 : nat) (stack2 : list node_id) (l2 : list A),
    walk_depth_first expand_fn only_differentiable true walk_fn fuel1 stack1
                     visited = Some l1 →
    walk_depth_first expand_fn only_differentiable true walk_fn fuel2 stack2
                     visited = Some l2 →
    walk_depth_first expand_fn only_differentiable true walk_fn
                     (fuel1 + fuel2) (stack1 ++ stack2) visited
    = Some (l1 ++ l2).
Proof.
  induction fuel1 as [|fuel1 IH];
    intros stack1 visited l1 fuel2 stack2 l2; [done|].
  destruct stack1 as [|v stack1].
  - intros [= <-] Hwalk2. rewrite Nat.add_comm.
    by apply walk_depth_first_fuel.
  - simpl.
    destruct (walk_depth_first _ _ _ _ fuel1 _ _) as [l1'|] eqn:Hwalk1;
      [|done].
    intros [= <-] Hwalk2.
    rewrite (walk_depth_first_repeat_visited _ _ _ ({[v]} ∪ visited))
      in Hwalk2.
    by rewrite (assoc_L (++)), (IH _ _ _ _ _ _ Hwalk1 Hwalk2).
Qed.

(** The inner loop of the breadth-first branch with [repeat_visited]
    appends every followed node. *)
Lemma enqueue_repeat (edges : list (node_id * bool)) :
  ∀ (visited : gset node_id) (queue : list node_id),
    snd (fold_left (enqueue only_differentiable true) edges (visited, queue))
    = queue
      ++ (fst <$> filter (λ wd, orb (snd wd) (negb only_differentiable))
                         edges).
Proof.
  induction edges as [|[w d] edges IH]; intros visited queue; simpl.
  - by rewrite (right_id_L [] (++)).
  - rewrite filter_cons. simpl.
    destruct (d || negb only_differentiable) eqn:Hd; simpl.
    + by rewrite IH, <-(assoc_L (++)).
    + apply IH.
Qed.

Lemma walk_breadth_first_repeat_visited (fuel : nat) :
  ∀ (queue : list node_id) (visited visited' : gset node_id),
    walk_breadth_first expand_fn only_differentiable true walk_fn fuel queue
                       visited
    = walk_breadth_first expand_fn only_differentiable true walk_fn fuel
                         queue visited'.
Proof.
  induction fuel as [|fuel IH]; intros queue visited visited'; [done|].
  destruct queue as [|v queue]; [done|]. simpl.
  pose proof (enqueue_repeat (expand_fn v) visited queue) as Hq.
  pose proof (enqueue_repeat (expand_fn v) visited' queue) as Hq'.
  destruct (fold_left _ _ (visited, queue)) as [visited1 queue1].
  destruct (fold_left _ _ (visited', queue)) as [visited1' queue1'].
  simpl in *. subst. by rewrite (IH _ _ visited1').
Qed.

(** With [repeat_visited] the breadth-first walk goes level by level: the
    front part of the queue is yielded, and what it pushes is appended. *)
Lemma walk_breadth_first_repeat_level (front : list node_id) :
  ∀ (rest : list node_id) (fuel : nat) (visited : gset node_id),
    walk_breadth_first expand_fn only_differentiable true walk_fn
                       (length front + fuel) (front ++ rest) visited
    = (λ l, (walk_fn <$> front) ++ l)
        <$> walk_breadth_first expand_fn only_differentiable true walk_fn
              fuel
              (rest ++ (front ≫= pushed expand_fn only_differentiable))
              visited.
Proof.
  induction front as [|v front IH]; intros rest fuel visited; simpl.
  - rewrite (right_id_L [] (++)).
    by destruct (walk_breadth_first _ _ _ _ fuel _ _).
  - pose proof (enqueue_repeat (expand_fn v) visited (front ++ rest)) as Hq.
    destruct (fold_left _ _ _) as [visited1 queue1]. simpl in Hq. subst.
    rewrite <-(assoc_L (++)), IH, <-(assoc_L (++)).
    rewrite (walk_breadth_first_repeat_visited _ _ visited1 visited).
    by destruct (walk_breadth_first _ _ _ _ fuel _ _).
Qed.

(** The graph descends: every edge leads to a node of smaller rank. *)
Variable rank : node_id → nat.
Hypothesis edges_descend :
  ∀ v w d, (w, d) ∈ expand_fn v → rank w < rank v.

Lemma pushed_descend (v w : node_id) :
  w ∈ pushed expand_fn only_differentiable v → rank w < rank v.
Proof.
  unfold pushed. intros ([w' d] & -> & [_ Hin]%list_elem_of_filter)%list_elem_of_fmap.
  by eapply edges_descend.
Qed.

Lemma walk_depth_first_repeat_terminates (n : nat) :
  ∀ (stack : list node_id) (visited : gset node_id),
    Forall (λ v, rank v < n) stack →
    ∃ fuel l,
      walk_depth_first expand_fn only_differentiable true walk_fn fuel stack
                       visited = Some l.
Proof.
  induction n as [|n IHn]; intros stack visited Hstack.
  - destruct Hstack; [by exists 1, [] | lia].
  - induction Hstack as [|v stack Hv _ (fuel2 & l2 & Hwalk2)];
      [by exists 1, []|].
    destruct (IHn (rev (pushed expand_fn only_differentiable v))
                  ({[v]} ∪ visited)) as (fuel1 & l1 & Hwalk1).
    { apply Forall_forall. intros w Hw%elem_of_rev%pushed_descend. lia. }
    exists (S (fuel1 + fuel2)), (walk_fn v :: l1 ++ l2). simpl.
    rewrite (walk_depth_first_repeat_visited _ _ _ ({[v]} ∪ visited))
      in Hwalk2.
    by rewrite (walk_depth_first_repeat_app _ _ _ _ _ _ _ Hwalk1 Hwalk2).
Qed.

Lemma walk_breadth_first_repeat_terminates (n : nat) :
  ∀ (queue : list node_id) (visited : gset node_id),
    Forall (λ v, rank v < n) queue →
    ∃ fuel l,
      walk_breadth_first expand_fn only_differentiable true walk_fn fuel
                         queue visited = Some l.
Proof.
  induction n as [|n IHn]; intros queue visited Hqueue.
  - destruct Hqueue; [by exists 1, [] | lia].
  - destruct (IHn (queue ≫= pushed expand_fn only_differentiable) visited)
      as (fuel & l & Hwalk).
    { apply Forall_forall. intros w (v & Hw & Hv)%list_elem_of_bind.
      rewrite Forall_forall in Hqueue. apply Hqueue in Hv.
      apply pushed_descend in Hw. lia. }
    exists (length queue + fuel), ((walk_fn <$> queue) ++ l).
    pose proof (walk_breadth_first_repeat_level queue [] fuel visited)
      as Hlevel.
    rewrite (right_id_L [] (++)) in Hlevel. simpl in Hlevel.
    by rewrite Hlevel, Hwalk.
Qed.

Lemma Tensor_walk_repeat_terminates (depth_first : bool) (self : node_id) :
  ∃ fuel l,
    Tensor_walk expand_fn only_differentiable true walk_fn fuel depth_first
                self = Some l.
Proof.
  unfold Tensor_walk. destruct depth_first.
  - apply (walk_depth_first_repeat_terminates (S (rank self))).
    by repeat constructor.
  - apply (walk_breadth_first_repeat_terminates (S (rank self))).
    by repeat constructor.
Qed.

End RepeatedWalk.

(** X11.  On a consistent store the walks from a stored node end with
    [repeat_visited] too, in either order: the walk of the parents when the parent references are
    stored, the walk of the children when the child references are.
    Parents are older than their children, so no path comes back to a
    node. *)
Theorem repeated_walks_end_on_consistent_stores {A : Type} (w : world)
    (self : node_id) (depth_first only_differentiable : bool)
    (walk_fn : node_id → A) :
  store_consistent w → stored (heap w) self →
  (parents_stored (heap w) →
   ∃ fuel l,
     walk_parents (heap w) fuel self depth_first only_differentiable true
                  walk_fn = Some l)
  ∧ (children_stored (heap w) →
     ∃ fuel l,
       walk_children (heap w) fuel self depth_first only_differentiable true
                     walk_fn = Some l).
Proof.
  intros [Hheap _] _. split; intros _.
  - apply (Tensor_walk_repeat_terminates _ _ _ (λ v, v)).
    intros v p d. unfold expand_parents.
    destruct (heap w !! v) as [t|] eqn:Hv; [|by intros ?%elem_of_nil].
    destruct (Hheap v t Hv) as (_ & _ & Hparents & _). apply Hparents.
  - apply (Tensor_walk_repeat_terminates _ _ _ (λ v, next_id w - v)).
    intros v c d. unfold expand_children.
    destruct (heap w !! v) as [t|] eqn:Hv; [|by intros ?%elem_of_nil].
    destruct (Hheap v t Hv) as (_ & _ & _ & Hchildren).
    intros Hc%Hchildren. lia.
Qed.

(** ** Accumulated gradients *)

(** A loop over the items of a dictionary that either raises at an entry or
    stores one value per entry: it returns iff no entry raises, and then
    holds the value of every entry; when it raises, the exception is the
    one of some entry. *)
Lemma map_fold_entries {E V : Type} (f : string → torch_Tensor → E + V)
    (step : string → torch_Tensor → E + gmap string V → E + gmap string V)
    (m : gmap string torch_Tensor) :
  (∀ name grad r,
     step name grad r
     = match r with
       | inl e => inl e
       | inr r =>
           match f name grad with
           | inl e => inl e
           | inr v => inr (<[name := v]> r)
           end
       end) →
  match map_fold step (inr ∅) m with
  | inr r =>
      dom r = dom m
      ∧ ∀ name grad, m !! name = Some grad →
                     ∃ v, f name grad = inr v ∧ r !! name = Some v
  | inl e => ∃ name grad, m !! name = Some grad ∧ f name grad = inl e
  end.
Proof.
  intros Hstep.
  apply (map_fold_weak_ind
    (λ res m,
       match res with
       | inr r =>
           dom r = dom m
           ∧ ∀ name grad, m !! name = Some grad →
                          ∃ v, f name grad = inr v ∧ r !! name = Some v
       | inl e => ∃ name grad, m !! name = Some grad ∧ f name grad = inl e
       end)).
  - split; [by rewrite !dom_empty_L|]. intros name grad.
    by rewrite lookup_empty.
  - intros name grad m' res Hfresh IH. rewrite Hstep.
    destruct res as [e|r].
    + destruct IH as (name' & grad' & Hname' & He).
      exists name', grad'. split; [|done].
      rewrite lookup_insert_ne; [done|]. intros <-. congruence.
    + destruct IH as [Hdom Hentries].
      destruct (f name grad) as [e|v] eqn:Hf.
      * exists name, grad. by rewrite lookup_insert_eq.
      * split; [by rewrite !dom_insert_L, Hdom|].
        intros name' grad'. destruct (decide (name = name')) as [<-|Hne].
        -- rewrite !lookup_insert_eq. intros [= <-]. by exists v.
        -- rewrite !lookup_insert_ne by done. apply Hentries.
Qed.

Section Gradients.

Variable torch_mean : torch_Tensor → list nat → torch_Tensor.
Variables torch_sub torch_mul : torch_Tensor → torch_Tensor → torch_Tensor.
Variable torch_sum : torch_Tensor → list nat → torch_Tensor.
Variable torch_mean_all : torch_Tensor → torch_Tensor.

(** X12.  [total_expected_grad] of a stochastic node returns exactly when
    every accumulated gradient belongs to an attribute of the distribution;
    otherwise it raises the [AttributeError] of an accumulated gradient
    whose attribute is missing.  A node without accumulated gradients gets
    the empty mapping. *)
Theorem total_expected_grad_raises (self : Tensor) (n : Z)
    (distribution : gmap string torch_Tensor) (requires_grad : bool)
    (accum_grads : gmap string torch_Tensor) :
  kind self = Stochastic n distribution requires_grad accum_grads →
  ((∃ r, total_expected_grad torch_mean self = inr r)
   ↔ dom accum_grads ⊆ dom distribution)
  ∧ (∀ e, total_expected_grad torch_mean self = inl e →
          ∃ name, e = AttributeError name
                  ∧ name ∈ dom accum_grads ∧ name ∉ dom distribution)
  ∧ (accum_grads = ∅ → total_expected_grad torch_mean self = inr ∅).
Proof.
  intros Hkind. unfold total_expected_grad. rewrite Hkind.
  pose proof (map_fold_entries
    (λ name grad,
       match distribution !! name with
       | None => inl (AttributeError name)
       | Some tensor =>
           inr (if Nat.eqb (dim grad) (dim tensor) then grad
                else torch_mean grad (batch_dim_indices self))
       end)
    (expected_grad_step torch_mean distribution (batch_dim_indices self))
    accum_grads) as Hfold.
  destruct (map_fold _ _ accum_grads) as [e|r] eqn:Hres.
  - destruct Hfold as (name & grad & Hgrad & He).
    { intros name grad [e'|r']; [done|]. simpl.
      destruct (distribution !! name); [|done]. by destruct (_ =? _). }
    destruct (distribution !! name) eqn:Hname; [done|]. injection He as <-.
    split_and!.
    + split; [by intros [? [=]]|]. intros Hsub. exfalso.
      apply not_elem_of_dom in Hname. apply Hname, Hsub.
      by apply elem_of_dom.
    + intros e' [= <-]. exists name. split; [done|].
      split; [by apply elem_of_dom | by apply not_elem_of_dom].
    + intros ->. by rewrite lookup_empty in Hgrad.
  - destruct Hfold as [Hdom Hentries].
    { intros name grad [e'|r']; [done|]. simpl.
      destruct (distribution !! name); [|done]. by destruct (_ =? _). }
    split_and!.
    + split; [|by eexists]. intros _ name [grad Hgrad]%elem_of_dom.
      destruct (Hentries name grad Hgrad) as (v & Hv & _).
      apply elem_of_dom. by destruct (distribution !! name).
    + by intros e [=].
    + intros ->. f_equal. apply dom_empty_inv_L.
      by rewrite Hdom, dom_empty_L.
Qed.

(** X13.  [total_variance_grad] of a stochastic node returns exactly when
    every accumulated gradient belongs to an attribute of the distribution
    with a different number of dimensions.  Then [total_expected_grad]
    returns too, with the mean over the batch dimensions under every key,
    and the variance under a key is computed from the deviation of the
    gradient from that mean.  When it raises, it raises its own error for a
    gradient with as many dimensions as its attribute, or the
    [AttributeError] of a missing attribute. *)
Theorem total_variance_grad_outcome (self : Tensor) (n : Z)
    (distribution : gmap string torch_Tensor) (requires_grad : bool)
    (accum_grads : gmap string torch_Tensor) :
  kind self = Stochastic n distribution requires_grad accum_grads →
  let variance :=
    total_variance_grad torch_mean torch_sub torch_mul torch_sum
                        torch_mean_all self in
  ((∃ v, variance = inr v)
   ↔ ∀ name grad, accum_grads !! name = Some grad →
                  ∃ tensor, distribution !! name = Some tensor
                            ∧ dim grad ≠ dim tensor)
  ∧ (∀ v, variance = inr v →
          ∃ r, total_expected_grad torch_mean self = inr r
               ∧ dom v = dom accum_grads ∧ dom r = dom accum_grads
               ∧ ∀ name grad,
                   accum_grads !! name = Some grad →
                   ∃ expected,
                     r !! name = Some expected
                     ∧ expected = torch_mean grad (batch_dim_indices self)
                     ∧ v !! name
                       = Some (torch_mean_all
                                 (torch_sum
                                    (torch_mul (torch_sub grad expected)
                                               (torch_sub grad expected))
                                    (batch_dim_indices self))))
  ∧ (∀ e, variance = inl e →
          ∃ name grad,
            accum_grads !! name = Some grad
            ∧ ((e = NoBatchedDimensions
                ∧ ∃ tensor, distribution !! name = Some tensor
                            ∧ dim grad = dim tensor)
               ∨ (e = Raised (AttributeError name)
                  ∧ distribution !! name = None))).
Proof.
  intros Hkind variance. subst variance.
  unfold total_variance_grad, total_expected_grad. rewrite Hkind.
  set (indices := batch_dim_indices self).
  pose proof (map_fold_entries
    (λ name grad,
       match distribution !! name with
       | None => inl (Raised (AttributeError name))
       | Some tensor =>
           if Nat.eqb (dim grad) (dim tensor) then inl NoBatchedDimensions
           else
             inr (torch_mean_all
                    (torch_sum
                       (torch_mul (torch_sub grad (torch_mean grad indices))
                                  (torch_sub grad (torch_mean grad indices)))
                       indices))
       end)
    (variance_grad_step torch_mean torch_sub torch_mul torch_sum
                        torch_mean_all distribution indices)
    accum_grads) as Hfold.
  destruct (map_fold (variance_grad_step _ _ _ _ _ _ _) _ accum_grads)
    as [e|v] eqn:Hres.
  - destruct Hfold as (name & grad & Hgrad & He).
    { intros name grad [e'|r']; [done|]. simpl.
      destruct (distribution !! name); [|done]. by destruct (_ =? _). }
    split_and!.
    + split; [by intros [? [=]]|]. intros Hall. exfalso.
      destruct (Hall name grad Hgrad) as (tensor & Htensor & Hdim).
      rewrite Htensor in He.
      by destruct (Nat.eqb_spec (dim grad) (dim tensor)).
    + by intros v [=].
    + intros e' [= <-]. exists name, grad. split; [done|].
      destruct (distribution !! name) as [tensor|]; [|right; by simplify_eq].
      left. destruct (Nat.eqb_spec (dim grad) (dim tensor)); [|done].
      injection He as <-. split; [done|]. by exists tensor.
  - destruct Hfold as [Hdom Hentries].
    { intros name grad [e'|r']; [done|]. simpl.
      destruct (distribution !! name); [|done]. by destruct (_ =? _). }
    assert (Hall : ∀ name grad, accum_grads !! name = Some grad →
              ∃ tensor, distribution !! name = Some tensor
                        ∧ dim grad ≠ dim tensor).
    { intros name grad Hgrad.
      destruct (Hentries name grad Hgrad) as (x & Hx & _).
      destruct (distribution !! name) as [tensor|]; [|done].
      exists tensor. split; [done|].
      by destruct (Nat.eqb_spec (dim grad) (dim tensor)). }
    split_and!.
    + split; [done | by eexists].
    + intros v' [= <-].
      destruct (total_expected_grad_entries torch_mean distribution indices
                  accum_grads) as (r & -> & Hr).
      { intros name grad Hgrad.
        by destruct (Hall name grad Hgrad) as (tensor & -> & _). }
      exists r. split; [done|]. split; [done|]. split.
      * apply set_eq. intros name. rewrite !elem_of_dom, Hr.
        destruct (accum_grads !! name) as [grad|] eqn:Hgrad; simpl.
        -- destruct (Hall name grad Hgrad) as (tensor & -> & _). simpl.
           split; by eexists.
        -- split; by intros [? ?].
      * intros name grad Hgrad.
        destruct (Hall name grad Hgrad) as (tensor & Htensor & Hdim).
        destruct (Hentries name grad Hgrad) as (x & Hx & Hv).
        exists (torch_mean grad indices). rewrite Hr, Hgrad. simpl.
        rewrite Htensor in *. simpl.
        rewrite decide_False by done. split; [done|]. split; [done|].
        destruct (Nat.eqb_spec (dim grad) (dim tensor)); [done|].
        by injection Hx as <-.
    + by intros e [=].
Qed.

End Gradients.

(** ** What the constructors leave alone *)

Section Frame.

Variable has_backwards_path : node_id → node_id → bool.

(** The subclass constructors touch the store only through the base
    constructor. *)
Lemma constructors_through_base (Q : gmap node_id Tensor → Prop)
    (self : node_id) (tensor : torch_Tensor) (parents : list node_id)
    (links : list Plate) (name : option string) (plate_name : string)
    (cost : bool) (distribution : gmap string torch_Tensor)
    (requires_grad : bool) (n : Z) (w : world) :
  Q (heap w) →
  (∀ links' name' k w' r,
     Tensor__init__ has_backwards_path self tensor parents links' name' k w
     = (w', r) → Q (heap w')) →
  Q (heap (fst (Tensor__init__ has_backwards_path self tensor parents links
                               name BaseTensor w)))
  ∧ Q (heap (fst (DeterministicTensor__init__ has_backwards_path self tensor
                    parents links cost name w)))
  ∧ Q (heap (fst (IndependentTensor__init__ has_backwards_path self tensor
                    parents links plate_name w)))
  ∧ Q (heap (fst (StochasticTensor__init__ has_backwards_path self tensor
                    parents links distribution requires_grad n plate_name
                    w))).
Proof.
  intros Hw Hbase. split_and!.
  - destruct (Tensor__init__ _ _ _ _ _ _ _ _) as [w' r] eqn:Hinit.
    by eapply Hbase.
  - unfold DeterministicTensor__init__.
    destruct (Tensor__init__ _ _ _ _ _ _ _ _) as [w' [e|[]]] eqn:Hinit.
    + by eapply Hbase.
    + apply Hbase in Hinit. destruct (cost && _); [|done].
      by destruct (negb _).
  - unfold IndependentTensor__init__. destruct (shape tensor); [done|].
    destruct (name_in_use _ _); [done|].
    destruct (Tensor__init__ _ _ _ _ _ _ _ _) as [w' r] eqn:Hinit.
    by eapply Hbase.
  - unfold StochasticTensor__init__.
    destruct (name_in_use _ _); [done|].
    destruct (Tensor__init__ _ _ _ _ _ _ _ _) as [w' r] eqn:Hinit.
    by eapply Hbase.
Qed.

Lemma only_appends_children_refl (self : node_id) (h : gmap node_id Tensor) :
  only_appends_children self h h.
Proof. intros x t _ Hx. by exists t. Qed.

Lemma Tensor__init__only_appends (self : node_id) (tensor : torch_Tensor)
    (parents : list node_id) (links : list Plate) (name : option string)
    (k : variant) (w w' : world) (r : exn + unit) :
  Tensor__init__ has_backwards_path self tensor parents links name k w
  = (w', r) →
  only_appends_children self (heap w) (heap w').
Proof.
  intros Hinit x t Hx Ht.
  apply Tensor__init__effect in Hinit as (_ & _ & _ & Heffect).
  assert (∃ linked,
            heap w' !! x
            = add_children self (has_backwards_path self x)
                           (occurrences x linked) <$> heap w !! x)
    as [linked Hheap].
  { destruct r as [e|[]].
    - assert ((∀ x, heap w' !! x
                    = add_children self (has_backwards_path self x)
                        (occurrences x (linked_parents (heap w) parents))
                      <$> heap w !! x)
              ∨ w' = w) as [Hheap' | ->].
      { destruct e as [[]| | |]; destruct Heffect as [H1 H2];
          first [by right | by left]. }
      + by eexists.
      + exists []. destruct (heap w !! x); [|done]. simpl.
        by rewrite add_children_0.
    - destruct Heffect as (_ & bl & _ & _ & Hothers). exists parents.
      by apply Hothers. }
  rewrite Hheap, Ht. eexists. split; [done|]. split; [done|].
  by eexists.
Qed.

Lemma only_appends_children_beside (self : node_id)
    (h h' : gmap node_id Tensor) :
  only_appends_children self h h' →
  only_appends_children_beside_plates self h h'.
Proof.
  intros Happends x t Hx Ht.
  destruct (Happends x t Hx Ht) as (t' & Ht' & Hsame & Hprefix).
  exists t'. by rewrite Hsame.
Qed.

(** X17.  None of the four constructors, called over stored parents,
    removes a stored object or changes the name, tensor, parents,
    [batch_len], [event_shape] or class attributes of one, whether it
    returns or raises: the children of a stored object may only grow at the
    end.  The base and the deterministic constructor leave the plates of
    the stored objects alone too; for the independent and the stochastic
    constructor, which insert into the list they are given, nothing is
    said of the plates.  Every call allocates exactly one object and leaves
    the gradient mode alone, and a constructor that returns yields the
    object it allocated. *)
Theorem constructors_only_append_children (tensor : torch_Tensor)
    (parents : list node_id) (links : list Plate) (name : option string)
    (plate_name : string) (cost : bool)
    (distribution : gmap string torch_Tensor) (requires_grad : bool) (n : Z)
    (w : world) :
  Forall (stored (heap w)) parents →
  let outcome (appends : node_id → gmap node_id Tensor →
                         gmap node_id Tensor → Prop)
              (wr : world * (exn + node_id)) :=
    appends (next_id w) (heap w) (heap (fst wr))
    ∧ next_id (fst wr) = S (next_id w)
    ∧ grad_enabled (fst wr) = grad_enabled w
    ∧ ∀ self, snd wr = inr self → self = next_id w in
  outcome only_appends_children
          (new_Tensor has_backwards_path tensor parents links name w)
  ∧ outcome only_appends_children
            (new_DeterministicTensor has_backwards_path tensor parents links
                                     cost name w)
  ∧ outcome only_appends_children_beside_plates
            (new_IndependentTensor has_backwards_path tensor parents links
                                   plate_name w)
  ∧ outcome only_appends_children_beside_plates
            (new_StochasticTensor has_backwards_path tensor parents links
                                  distribution requires_grad n plate_name w).
Proof.
  intros _ outcome. subst outcome. cbv beta.
  destruct (constructors_through_base
              (only_appends_children (next_id w) (heap w)) (next_id w) tensor
              parents links name plate_name cost distribution requires_grad
              n (snd (Tensor__new__ w)))
    as (Happ1 & Happ2 & Happ3 & Happ4).
  { apply only_appends_children_refl. }
  { intros links' name' k w' r.
    apply (Tensor__init__only_appends (next_id w) tensor parents links' name'
             k (snd (Tensor__new__ w)) w' r). }
  assert (Hbase : ∀ links' name' k w' r,
    Tensor__init__ has_backwards_path (next_id w) tensor parents links' name'
                   k (snd (Tensor__new__ w)) = (w', r) →
    next_id w' = S (next_id w) ∧ grad_enabled w' = grad_enabled w).
  { intros links' name' k w' r Hinit.
    apply Tensor__init__effect in Hinit as (Hnext & _ & Hgrad & _).
    by rewrite Hnext, Hgrad. }
  apply only_appends_children_beside in Happ3, Happ4.
  unfold new_Tensor, new_DeterministicTensor, new_IndependentTensor,
    new_StochasticTensor. simpl in Happ1, Happ2, Happ3, Happ4.
  cbn [Tensor__new__]. split; [|split; [|split]].
  - clear Happ2 Happ3 Happ4.
    destruct (Tensor__init__ _ _ _ _ _ _ _ _) as [w' r] eqn:Hinit.
    apply Hbase in Hinit as [Hnext Hgrad].
    destruct r as [e|[]]; simpl; split_and!; try done; by intros ? [=].
  - clear Happ1 Happ3 Happ4. unfold DeterministicTensor__init__ in *.
    destruct (Tensor__init__ _ _ _ _ _ _ _ _) as [w' r] eqn:Hinit.
    apply Hbase in Hinit as [Hnext Hgrad].
    destruct r as [e|[]]; simpl.
    + split_and!; try done.
    + destruct (cost && grad_enabled w'); [destruct (negb (truthy name))|];
        simpl in *; split_and!; try done; by intros ? [=].
  - clear Happ1 Happ2 Happ4. unfold IndependentTensor__init__ in *.
    destruct (shape tensor); [simpl; by split_and!|].
    destruct (name_in_use _ _); [simpl; by split_and!|].
    destruct (Tensor__init__ _ _ _ _ _ _ _ _) as [w' r] eqn:Hinit.
    apply Hbase in Hinit as [Hnext Hgrad].
    destruct r as [e|[]]; simpl; split_and!; try done; by intros ? [=].
  - clear Happ1 Happ2 Happ3. unfold StochasticTensor__init__ in *.
    destruct (name_in_use _ _); [simpl; by split_and!|].
    destruct (Tensor__init__ _ _ _ _ _ _ _ _) as [w' r] eqn:Hinit.
    apply Hbase in Hinit as [Hnext Hgrad].
    destruct r as [e|[]]; simpl; split_and!; try done; by intros ? [=].
Qed.

End Frame.

(** ** Parents and children mirror each other *)

Section Mirror.

Variable has_backwards_path : node_id → node_id → bool.

Lemma occurrences_elem_of (x : node_id) (l : list node_id) :
  x ∈ l → occurrences x l ≠ 0.
Proof.
  induction l as [|p l IH]; [by intros ?%elem_of_nil|].
  rewrite occurrences_cons. intros [->|Hin]%elem_of_cons.
  - by rewrite decide_True.
  - destruct (decide (p = x)); [done | by apply IH].
Qed.

(** A property of the store and of the outcome that the base constructor
    establishes is established by the four constructors. *)
Lemma constructors_outcome (R : gmap node_id Tensor → bool → Prop)
    (tensor : torch_Tensor) (parents : list node_id) (links : list Plate)
    (name : option string) (plate_name : string) (cost : bool)
    (distribution : gmap string torch_Tensor) (requires_grad : bool) (n : Z)
    (w : world) :
  R (heap w) false →
  (∀ links' name' k w' r,
     Tensor__init__ has_backwards_path (next_id w) tensor parents links'
                    name' k (snd (Tensor__new__ w)) = (w', r) →
     R (heap w') (failed_on_cost_parent r)) →
  let outcome (wr : world * (exn + node_id)) :=
    R (heap (fst wr)) (failed_on_cost_parent (snd wr)) in
  outcome (new_Tensor has_backwards_path tensor parents links name w)
  ∧ outcome (new_DeterministicTensor has_backwards_path tensor parents links
                                     cost name w)
  ∧ outcome (new_IndependentTensor has_backwards_path tensor parents links
                                   plate_name w)
  ∧ outcome (new_StochasticTensor has_backwards_path tensor parents links
                                  distribution requires_grad n plate_name w).
Proof.
  intros Hw Hbase outcome. subst outcome. cbv beta.
  unfold new_Tensor, new_DeterministicTensor, new_IndependentTensor,
    new_StochasticTensor. cbn [Tensor__new__].
  split; [|split; [|split]].
  - destruct (Tensor__init__ _ _ _ _ _ _ _ _) as [w' r] eqn:Hinit.
    apply Hbase in Hinit. by destruct r as [e|[]].
  - unfold DeterministicTensor__init__.
    destruct (Tensor__init__ _ _ _ _ _ _ _ _) as [w' r] eqn:Hinit.
    apply Hbase in Hinit. destruct r as [e|[]]; [done|].
    destruct (cost && grad_enabled w'); [|done].
    by destruct (negb (truthy name)).
  - unfold IndependentTensor__init__. destruct (shape tensor); [done|].
    destruct (name_in_use _ _); [done|].
    destruct (Tensor__init__ _ _ _ _ _ _ _ _) as [w' r] eqn:Hinit.
    apply Hbase in Hinit. by destruct r as [e|[]].
  - unfold StochasticTensor__init__.
    destruct (name_in_use _ _); [done|].
    destruct (Tensor__init__ _ _ _ _ _ _ _ _) as [w' r] eqn:Hinit.
    apply Hbase in Hinit. by destruct r as [e|[]].
Qed.

Lemma edges_mirrored_add_children (h h' : gmap node_id Tensor)
    (self : node_id) (linked : list node_id) :
  edges_mirrored h → h !! self = None →
  (∀ x, x ≠ self →
     h' !! x = add_children self (has_backwards_path self x)
                            (occurrences x linked) <$> h !! x) →
  ∀ (c p : node_id) tc tp d,
    c ≠ self → p ≠ self → h' !! c = Some tc → h' !! p = Some tp →
    (p, d) ∈ _parents tc ↔ (c, d) ∈ _children tp.
Proof.
  intros Hmirror Hfresh Hothers c p tc tp d Hc Hp.
  rewrite (Hothers c Hc), (Hothers p Hp).
  destruct (h !! c) as [tc0|] eqn:Htc; [|done].
  destruct (h !! p) as [tp0|] eqn:Htp; [|done].
  intros [= <-] [= <-]. simpl.
  rewrite (Hmirror c p tc0 tp0 d Htc Htp), elem_of_app, elem_of_replicate.
  split; [by left|]. intros [?|[[= ? _] _]]; [done|]. by subst.
Qed.

(** The base constructor, run on a freshly allocated object over allocated
    parents, keeps the edges mirrored whatever its outcome. *)
Lemma Tensor__init__mirrored (tensor : torch_Tensor)
    (parents : list node_id) (links : list Plate) (name : option string)
    (k : variant) (w w' : world) (r : exn + unit) :
  store_consistent w → allocated w parents → edges_mirrored (heap w) →
  Tensor__init__ has_backwards_path (next_id w) tensor parents links name k
                 (snd (Tensor__new__ w)) = (w', r) →
  edges_mirrored (heap w').
Proof.
  intros [Hheap _] Hparents Hmirror Hinit.
  assert (heap w !! next_id w = None) as Hfresh.
  { destruct (heap w !! next_id w) as [t|] eqn:Hself; [|done].
    destruct (Hheap _ _ Hself). lia. }
  unfold allocated in Hparents. rewrite Forall_forall in Hparents.
  apply Tensor__init__effect in Hinit as (_ & _ & _ & Heffect).
  simpl in Heffect.
  destruct r as [e|[]].
  - assert ((∀ x, heap w' !! x
                  = add_children (next_id w)
                      (has_backwards_path (next_id w) x)
                      (occurrences x (linked_parents (heap w) parents))
                    <$> heap w !! x)
            ∨ w' = snd (Tensor__new__ w)) as [Hheap' | ->]; [| |done].
    { destruct e as [[]| | |]; destruct Heffect as [H1 H2];
        first [by right | by left]. }
    intros c p tc tp d Hc Hp.
    assert (c ≠ next_id w) as Hcne.
    { intros ->. by rewrite Hheap', Hfresh in Hc. }
    assert (p ≠ next_id w) as Hpne.
    { intros ->. by rewrite Hheap', Hfresh in Hp. }
    by apply (edges_mirrored_add_children (heap w) (heap w') (next_id w)
                (linked_parents (heap w) parents)).
  - destruct Heffect as (_ & bl & _ & Hself & Hothers).
    intros c p tc tp d Hc Hp.
    destruct (decide (c = next_id w)) as [->|Hcne];
      destruct (decide (p = next_id w)) as [->|Hpne].
    + rewrite Hself in Hc, Hp. injection Hc as <-. injection Hp as <-.
      simpl. split; [|by intros ?%elem_of_nil].
      intros [p' [[= <- _] Hin%Hparents]]%list_elem_of_fmap. lia.
    + rewrite Hself in Hc. injection Hc as <-.
      rewrite (Hothers p Hpne) in Hp.
      destruct (heap w !! p) as [tp0|] eqn:Htp; [|done].
      injection Hp as <-. simpl.
      rewrite list_elem_of_fmap, elem_of_app, elem_of_replicate. split.
      * intros [p' [[= <- ->] Hin]]. right. split; [done|].
        by apply occurrences_elem_of.
      * intros [Hold|[[= ->] Hocc%occurrences_some]]; [|by exists p].
        destruct (Hheap p tp0 Htp) as (_ & _ & _ & Hchildren).
        destruct (Hchildren _ _ Hold). lia.
    + rewrite Hself in Hp. injection Hp as <-.
      rewrite (Hothers c Hcne) in Hc.
      destruct (heap w !! c) as [tc0|] eqn:Htc; [|done].
      injection Hc as <-. simpl. split; [|by intros ?%elem_of_nil].
      intros Hin. destruct (Hheap c tc0 Htc) as (Hlt & _ & Hps & _).
      apply Hps in Hin. lia.
    + by apply (edges_mirrored_add_children (heap w) (heap w') (next_id w)
                  parents).
Qed.

(** Stored objects stay stored. *)
Lemma Tensor__init__stored (self : node_id) (tensor : torch_Tensor)
    (parents : list node_id) (links : list Plate) (name : option string)
    (k : variant) (w w' : world) (r : exn + unit) (x : node_id) :
  Tensor__init__ has_backwards_path self tensor parents links name k w
  = (w', r) →
  stored (heap w) x → x ≠ self → stored (heap w') x.
Proof.
  intros Hinit [t Hx] Hne.
  destruct (Tensor__init__only_appends has_backwards_path self tensor
              parents links name k w w' r Hinit x t Hne Hx) as (t' & Ht' & _).
  by exists t'.
Qed.

(** The base constructor, run on a fresh object over stored parents, keeps
    the parent references stored; it keeps the child references stored
    unless it fails on a cost node among the parents. *)
Lemma Tensor__init__references (self : node_id) (tensor : torch_Tensor)
    (parents : list node_id) (links : list Plate) (name : option string)
    (k : variant) (w w' : world) (r : exn + unit) :
  heap w !! self = None → Forall (stored (heap w)) parents →
  Tensor__init__ has_backwards_path self tensor parents links name k w
  = (w', r) →
  (parents_stored (heap w) → parents_stored (heap w'))
  ∧ (children_stored (heap w) → failed_on_cost_parent r = false →
     children_stored (heap w')).
Proof.
  intros Hfresh Hparents Hinit. rewrite Forall_forall in Hparents.
  assert (Hkept : ∀ x, stored (heap w) x → stored (heap w') x).
  { intros x Hx. eapply Tensor__init__stored; [done..|].
    intros ->. destruct Hx as [t Hx]. congruence. }
  pose proof (Tensor__init__only_appends has_backwards_path self tensor
                parents links name k w w' r Hinit) as Happends.
  apply Tensor__init__effect in Hinit as (_ & _ & _ & Heffect).
  destruct r as [e|[]].
  - assert ((∀ x, heap w' !! x
                  = add_children self (has_backwards_path self x)
                      (occurrences x (linked_parents (heap w) parents))
                    <$> heap w !! x)
            ∧ e = ValueError CostNodesCannotHaveChildren
            ∨ w' = w) as [[Hheap' ->] | ->]; [| |done].
    { destruct e as [[]| | |]; destruct Heffect as [H1 H2];
        first [by right | by left]. }
    split; [|done]. intros Hrefs x t' p d. rewrite Hheap'.
    destruct (heap w !! x) as [t|] eqn:Hx; [|done]. intros [= <-]. simpl.
    intros Hp. apply Hkept. by eapply Hrefs.
  - destruct Heffect as (_ & bl & _ & Hself & Hothers). split.
    + intros Hrefs x t' p d.
      destruct (decide (x = self)) as [->|Hne].
      * rewrite Hself. intros [= <-]. simpl.
        intros [p' [[= -> _] Hin]]%list_elem_of_fmap.
        by apply Hkept, Hparents.
      * rewrite (Hothers x Hne).
        destruct (heap w !! x) as [t|] eqn:Hx; [|done]. intros [= <-].
        simpl. intros Hp. apply Hkept. by eapply Hrefs.
    + intros Hrefs _ x t' c d.
      destruct (decide (x = self)) as [->|Hne].
      * rewrite Hself. intros [= <-]. simpl. by intros ?%elem_of_nil.
      * rewrite (Hothers x Hne).
        destruct (heap w !! x) as [t|] eqn:Hx; [|done]. intros [= <-].
        simpl. intros [Hc|[[= -> _] _]%elem_of_replicate]%elem_of_app.
        -- apply Hkept. by eapply Hrefs.
        -- by eexists.
Qed.

(** X18.  Each of the four constructors, called on a consistent store over
    stored parents, keeps the graph well formed.  Whether it returns or
    raises, the edges stay mirrored: between stored nodes, [p] is among the
    parents of [c] exactly when [c] is among the children of [p], with the
    same flag; and the parent references stay stored.  The child
    references stay stored unless the constructor fails on a cost node
    among the parents. *)
Theorem constructors_keep_edges_mirrored (tensor : torch_Tensor)
    (parents : list node_id) (links : list Plate) (name : option string)
    (plate_name : string) (cost : bool)
    (distribution : gmap string torch_Tensor) (requires_grad : bool) (n : Z)
    (w : world) :
  store_consistent w → Forall (stored (heap w)) parents →
  edges_mirrored (heap w) →
  let outcome (wr : world * (exn + node_id)) :=
    edges_mirrored (heap (fst wr))
    ∧ (parents_stored (heap w) → parents_stored (heap (fst wr)))
    ∧ (children_stored (heap w) → failed_on_cost_parent (snd wr) = false →
       children_stored (heap (fst wr))) in
  outcome (new_Tensor has_backwards_path tensor parents links name w)
  ∧ outcome (new_DeterministicTensor has_backwards_path tensor parents links
                                     cost name w)
  ∧ outcome (new_IndependentTensor has_backwards_path tensor parents links
                                   plate_name w)
  ∧ outcome (new_StochasticTensor has_backwards_path tensor parents links
                                  distribution requires_grad n plate_name w).
Proof.
  intros Hw Hparents Hmirror.
  assert (heap w !! next_id w = None) as Hfresh.
  { destruct (heap w !! next_id w) as [t|] eqn:Hself; [|done].
    destruct Hw as [Hw _]. destruct (Hw _ _ Hself). lia. }
  apply (constructors_outcome
           (λ h' failed,
              edges_mirrored h'
              ∧ (parents_stored (heap w) → parents_stored h')
              ∧ (children_stored (heap w) → failed = false →
                 children_stored h'))); [done|].
  intros links' name' k w' r Hinit. split.
  - exact (Tensor__init__mirrored tensor parents links' name' k w w' r Hw
             (stored_allocated w parents (store_consistent_ordered w Hw)
                Hparents) Hmirror Hinit).
  - exact (Tensor__init__references (next_id w) tensor parents links' name'
             k (snd (Tensor__new__ w)) w' r Hfresh Hparents Hinit).
Qed.

End Mirror.

Section Inverse.

Variables forward backward : node_id → list (node_id * bool).
Variable only_differentiable : bool.
Variable known : node_id → Prop.

Hypothesis forward_known : ∀ x y d, (y, d) ∈ forward x → known x.
Hypothesis mirrored :
  ∀ x y d, known x → known y → (y, d) ∈ forward x → (x, d) ∈ backward y.

(** A path along the forward edges to a known node is a path along the
    backward edges, read from its end. *)
Lemma rtc_followed_inverse (x y : node_id) :
  rtc (followed forward only_differentiable) x y → known y →
  rtc (followed backward only_differentiable) y x.
Proof.
  induction 1 as [x|x x' y (d & Hedge & Hd) Hpath IH]; intros Hy; [done|].
  eapply rtc_r; [by apply IH|]. exists d. split; [|done].
  apply mirrored; [by eapply forward_known| |done].
  destruct Hpath as [|x' x'' y (d' & Hedge' & _) _]; [done|].
  by eapply forward_known.
Qed.

End Inverse.

(** X19.  On a store with mirrored edges and stored references, walking
    children is the inverse of walking parents: for stored nodes [c] and
    [p], a walk of the parents of [c] yields [p] exactly when a walk of
    the children of [p] yields [c], whatever the orders of the two
    walks. *)
Theorem walks_are_inverse (h : gmap node_id Tensor) (c p : node_id)
    (depth_first depth_first' only_differentiable : bool)
    (fuel fuel' : nat) (up down : list node_id) :
  edges_mirrored h → parents_stored h → children_stored h →
  stored h c → stored h p →
  walk_parents h fuel c depth_first only_differentiable false id = Some up →
  walk_children h fuel' p depth_first' only_differentiable false id
  = Some down →
  p ∈ up ↔ c ∈ down.
Proof.
  intros Hmirror _ _ Hc Hp Hup Hdown.
  apply Tensor_walk_nodes in Hup as (_ & _ & ->).
  apply Tensor_walk_nodes in Hdown as (_ & _ & ->).
  split; intros Hpath.
  - apply (rtc_followed_inverse (expand_parents h) (expand_children h)
             only_differentiable (stored h)); [| |done..].
    + intros x y d. unfold expand_parents, stored.
      destruct (h !! x); [by eexists | by intros ?%elem_of_nil].
    + intros x y d [tx Hx] [ty Hy]. unfold expand_parents, expand_children.
      rewrite Hx, Hy. by apply Hmirror.
  - apply (rtc_followed_inverse (expand_children h) (expand_parents h)
             only_differentiable (stored h)); [| |done..].
    + intros x y d. unfold expand_children, stored.
      destruct (h !! x); [by eexists | by intros ?%elem_of_nil].
    + intros x y d [tx Hx] [ty Hy]. unfold expand_parents, expand_children.
      rewrite Hx, Hy. by apply Hmirror.
Qed.

(** ** Sampling nodes after their construction *)

Section SamplingNodes.

Variable has_backwards_path : node_id → node_id → bool.
Variable torch_mean : torch_Tensor → list nat → torch_Tensor.
Variables torch_sub torch_mul : torch_Tensor → torch_Tensor → torch_Tensor.
Variable torch_sum : torch_Tensor → list nat → torch_Tensor.
Variable torch_mean_all : torch_Tensor → torch_Tensor.

(** X20.  A stochastic node that was constructed over stored parents
    carries the sample count [n] it was given, which is 1 or the size of
    the first dimension of its tensor; it is stochastic and no cost node,
    and it has no accumulated gradients yet, so that [total_expected_grad]
    and [total_variance_grad] return empty mappings.  An independent node
    that was constructed carries as [n] the size of the first dimension of
    its tensor. *)
Theorem sampling_nodes_after_construction (tensor : torch_Tensor)
    (parents : list node_id) (links : list Plate)
    (distribution : gmap string torch_Tensor) (requires_grad : bool) (n : Z)
    (name : string) (w w' : world) (self : node_id) :
  Forall (stored (heap w)) parents →
  (new_StochasticTensor has_backwards_path tensor parents links distribution
                        requires_grad n name w = (w', inr self) →
   ∃ node,
     heap w' !! self = Some node
     ∧ attr_n node = inr n
     ∧ (n = 1%Z ∨ shape tensor !! 0 = Some n)
     ∧ _name node = Some name
     ∧ stochastic node = true ∧ is_cost node = false
     ∧ total_expected_grad torch_mean node = inr ∅
     ∧ total_variance_grad torch_mean torch_sub torch_mul torch_sum
                           torch_mean_all node = inr ∅)
  ∧ (new_IndependentTensor has_backwards_path tensor parents links name w
     = (w', inr self) →
     ∃ node d,
       heap w' !! self = Some node
       ∧ shape tensor !! 0 = Some d
       ∧ attr_n node = inr d
       ∧ _name node = Some name
       ∧ batch_links node = (name, d) :: links
       ∧ stochastic node = false ∧ is_cost node = false).
Proof.
  intros _. split.
  - unfold new_StochasticTensor, StochasticTensor__init__.
    cbn [Tensor__new__].
    destruct (name_in_use _ _); [done|].
    destruct (Tensor__init__ _ _ _ _ _ _ _ _) as [w1 [e|[]]] eqn:Hinit;
      [done|].
    intros [= <- <-].
    pose proof (Tensor__init__links _ _ _ _ _ _ _ _ _ Hinit)
      as (node & Hnode & _ & Hkind & Hname).
    apply Tensor__init__node_consistent in Hinit
      as (node' & Hnode' & (_ & _ & _ & Hdims) & Htensor & Hlinks).
    rewrite Hnode in Hnode'. injection Hnode' as <-.
    exists node. unfold attr_n, stochastic, is_cost, total_expected_grad,
      total_variance_grad. rewrite Hkind.
    split_and!; try done.
    destruct (decide (n = 1%Z)) as [|Hn]; [by left|]. right.
    specialize (Hdims 0 name n). rewrite Hlinks, Htensor in Hdims.
    by apply Hdims.
  - unfold new_IndependentTensor, IndependentTensor__init__.
    cbn [Tensor__new__].
    destruct (shape tensor) as [|d rest] eqn:Hshape; [done|].
    destruct (name_in_use _ _); [done|].
    destruct (Tensor__init__ _ _ _ _ _ _ _ _) as [w1 [e|[]]] eqn:Hinit;
      [done|].
    intros [= <- <-].
    apply Tensor__init__links in Hinit
      as (node & Hnode & Hlinks & Hkind & Hname).
    exists node, d. unfold attr_n, stochastic, is_cost. rewrite Hkind.
    by split_and!.
Qed.

End SamplingNodes.

(** * Further instances *)

Lemma well_formed_empty (grad : bool) : well_formed (empty_world grad).
Proof.
  split_and!.
  - split.
    + intros x t Hx. cbn [empty_world heap] in Hx.
      by rewrite lookup_empty in Hx.
    + by intros x ?%elem_of_nil.
  - intros c p tc tp d Hc. cbn [empty_world heap] in Hc.
    by rewrite lookup_empty in Hc.
  - intros x t p d Hx. cbn [empty_world heap] in Hx.
    by rewrite lookup_empty in Hx.
  - intros x t c d Hx. cbn [empty_world heap] in Hx.
    by rewrite lookup_empty in Hx.
Qed.

(** A base node that is constructed over stored parents keeps the store
    well formed. *)
Lemma new_Tensor_well_formed
    (has_backwards_path : node_id → node_id → bool) (tensor : torch_Tensor)
    (parents : list node_id) (links : list Plate) (name : option string)
    (w : world) :
  well_formed w → Forall (stored (heap w)) parents →
  failed_on_cost_parent
    (snd (new_Tensor has_backwards_path tensor parents links name w))
  = false →
  well_formed
    (fst (new_Tensor has_backwards_path tensor parents links name w)).
Proof.
  intros (Hw & Hmirror & Hps & Hcs) Hparents.
  assert (heap w !! next_id w = None) as Hfresh.
  { destruct (heap w !! next_id w) as [t|] eqn:Hself; [|done].
    destruct Hw as [Hw _]. destruct (Hw _ _ Hself). lia. }
  unfold new_Tensor. cbn [Tensor__new__].
  destruct (Tensor__init__ _ _ _ _ _ _ _ _) as [w' r] eqn:Hinit.
  pose proof (Tensor__init__consistent has_backwards_path tensor parents
                links name BaseTensor w w' r Hw
                (stored_allocated w parents (store_consistent_ordered w Hw)
                Hparents) Hinit) as Hw'.
  pose proof (Tensor__init__mirrored has_backwards_path tensor parents links
                name BaseTensor w w' r Hw
                (stored_allocated w parents (store_consistent_ordered w Hw)
                Hparents) Hmirror Hinit)
    as Hmirror'.
  destruct (Tensor__init__references has_backwards_path (next_id w) tensor
              parents links name BaseTensor (snd (Tensor__new__ w)) w' r
              Hfresh Hparents Hinit) as [Hps' Hcs'].
  destruct r as [e|[]]; cbn [fst snd]; intros Hfailed;
    split_and!; try done; by auto.
Qed.

Lemma two_nodes_well_formed : well_formed two_nodes.
Proof.
  apply new_Tensor_well_formed; [|repeat constructor; by eexists|done].
  apply new_Tensor_well_formed; [apply well_formed_empty|constructor|done].
Qed.

Lemma plated_consistent : store_consistent plated.
Proof.
  apply new_Tensor_well_formed; [apply well_formed_empty|constructor|done].
Qed.

Lemma construction_records_edges_witness :
  let w' := fst (Tensor__init__ every_edge 2 scalar [0; 1; 0] [] None
                                BaseTensor two_nodes) in
  ∃ node,
    heap w' !! 2 = Some node
    ∧ _parents node = [(0, true); (1, true); (0, true)]
    ∧ _children node = [].
Proof.
  intros w'.
  destruct (construction_records_edges every_edge 2 scalar [0; 1; 0] []
              None BaseTensor two_nodes w')
    as (node & Hnode & Hparents & Hchildren & _).
  - repeat constructor; by eexists.
  - reflexivity.
  - exists node. by split_and!.
Defined.

Lemma validation_failure_leaves_world_witness :
  fst (Tensor__init__ every_edge 2 (mk_torch [2; 2]%Z []) [0]
                      [("a", 2%Z); ("a", 2%Z)] None BaseTensor two_nodes)
  = two_nodes
  ∧ fst (StochasticTensor__init__ every_edge 2 (mk_torch [2; 2]%Z []) [0]
                                  [("z", 2%Z)] ∅ true 2 "z" two_nodes)
    = two_nodes.
Proof.
  split.
  - destruct (validation_failure_leaves_world every_edge 2
                (mk_torch [2; 2]%Z []) [0] [("a", 2%Z); ("a", 2%Z)] None "z"
                false ∅ true 2 BaseTensor two_nodes
                (fst (Tensor__init__ every_edge 2 (mk_torch [2; 2]%Z []) [0]
                        [("a", 2%Z); ("a", 2%Z)] None BaseTensor two_nodes))
                (ValueError (TwoInstancesOfPlate "a")))
      as [Hbase _].
    apply Hbase; [discriminate | reflexivity].
  - destruct (validation_failure_leaves_world every_edge 2
                (mk_torch [2; 2]%Z []) [0] [("z", 2%Z)] None "z"
                false ∅ true 2 BaseTensor two_nodes
                (fst (StochasticTensor__init__ every_edge 2
                        (mk_torch [2; 2]%Z []) [0] [("z", 2%Z)] ∅ true 2 "z"
                        two_nodes))
                (ValueError (StochasticNameInUse "z")))
      as (_ & _ & _ & Hstochastic).
    apply Hstochastic; reflexivity.
Defined.

Lemma cost_parent_failure_leaves_children_witness :
  let w' := fst (Tensor__init__ every_edge 2 scalar [0; 1; 0] [] None
                                BaseTensor with_cost) in
  heap w' !! 2 = None
  ∧ ∃ t', heap w' !! 0 = Some t' ∧ _children t' = [(1, true); (2, true)].
Proof.
  intros w'.
  destruct (cost_parent_failure_leaves_children every_edge 2 scalar
              [0; 1; 0] [] None BaseTensor with_cost w')
    as (Hself & _ & _ & _ & Hchildren).
  - reflexivity.
  - repeat constructor; by eexists.
  - reflexivity.
  - split; [exact Hself|].
    destruct (Hchildren 0 _ eq_refl) as (t' & Ht' & Hc & _).
    exists t'. split; [exact Ht'|]. rewrite Hc. reflexivity.
Defined.

Lemma constructors_keep_store_consistent_witness :
  store_ordered
    (fst (new_StochasticTensor every_edge (mk_torch [2%Z] []) [0; 1] [] ∅
                               true 2 "z" two_nodes))
  ∧ store_consistent
      (fst (new_Tensor every_edge scalar [0; 1] [] None two_nodes)).
Proof.
  destruct (constructors_keep_store_consistent every_edge scalar [0; 1] []
              None "z" false ∅ true 2 two_nodes) as [_ Hconsistent].
  { repeat constructor; by eexists. }
  destruct (constructors_keep_store_consistent every_edge (mk_torch [2%Z] [])
              [0; 1] [] None "z" false ∅ true 2 two_nodes) as [Hordered _].
  { repeat constructor; by eexists. }
  split.
  - apply Hordered, store_consistent_ordered, two_nodes_well_formed.
  - apply Hconsistent, two_nodes_well_formed.
Defined.

Lemma batch_and_event_dimensions_witness :
  ∃ node,
    heap plated !! 0 = Some node
    ∧ batch_shape node = [3; 2]%Z
    ∧ batch_dim_indices node ++ event_dim_indices node = [0; 1; 2].
Proof.
  eexists. split; [reflexivity|].
  destruct (batch_and_event_dimensions plated 0 _ plated_consistent eq_refl)
    as (_ & _ & Hshape & Hindices & _).
  split.
  - rewrite Hshape. reflexivity.
  - rewrite Hindices. reflexivity.
Defined.

Lemma multi_dim_plates_and_batch_len_witness :
  ∃ node,
    heap plated !! 0 = Some node
    ∧ snd <$> multi_dim_plates node = batch_shape node
    ∧ length (multi_dim_plates node) = batch_len node.
Proof.
  eexists. split; [reflexivity|].
  destruct (multi_dim_plates_and_batch_len plated 0 _ plated_consistent
              eq_refl) as (_ & _ & _ & Hvalid).
  apply Hvalid. repeat constructor; simpl; lia.
Defined.

Lemma iterate_batch_indices_enumerates_witness :
  length (iterate_batch_indices (sample_node 3 ∅ ∅)) = 3.
Proof.
  destruct (iterate_batch_indices_enumerates (sample_node 3 ∅ ∅))
    as (_ & _ & Hlength & _).
  rewrite Hlength. reflexivity.
Defined.

Lemma walk_yields_reachable_nodes_witness :
  ∃ nodes,
    [1; 0] = id <$> nodes
    ∧ head nodes = Some 1
    ∧ NoDup nodes
    ∧ ∀ x, x ∈ nodes
           ↔ rtc (followed (expand_parents (heap two_nodes)) false) 1 x.
Proof.
  apply (walk_yields_reachable_nodes (expand_parents (heap two_nodes)) false
           true id 5 1 [1; 0]).
  reflexivity.
Defined.

Lemma walk_orders_agree_witness : [3; 2; 0; 1] ≡ₚ [3; 1; 2; 0].
Proof.
  apply (walk_orders_agree (expand_parents diamond_heap) false id 6 6 3);
    reflexivity.
Defined.

Lemma walks_of_a_store_end_witness :
  ∃ fuel nodes,
    walk_children (heap two_nodes) fuel 0 false false false id
    = Some (id <$> nodes)
    ∧ Forall (stored (heap two_nodes)) nodes.
Proof.
  destruct (walks_of_a_store_end (heap two_nodes) 0 false false id)
    as [_ Hchildren]; [by eexists|].
  apply Hchildren, two_nodes_well_formed.
Defined.

Lemma repeated_walks_end_on_consistent_stores_witness :
  ∃ fuel l, walk_parents (heap two_nodes) fuel 1 true false true id = Some l.
Proof.
  destruct (repeated_walks_end_on_consistent_stores two_nodes 1 true false
              id) as [Hparents _].
  - apply two_nodes_well_formed.
  - by eexists.
  - apply Hparents, two_nodes_well_formed.
Defined.

Lemma total_expected_grad_raises_witness :
  (∃ r, total_expected_grad mean_shape
          (sample_node 3 ∅ {["loc" := mk_torch [3%Z; 2%Z] []]}) = inr r)
  ↔ dom ({["loc" := mk_torch [3%Z; 2%Z] []]} : gmap string torch_Tensor)
    ⊆ dom (∅ : gmap string torch_Tensor).
Proof.
  destruct (total_expected_grad_raises mean_shape
              (sample_node 3 ∅ {["loc" := mk_torch [3%Z; 2%Z] []]}) 3 ∅ true
              {["loc" := mk_torch [3%Z; 2%Z] []]})
    as (Hreturns & _); [reflexivity|].
  exact Hreturns.
Defined.

Lemma total_variance_grad_outcome_witness :
  let loc := mk_torch [2%Z] [] in
  let grad := mk_torch [3%Z; 2%Z] [] in
  ∃ v,
    total_variance_grad mean_shape left_operand left_operand mean_shape
                        same_tensor
                        (sample_node 3 {["loc" := loc]} {["loc" := grad]})
    = inr v.
Proof.
  intros loc grad.
  destruct (total_variance_grad_outcome mean_shape left_operand left_operand
              mean_shape same_tensor
              (sample_node 3 {["loc" := loc]} {["loc" := grad]}) 3
              {["loc" := loc]} true {["loc" := grad]})
    as (Hreturns & _); [reflexivity|].
  apply Hreturns. intros name g [<- <-]%lookup_singleton_Some.
  exists loc. split; [apply lookup_singleton_eq|]. vm_compute. lia.
Defined.

Lemma constructors_only_append_children_witness :
  only_appends_children (next_id two_nodes) (heap two_nodes)
    (heap (fst (new_Tensor every_edge scalar [0; 1] [] None two_nodes)))
  ∧ only_appends_children_beside_plates (next_id two_nodes) (heap two_nodes)
      (heap (fst (new_StochasticTensor every_edge (mk_torch [2%Z] []) [0; 1]
                                       [] ∅ true 2 "z" two_nodes))).
Proof.
  destruct (constructors_only_append_children every_edge scalar [0; 1] []
              None "z" false ∅ true 2 two_nodes)
    as ((Hbase & _) & _).
  { repeat constructor; by eexists. }
  destruct (constructors_only_append_children every_edge (mk_torch [2%Z] [])
              [0; 1] [] None "z" false ∅ true 2 two_nodes)
    as (_ & _ & _ & Hstochastic & _).
  { repeat constructor; by eexists. }
  by split.
Defined.

Lemma constructors_keep_edges_mirrored_witness :
  edges_mirrored
    (heap (fst (new_Tensor every_edge scalar [0; 1] [] None two_nodes)))
  ∧ children_stored
      (heap (fst (new_Tensor every_edge scalar [0; 1] [] None two_nodes))).
Proof.
  destruct (constructors_keep_edges_mirrored every_edge scalar [0; 1] []
              None "z" false ∅ true 2 two_nodes)
    as ((Hmirror & _ & Hchildren) & _).
  - apply two_nodes_well_formed.
  - repeat constructor; by eexists.
  - apply two_nodes_well_formed.
  - split; [exact Hmirror|]. apply Hchildren; [|reflexivity].
    apply two_nodes_well_formed.
Defined.

Lemma walks_are_inverse_witness : 0 ∈ [1; 0] ↔ 1 ∈ [0; 1].
Proof.
  apply (walks_are_inverse (heap two_nodes) 1 0 true true false 5 5).
  - apply two_nodes_well_formed.
  - apply two_nodes_well_formed.
  - apply two_nodes_well_formed.
  - by eexists.
  - by eexists.
  - reflexivity.
  - reflexivity.
Defined.

Lemma sampling_nodes_after_construction_witness :
  let w' := fst (new_StochasticTensor every_edge (mk_torch [3%Z] []) [] [] ∅
                                      true 3 "z" (empty_world true)) in
  ∃ node,
    heap w' !! 0 = Some node
    ∧ attr_n node = inr 3%Z
    ∧ total_expected_grad mean_shape node = inr ∅.
Proof.
  intros w'.
  destruct (sampling_nodes_after_construction every_edge mean_shape
              left_operand left_operand mean_shape same_tensor
              (mk_torch [3%Z] []) [] [] ∅ true 3 "z" (empty_world true) w' 0)
    as [Hstochastic _]; [constructor|].
  destruct Hstochastic as (node & Hnode & Hn & _ & _ & _ & _ & Hgrad & _);
    [reflexivity|].
  by exists node.
Defined.
